(** * Pytris: a shallow embedding of the game-state simulation of [game.py]

    The development follows the source file top to bottom: the Python
    runtime pieces the game relies on (list indexing, deques, the random
    shuffle, float arithmetic for the fall interval), the tetromino tables,
    the [Piece] and [GameState] classes, the rendering helpers as far as
    they compute what is painted (the ghost piece, the rectangles of the
    board and of the active piece), and the key handlers of the main
    loop.  The calls into the graphics library, the side panel and the
    window set-up are left out: they only read the state. *)

From Stdlib Require Import ZArith Lia Bool List Permutation.
From Stdlib Require Import Floats.PrimFloat Floats.FloatOps Floats.SpecFloat.
From stdpp Require Import base list.
Import ListNotations.

#[local] Open Scope Z_scope.

(** ** Python runtime *)

(** The exceptions the program could raise.  None of them is caught in
    the source, so a raised exception ends the program.  [Diverges] stands
    for a [while] loop that never exits; [SystemExit] is what [sys.exit()]
    raises. *)
Inductive exn : Type :=
| IndexError | ZeroDivisionError | AttributeError | SystemExit | Diverges.

Inductive res (A : Type) : Type :=
| Ok (a : A)
| Raise (e : exn).
Arguments Ok {A} a.
Arguments Raise {A} e.

Definition bind {A B : Type} (m : res A) (f : A -> res B) : res B :=
  match m with
  | Ok a => f a
  | Raise e => Raise e
  end.

Notation "'do' x <- m ; k" := (bind m (fun x => k))
  (at level 10, x name, m at level 100, k at level 200).
Notation "'do' ' p <- m ; k" := (bind m (fun x => match x with p => k end))
  (at level 10, p pattern, m at level 100, k at level 200).

Section PyList.
Context {A : Type}.

(** [len(l)] *)
Definition len (l : list A) : Z := Z.of_nat (length l).

(** A Python index [i] into a sequence of length [n]: negative indices
    count from the end; anything outside [-n, n) is an [IndexError]. *)
Definition norm_index (n i : Z) : res nat :=
  let j := if i <? 0 then i + n else i in
  if (0 <=? j) && (j <? n) then Ok (Z.to_nat j) else Raise IndexError.

(** [l[i]] *)
Definition getitem (l : list A) (i : Z) : res A :=
  do j <- norm_index (len l) i;
  match l !! j with
  | Some a => Ok a
  | None => Raise IndexError
  end.

(** [l[i] = v] *)
Definition setitem (l : list A) (i : Z) (v : A) : res (list A) :=
  do j <- norm_index (len l) i;
  Ok (<[j := v]> l).

(** [d.popleft()] on a deque *)
Definition popleft (d : list A) : res (A * list A) :=
  match d with
  | [] => Raise IndexError
  | a :: rest => Ok (a, rest)
  end.

(** [enumerate(l)] *)
Fixpoint enumerate_from (i : Z) (l : list A) : list (Z * A) :=
  match l with
  | [] => []
  | a :: rest => (i, a) :: enumerate_from (i + 1) rest
  end.
Definition enumerate (l : list A) : list (Z * A) := enumerate_from 0 l.

(** [zip(a, b)] with a combining function: stops at the shorter one. *)
Fixpoint zip_cons (heads : list A) (tails : list (list A)) : list (list A) :=
  match heads, tails with
  | h :: hs, t :: ts => (h :: t) :: zip_cons hs ts
  | _, _ => []
  end.

(** [zip] of the unpacked [rows]: their columns, as many as the shortest
    row has. *)
Fixpoint zip_star (rows : list (list A)) : list (list A) :=
  match rows with
  | [] => []
  | [r] => map (fun v => [v]) r
  | r :: rs => zip_cons r (zip_star rs)
  end.

(** [x[i], x[j] = x[j], x[i]] *)
Definition swap_items (x : list A) (i j : nat) : list A :=
  match x !! i, x !! j with
  | Some a, Some b => <[j := a]> (<[i := b]> x)
  | _, _ => x
  end.
End PyList.

(** [a % b] on Python integers: the result has the sign of [b]. *)
Definition py_mod (a b : Z) : res Z :=
  if b =? 0 then Raise ZeroDivisionError else Ok (a mod b).

(** *** [random]

    The generator is a tape of raw draws; [randbelow n] reduces the next
    draw modulo [n], so every value below [n] can come out.  An exhausted
    tape reads 0. *)
Definition Tape := list nat.

(** [randbelow(n)]: the value drawn and the rest of the tape. *)
Definition randbelow (n : nat) (t : Tape) : nat * Tape :=
  (((hd 0 t) mod n)%nat, tl t).

(** [random.shuffle(x)], as CPython implements it: for [i] from
    [len(x) - 1] down to 1, swap [x[i]] with [x[randbelow(i + 1)]]. *)
Fixpoint shuffle_down {A : Type} (i : nat) (x : list A) (t : Tape) : list A * Tape :=
  match i with
  | O => (x, t)
  | S i' =>
      let '(j, t') := randbelow (S i) t in
      shuffle_down i' (swap_items x i j) t'
  end.

Definition shuffle {A : Type} (x : list A) (t : Tape) : list A * Tape :=
  shuffle_down (length x - 1) x t.

(** *** Floats

    [float ** int] and [int(float)] on binary64, for a positive base and an
    exponent that is not negative (the game raises 0.85 to the level).  The
    power is the exact power of the base rounded once, to nearest-even: the
    value of a correctly rounded [pow].  CPython's results agree with it at
    the levels 0 to 14, where the fall interval depends on it; from level
    15 on the interval is capped at 80. *)
(** [float(z)] *)
Definition float_of_Z (z : Z) : float :=
  SF2Prim (binary_normalize prec emax z 0 false).

(** [x ** n] *)
Definition float_pow (x : float) (n : Z) : float :=
  match Prim2SF x with
  | S754_finite false m e =>
      SF2Prim (binary_normalize prec emax (Z.pos m ^ n) (e * n) false)
  | _ => x
  end.

(** [int(x)]: truncation toward zero. *)
Definition float_int (x : float) : Z :=
  match Prim2SF x with
  | S754_finite s m e =>
      let a := if 0 <=? e then Z.pos m * 2 ^ e else Z.pos m / 2 ^ (- e) in
      if s then - a else a
  | _ => 0
  end.

(** ** Constants *)

Definition COLS : Z := 10.
Definition ROWS : Z := 20.

Definition BASE_FALL_MS : Z := 800.
(** 0.85, the nearest binary64 value. *)
Definition LEVEL_SPEEDUP : float := 0x1.b333333333333p-1%float.
Definition SOFT_DROP_MS : Z := 40.
Definition LOCK_DELAY_MS : Z := 500.

(** [SCORES.get(cleared, 0)] for [SCORES = {0: 0, 1: 100, 2: 300, 3: 500, 4: 800}] *)
Definition SCORES_get (cleared : Z) : Z :=
  if cleared =? 0 then 0
  else if cleared =? 1 then 100
  else if cleared =? 2 then 300
  else if cleared =? 3 then 500
  else if cleared =? 4 then 800
  else 0.
Definition SOFT_DROP_SCORE : Z := 1.
Definition HARD_DROP_SCORE : Z := 2.

(** ** Tetromino tables *)

Inductive Kind : Type := KI | KJ | KL | KO | KS | KT | KZ.

Definition Matrix := list (list Z).

Definition SHAPES (k : Kind) : list Matrix :=
  match k with
  | KI => [ [[0;0;0;0];
             [1;1;1;1];
             [0;0;0;0];
             [0;0;0;0]];
            [[0;0;1;0];
             [0;0;1;0];
             [0;0;1;0];
             [0;0;1;0]] ]
  | KJ => [ [[1;0;0];
             [1;1;1];
             [0;0;0]] ]
  | KL => [ [[0;0;1];
             [1;1;1];
             [0;0;0]] ]
  | KO => [ [[1;1];
             [1;1]] ]
  | KS => [ [[0;1;1];
             [1;1;0];
             [0;0;0]] ]
  | KT => [ [[0;1;0];
             [1;1;1];
             [0;0;0]] ]
  | KZ => [ [[1;1;0];
             [0;1;1];
             [0;0;0]] ]
  end.

Fixpoint row_eqb (a b : list Z) : bool :=
  match a, b with
  | [], [] => true
  | u :: a', v :: b' => (u =? v) && row_eqb a' b'
  | _, _ => false
  end.

(** [==] on 2D lists *)
Fixpoint matrix_eqb (a b : Matrix) : bool :=
  match a, b with
  | [], [] => true
  | u :: a', v :: b' => row_eqb u v && matrix_eqb a' b'
  | _, _ => false
  end.

(** The [uniq] loops of the source: keep the first occurrence of each state. *)
Definition uniq (rots : list Matrix) : list Matrix :=
  fold_left
    (fun acc r => if existsb (matrix_eqb r) acc then acc else acc ++ [r])
    rots [].

(** [zip] of the unpacked [current[::-1]]: rotate 90 degrees clockwise *)
Definition rot_cw (m : Matrix) : Matrix := zip_star (rev m).

Definition rotations_from_matrix (mat : Matrix) : list Matrix :=
  let step (st : list Matrix * Matrix) :=
    let '(rots, current) := st in (rots ++ [current], rot_cw current) in
  uniq (fst (Nat.iter 4 step ([], mat))).

(** The module-level loop that fills [PIECES].  Every entry of [SHAPES]
    has at least one matrix, so [v[0]] is always there. *)
Definition PIECES (k : Kind) : list Matrix :=
  let v := SHAPES k in
  if 1 <? len v then uniq (flat_map rotations_from_matrix v)
  else match v with
       | mat :: _ => rotations_from_matrix mat
       | [] => []
       end.

(** [list(PIECES.keys())], in insertion order *)
Definition PIECE_KEYS : list Kind := [KI; KJ; KL; KO; KS; KT; KZ].

(** [new_bag] *)
Definition new_bag (t : Tape) : list Kind * Tape := shuffle PIECE_KEYS t.

(** [rotate_shape]: clockwise is [zip] of the unpacked [shape[::-1]],
    counter-clockwise is [zip] of the unpacked [shape], reversed. *)
Definition rotate_shape (shape : Matrix) (cw : bool) : Matrix :=
  if cw then zip_star (rev shape) else rev (zip_star shape).

(** ** [class Piece] *)

Record Piece : Type := mkPiece {
  kind : Kind;
  rot_index : Z;
  shape_list : list Matrix;
  shape : Matrix;
  px : Z;   (* [self.x] *)
  py : Z    (* [self.y] *)
}.

Definition spawn_x (sh : Matrix) : res Z :=
  do row0 <- getitem sh 0;
  Ok (COLS / 2 - len row0 / 2).

Definition spawn_y (sh : Matrix) : Z := - (len sh - 1).

(** [Piece.__init__] *)
Definition Piece_init (k : Kind) : res Piece :=
  let sl := PIECES k in
  do sh <- getitem sl 0;
  do x0 <- spawn_x sh;
  Ok {| kind := k; rot_index := 0; shape_list := sl; shape := sh;
        px := x0; py := spawn_y sh |}.

(** [Piece.rotate] *)
Definition rotate (p : Piece) (cw : bool) : res Piece :=
  do ri <- py_mod (if cw then rot_index p + 1 else rot_index p - 1)
                  (len (shape_list p));
  do sh <- getitem (shape_list p) ri;
  Ok {| kind := kind p; rot_index := ri; shape_list := shape_list p;
        shape := sh; px := px p; py := py p |}.

(** [Piece.get_cells]: the board coordinates [(x, y)] of the filled cells,
    row by row. *)
Definition get_cells (p : Piece) (x_off y_off : Z) : list (Z * Z) :=
  flat_map (fun rr : Z * list Z =>
    flat_map (fun cv : Z * Z =>
      if snd cv =? 0 then []
      else [(px p + fst cv + x_off, py p + fst rr + y_off)])
      (enumerate (snd rr)))
    (enumerate (shape p)).

Definition move_by (p : Piece) (dx dy : Z) : Piece :=
  {| kind := kind p; rot_index := rot_index p; shape_list := shape_list p;
     shape := shape p; px := px p + dx; py := py p + dy |}.

(** ** [class GameState] *)

Definition Cell := option Kind.
Definition Board := list (list Cell).

(** The attributes the bag helpers work on, together with the state of the
    module-wide random generator that [new_bag] draws from. *)
Record Supply : Type := mkSupply {
  rng : Tape;
  bag : list Kind;
  next_queue : list Kind
}.

Record GameState : Type := mkGame {
  supply : Supply;
  board : Board;
  active : Piece;
  hold : option Kind;
  hold_used : bool;
  last_fall : Z;
  fall_ms : Z;
  paused : bool;
  game_over : bool;
  score : Z;
  lines : Z;
  level : Z;
  grounded : bool;
  lock_start : option Z;
  lock_resets_left : Z
}.

(** Attribute assignments. *)
Definition set_supply (q : Supply) (s : GameState) : GameState :=
  mkGame q (board s) (active s) (hold s) (hold_used s) (last_fall s)
    (fall_ms s) (paused s) (game_over s) (score s) (lines s) (level s)
    (grounded s) (lock_start s) (lock_resets_left s).
Definition set_board (b : Board) (s : GameState) : GameState :=
  mkGame (supply s) b (active s) (hold s) (hold_used s) (last_fall s)
    (fall_ms s) (paused s) (game_over s) (score s) (lines s) (level s)
    (grounded s) (lock_start s) (lock_resets_left s).
Definition set_active (p : Piece) (s : GameState) : GameState :=
  mkGame (supply s) (board s) p (hold s) (hold_used s) (last_fall s)
    (fall_ms s) (paused s) (game_over s) (score s) (lines s) (level s)
    (grounded s) (lock_start s) (lock_resets_left s).
Definition set_hold (h : option Kind) (s : GameState) : GameState :=
  mkGame (supply s) (board s) (active s) h (hold_used s) (last_fall s)
    (fall_ms s) (paused s) (game_over s) (score s) (lines s) (level s)
    (grounded s) (lock_start s) (lock_resets_left s).
Definition set_hold_used (u : bool) (s : GameState) : GameState :=
  mkGame (supply s) (board s) (active s) (hold s) u (last_fall s)
    (fall_ms s) (paused s) (game_over s) (score s) (lines s) (level s)
    (grounded s) (lock_start s) (lock_resets_left s).
Definition set_last_fall (t : Z) (s : GameState) : GameState :=
  mkGame (supply s) (board s) (active s) (hold s) (hold_used s) t
    (fall_ms s) (paused s) (game_over s) (score s) (lines s) (level s)
    (grounded s) (lock_start s) (lock_resets_left s).
Definition set_paused (b : bool) (s : GameState) : GameState :=
  mkGame (supply s) (board s) (active s) (hold s) (hold_used s) (last_fall s)
    (fall_ms s) b (game_over s) (score s) (lines s) (level s)
    (grounded s) (lock_start s) (lock_resets_left s).
Definition set_game_over (b : bool) (s : GameState) : GameState :=
  mkGame (supply s) (board s) (active s) (hold s) (hold_used s) (last_fall s)
    (fall_ms s) (paused s) b (score s) (lines s) (level s)
    (grounded s) (lock_start s) (lock_resets_left s).
Definition set_score (n : Z) (s : GameState) : GameState :=
  mkGame (supply s) (board s) (active s) (hold s) (hold_used s) (last_fall s)
    (fall_ms s) (paused s) (game_over s) n (lines s) (level s)
    (grounded s) (lock_start s) (lock_resets_left s).
(** The three assignments that start a fresh lock delay:
    [grounded = False; lock_start = None; lock_resets_left = 15]. *)
Definition set_lock (g : bool) (t : option Z) (n : Z) (s : GameState) : GameState :=
  mkGame (supply s) (board s) (active s) (hold s) (hold_used s) (last_fall s)
    (fall_ms s) (paused s) (game_over s) (score s) (lines s) (level s)
    g t n.

(** *** Bag and queue helpers *)

(** [GameState._fill_next] *)
Definition _fill_next (q : Supply) : res Supply :=
  let '(b, t) := match bag q with
                 | [] => new_bag (rng q)
                 | _ :: _ => (bag q, rng q)
                 end in
  do '(k, rest) <- popleft b;
  Ok {| rng := t; bag := rest; next_queue := next_queue q ++ [k] |}.

(** [GameState._spawn_from_queue] *)
Definition _spawn_from_queue (q : Supply) : res (Piece * Supply) :=
  do q1 <- match next_queue q with
           | [] => _fill_next q
           | _ :: _ => Ok q
           end;
  do '(k, rest) <- popleft (next_queue q1);
  do q2 <- _fill_next {| rng := rng q1; bag := bag q1; next_queue := rest |};
  do p <- Piece_init k;
  Ok (p, q2).

(** *** Collision *)

Definition is_not_None (c : Cell) : bool :=
  match c with Some _ => true | None => false end.

(** [board[y][x]] *)
Definition board_get (b : Board) (y x : Z) : res Cell :=
  do row <- getitem b y;
  getitem row x.

(** The loop of [GameState.collision] over the cells of the piece.  Next to
    the verdict it returns the board positions [(x, y)] it has read with
    [board[y][x]], in order. *)
Fixpoint collision_scan (b : Board) (cells : list (Z * Z))
  : res (bool * list (Z * Z)) :=
  match cells with
  | [] => Ok (false, [])
  | (x, y) :: rest =>
      if (x <? 0) || (x >=? COLS) then Ok (true, [])
      else if y >=? ROWS then Ok (true, [])
      else if y >=? 0 then
        do c <- board_get b y x;
        if is_not_None c then Ok (true, [(x, y)])
        else do '(r, reads) <- collision_scan b rest;
             Ok (r, (x, y) :: reads)
      else collision_scan b rest
  end.

(** [GameState.collision] *)
Definition collision (s : GameState) (p : Piece) (x_off y_off : Z) : res bool :=
  do '(r, _) <- collision_scan (board s) (get_cells p x_off y_off);
  Ok r.

(** *** Lock delay *)

(** [GameState.reset_lock_timer]; [now] is what [pygame.time.get_ticks()]
    returns. *)
Definition reset_lock_timer (now : Z) (s : GameState) : GameState :=
  if 0 <? lock_resets_left s
  then set_lock (grounded s) (Some now) (lock_resets_left s - 1) s
  else s.

(** *** Rotation with wall kicks *)

Definition kicks : list (Z * Z) :=
  [(0, 0); (-1, 0); (1, 0); (-2, 0); (2, 0); (0, -1)].

(** The [for dx, dy in kicks] loop: the first offset at which the active
    piece does not collide, if there is one. *)
Fixpoint first_free_kick (s : GameState) (ks : list (Z * Z)) : res (option (Z * Z)) :=
  match ks with
  | [] => Ok None
  | (dx, dy) :: rest =>
      do c <- collision s (active s) dx dy;
      if negb c then Ok (Some (dx, dy)) else first_free_kick s rest
  end.

(** [GameState.try_rotate_with_kick]: the returned flag and the new state. *)
Definition try_rotate_with_kick (cw : bool) (now : Z) (s : GameState)
  : res (bool * GameState) :=
  let original_rot := rot_index (active s) in
  do p <- rotate (active s) cw;
  let s1 := set_active p s in
  do found <- first_free_kick s1 kicks;
  match found with
  | Some (dx, dy) =>
      let s2 := set_active (move_by (active s1) dx dy) s1 in
      Ok (true, if grounded s2 then reset_lock_timer now s2 else s2)
  | None =>
      let a := active s1 in
      do sh <- getitem (shape_list a) original_rot;
      Ok (false,
          set_active {| kind := kind a; rot_index := original_rot;
                        shape_list := shape_list a; shape := sh;
                        px := px a; py := py a |} s1)
  end.

(** *** Locking and line clears *)

(** [board[y][x] = v]; the rows are separate list objects. *)
Definition board_set (b : Board) (y x : Z) (v : Cell) : res Board :=
  do row <- getitem b y;
  do row' <- setitem row x v;
  setitem b y row'.

(** The first loop of [lock_piece].  Next to the new board it returns the
    positions [(x, y)] it has written with [board[y][x] = kind], in order. *)
Fixpoint lock_cells (b : Board) (k : Kind) (cells : list (Z * Z))
  : res (Board * list (Z * Z)) :=
  match cells with
  | [] => Ok (b, [])
  | (x, y) :: rest =>
      if (y >=? 0) && (y <? ROWS) then
        do b1 <- board_set b y x (Some k);
        do '(b2, writes) <- lock_cells b1 k rest;
        Ok (b2, (x, y) :: writes)
      else lock_cells b k rest
  end.

(** [any(cell is None for cell in row)] *)
Definition has_empty_cell (row : list Cell) : bool :=
  existsb (fun c => negb (is_not_None c)) row.

(** [[None]*COLS] *)
Definition empty_row : list Cell := replicate (Z.to_nat COLS) None.

(** [max(80, int(BASE_FALL_MS * (LEVEL_SPEEDUP ** level)))]; levels are
    never negative. *)
Definition level_fall_ms (lvl : Z) : Z :=
  Z.max 80 (float_int (PrimFloat.mul (float_of_Z BASE_FALL_MS)
                                     (float_pow LEVEL_SPEEDUP lvl))).

(** [GameState.clear_lines_and_score] *)
Definition clear_lines_and_score (s : GameState) : GameState :=
  let new_board := List.filter has_empty_cell (board s) in
  let cleared := ROWS - len new_board in
  if cleared >? 0 then
    let new_board' := Nat.iter (Z.to_nat cleared) (cons empty_row) new_board in
    let score' := score s + SCORES_get cleared * (level s + 1) in
    let lines' := lines s + cleared in
    let level' := lines' / 10 in
    mkGame (supply s) new_board' (active s) (hold s) (hold_used s)
      (last_fall s) (level_fall_ms level') (paused s) (game_over s)
      score' lines' level'
      (grounded s) (lock_start s) (lock_resets_left s)
  else s.

(** The tail shared by [lock_piece] and [hold_action]:
    [if self.collision(self.active): self.game_over = True]. *)
Definition check_spawn_collision (s : GameState) : res GameState :=
  do c <- collision s (active s) 0 0;
  Ok (if c then set_game_over true s else s).

(** [GameState.lock_piece] *)
Definition lock_piece (s : GameState) : res GameState :=
  do '(b, _) <- lock_cells (board s) (kind (active s)) (get_cells (active s) 0 0);
  let s1 := clear_lines_and_score (set_board b s) in
  do '(p, q) <- _spawn_from_queue (supply s1);
  let s2 := set_active p (set_supply q s1) in
  let s3 := set_hold_used false s2 in
  let s4 := set_lock false None 15 s3 in
  check_spawn_collision s4.

(** *** Drops *)

(** The [while not self.collision(self.active, 0, 1)] loop of [hard_drop],
    run for at most [fuel] tests of the condition. *)
Fixpoint drop_loop (fuel : nat) (s : GameState) (drop : Z) : res (GameState * Z) :=
  match fuel with
  | O => Raise Diverges
  | S fuel' =>
      do c <- collision s (active s) 0 1;
      if negb c
      then drop_loop fuel' (set_active (move_by (active s) 0 1) s) (drop + 1)
      else Ok (s, drop)
  end.

(** A filled cell of the piece is at or below row [py], and the loop stops
    at the latest when that cell reaches row [ROWS - 1]; so this many tests
    are enough whenever the piece has a filled cell at all. *)
Definition drop_fuel (s : GameState) : nat :=
  S (Z.to_nat (ROWS - 1 - py (active s))).

(** [GameState.hard_drop] (the [time.sleep] after the lock is not modelled) *)
Definition hard_drop (s : GameState) : res GameState :=
  do '(s1, drop) <- drop_loop (drop_fuel s) s 0;
  lock_piece (set_score (score s1 + HARD_DROP_SCORE * drop) s1).

(** [GameState.soft_drop] *)
Definition soft_drop (s : GameState) : res GameState :=
  do c <- collision s (active s) 0 1;
  if negb c
  then Ok (set_score (score s + SOFT_DROP_SCORE)
             (set_active (move_by (active s) 0 1) s))
  else Ok s.

(** *** Hold *)

(** The [if self.hold is None: ... else: ...] of [hold_action]: put the
    active kind into hold and take the next piece from the queue or the
    piece that was held. *)
Definition hold_swap (s : GameState) : res GameState :=
  match hold s with
  | None =>
      let s1 := set_hold (Some (kind (active s))) s in
      do '(p, q) <- _spawn_from_queue (supply s1);
      Ok (set_active p (set_supply q s1))
  | Some temp =>
      let s1 := set_hold (Some (kind (active s))) s in
      do p <- Piece_init temp;
      Ok (set_active p s1)
  end.

(** The rest of [hold_action]: reset the position and the lock delay, then
    check the spawn collision. *)
Definition hold_reposition (s : GameState) : res GameState :=
  let a := active s in
  do x0 <- spawn_x (shape a);
  let a' := {| kind := kind a; rot_index := rot_index a;
               shape_list := shape_list a; shape := shape a;
               px := x0; py := spawn_y (shape a) |} in
  check_spawn_collision (set_lock false None 15 (set_active a' s)).

(** [GameState.hold_action] *)
Definition hold_action (s : GameState) : res GameState :=
  if hold_used s then Ok s
  else
    do s2 <- hold_swap (set_hold_used true s);
    hold_reposition s2.

(** *** Gravity *)

(** Truth value of [self.lock_start]: [None] and [0] are false. *)
Definition truthy (t : option Z) : bool :=
  match t with
  | Some v => negb (v =? 0)
  | None => false
  end.

(** [if not self.grounded: self.grounded = True; self.lock_start = now] *)
Definition touch_ground (now : Z) (s : GameState) : GameState :=
  if grounded s then s else set_lock true (Some now) (lock_resets_left s) s.

(** [if self.lock_start and now - self.lock_start >= LOCK_DELAY_MS] *)
Definition lock_delay_over (now : Z) (s : GameState) : bool :=
  truthy (lock_start s) &&
  match lock_start s with
  | Some t0 => now - t0 >=? LOCK_DELAY_MS
  | None => false
  end.

(** [GameState.tick]; [now] is the clock reading of this call and
    [down_pressed] is [pygame.key.get_pressed()[pygame.K_DOWN]]. *)
Definition tick (now : Z) (down_pressed : bool) (s : GameState) : res GameState :=
  if game_over s || paused s then Ok (set_last_fall now s)
  else
    let falling_interval := if down_pressed then SOFT_DROP_MS else fall_ms s in
    if now - last_fall s >=? falling_interval then
      do c <- collision s (active s) 0 1;
      do s1 <- (if negb c
                then Ok (set_lock false None (lock_resets_left s)
                           (set_active (move_by (active s) 0 1) s))
                else
                  let s' := touch_ground now s in
                  if lock_delay_over now s' then lock_piece s' else Ok s');
      Ok (set_last_fall now s1)
    else Ok s.

(** *** Construction *)

(** [[[None for _ in range(COLS)] for _ in range(ROWS)]] *)
Definition empty_board : Board := replicate (Z.to_nat ROWS) empty_row.

(** [for _ in range(n): self._fill_next()] *)
Fixpoint fill_many (n : nat) (q : Supply) : res Supply :=
  match n with
  | O => Ok q
  | S n' => do q1 <- _fill_next q; fill_many n' q1
  end.

(** [GameState.__init__]: [t] is the state of the random generator and
    [now] the clock reading. *)
Definition GameState_init (t : Tape) (now : Z) : res GameState :=
  let '(b, t1) := new_bag t in
  do q <- fill_many 5 {| rng := t1; bag := b; next_queue := [] |};
  do '(p, q1) <- _spawn_from_queue q;
  Ok (mkGame q1 empty_board p None false now BASE_FALL_MS false false
        0 0 0 false None 15).

(** ** Rendering helpers *)

(** The [while not state.collision(ghost, 0, 1)] loop of [draw_ghost], run
    for at most [fuel] tests of the condition. *)
Fixpoint ghost_loop (fuel : nat) (s : GameState) (ghost : Piece) : res Piece :=
  match fuel with
  | O => Raise Diverges
  | S fuel' =>
      do c <- collision s ghost 0 1;
      if negb c then ghost_loop fuel' s (move_by ghost 0 1) else Ok ghost
  end.

(** [draw_ghost], up to the calls into the graphics library: the ghost
    piece it ends with, and the cells [(x, y)] for which it draws a
    rectangle (those with [y >= 0]), in order. *)
Definition draw_ghost (s : GameState) : res (Piece * list (Z * Z)) :=
  do g0 <- Piece_init (kind (active s));
  let g := {| kind := kind g0; rot_index := rot_index (active s);
              shape_list := shape_list g0; shape := shape (active s);
              px := px (active s); py := py (active s) |} in
  do ghost <- ghost_loop (S (Z.to_nat (ROWS - 1 - py g))) s g;
  Ok (ghost, List.filter (fun c => snd c >=? 0) (get_cells ghost 0 0)).

(** *** What is painted

    The rectangles that [draw_board] and [draw_piece] hand to
    [pygame.draw.rect], as [(colour, (left, top, width, height))], in the
    order of the calls.  The calls made before an exception are not
    recorded. *)

Definition CELL : Z := 30.
Definition PLAY_WIDTH : Z := COLS * CELL.

Definition Color := (Z * Z * Z)%type.
Definition Rect := (Z * Z * Z * Z)%type.

Definition GRAY : Color := (40, 40, 40).

(** [dict(zip(PIECE_KEYS, COLORS))] *)
Definition KEY_TO_COLOR (k : Kind) : Color :=
  match k with
  | KI => (0, 240, 240)
  | KJ => (0, 0, 240)
  | KL => (255, 165, 0)
  | KO => (240, 240, 0)
  | KS => (0, 240, 0)
  | KT => (160, 0, 240)
  | KZ => (240, 0, 0)
  end.

(** [range(n)] *)
Definition range (n : Z) : list Z := map Z.of_nat (seq 0 (Z.to_nat n)).

(** A [for] loop whose body paints and may raise. *)
Fixpoint for_each {A : Type} (l : list A) (body : A -> res (list (Color * Rect)))
  : res (list (Color * Rect)) :=
  match l with
  | [] => Ok []
  | a :: rest =>
      do painted <- body a;
      do more <- for_each rest body;
      Ok (painted ++ more)
  end.

(** [(x*CELL+1, y*CELL+1, CELL-2, CELL-2)] *)
Definition block_rect (x y : Z) : Rect :=
  (x * CELL + 1, y * CELL + 1, CELL - 2, CELL - 2).

(** The rectangles of [draw_board]: the background and the locked blocks
    (the grid is made of lines). *)
Definition draw_board (s : GameState) : res (list (Color * Rect)) :=
  do blocks <-
    for_each (range ROWS) (fun r =>
      for_each (range COLS) (fun c =>
        do cell <- board_get (board s) r c;
        match cell with
        | Some k => Ok [(KEY_TO_COLOR k, block_rect c r)]
        | None => Ok []
        end));
  Ok ((GRAY, (0, 0, PLAY_WIDTH, ROWS * CELL)) :: blocks).

(** [int(c*0.25)] *)
Definition dimmed (c : Z) : Z :=
  float_int (PrimFloat.mul (float_of_Z c) 0x1p-2%float).

(** [draw_piece] *)
Definition draw_piece (piece : Piece) (ghost : bool) : list (Color * Rect) :=
  let color := KEY_TO_COLOR (kind piece) in
  let col := if ghost
             then let '(r, g, b) := color in (dimmed r, dimmed g, dimmed b)
             else color in
  flat_map (fun c : Z * Z =>
              if snd c >=? 0 then [(col, block_rect (fst c) (snd c))] else [])
           (get_cells piece 0 0).

(** ** The main loop's key handlers *)

(** [K_LEFT]/[K_a] ([dx = -1]) and [K_RIGHT]/[K_d] ([dx = 1]) *)
Definition move_sideways (dx : Z) (now : Z) (s : GameState) : res GameState :=
  do c <- collision s (active s) dx 0;
  if negb c then
    let s1 := set_active (move_by (active s) dx 0) s in
    Ok (if grounded s1 then reset_lock_timer now s1 else s1)
  else Ok s.

(** [K_p] *)
Definition toggle_pause (s : GameState) : GameState :=
  set_paused (negb (paused s)) s.

(** What the main loop does to a game state: the events it handles and
    the per-frame [tick].  Those that may read the clock carry the
    reading.  ([K_r] builds a new [GameState]; see [reachable].)
    [WindowQuit] is the event of type [pygame.QUIT] and [KeyEscape] the key
    [K_ESCAPE]. *)
Inductive Event : Type :=
| KeyPause
| KeyHold
| KeyRotate (cw : bool) (now : Z)
| KeyHardDrop
| KeySoftDrop
| KeyLeft (now : Z)
| KeyRight (now : Z)
| Tick (now : Z) (down_pressed : bool)
| KeyEscape
| WindowQuit.

(** The body of the main loop for one event.  On [pygame.QUIT] the loop
    calls [sys.exit()].  On [K_ESCAPE] it calls [sys.ext()], and the module
    [sys] has no attribute [ext]: the attribute lookup raises
    [AttributeError]. *)
Definition step (e : Event) (s : GameState) : res GameState :=
  match e with
  | KeyPause => Ok (toggle_pause s)
  | KeyHold => hold_action s
  | KeyRotate cw now => do '(_, s1) <- try_rotate_with_kick cw now s; Ok s1
  | KeyHardDrop => hard_drop s
  | KeySoftDrop => soft_drop s
  | KeyLeft now => move_sideways (-1) now s
  | KeyRight now => move_sideways 1 now s
  | Tick now down => tick now down s
  | KeyEscape => Raise AttributeError
  | WindowQuit => Raise SystemExit
  end.

(** The events that end the program. *)
Definition quits (e : Event) : bool :=
  match e with
  | KeyEscape | WindowQuit => true
  | _ => false
  end.

(** The states a game can be in: a freshly built one (at start-up or after
    [K_r], whatever the random generator holds then), or one obtained from
    such a state by an event that raised no exception. *)
Inductive reachable : GameState -> Prop :=
| reach_init t now s :
    GameState_init t now = Ok s -> reachable s
| reach_step s e s1 :
    reachable s -> step e s = Ok s1 -> reachable s1.

(** * Vocabulary of the properties *)

(** ** Cells and boards *)

(** The filled positions [(c, r)] of a shape, relative to its top-left
    corner, in the order [get_cells] visits them. *)
Definition filled (sh : Matrix) : list (Z * Z) :=
  flat_map (fun rr : Z * list Z =>
    flat_map (fun cv : Z * Z =>
      if snd cv =? 0 then [] else [(fst cv, fst rr)])
      (enumerate (snd rr)))
    (enumerate sh).

(** A cell in one of the columns of the board. *)
Definition x_in_range (c : Z * Z) : Prop := 0 <= fst c < COLS.

(** A board of [ROWS] rows of [COLS] cells. *)
Definition board_ok (b : Board) : Prop :=
  len b = ROWS /\ Forall (fun row : list Cell => len row = COLS) b.

(** A position [(x, y)] inside [0,COLS) x [0,ROWS). *)
Definition on_board (c : Z * Z) : Prop :=
  0 <= fst c < COLS /\ 0 <= snd c < ROWS.

(** The content of an in-range position, without the indexing machinery. *)
Definition cell_at (b : Board) (x y : Z) : Cell :=
  match b !! Z.to_nat y with
  | Some row => match row !! Z.to_nat x with
                | Some c => c
                | None => None
                end
  | None => None
  end.

(** What [collision] decides for one cell. *)
Definition cell_hits (b : Board) (c : Z * Z) : bool :=
  (fst c <? 0) || (fst c >=? COLS) || (snd c >=? ROWS)
  || ((snd c >=? 0) && is_not_None (cell_at b (fst c) (snd c))).

(** What [collision] decides for a list of cells. *)
Definition collides (b : Board) (cells : list (Z * Z)) : bool :=
  existsb (cell_hits b) cells.

(** The guard of [lock_piece]: [y >= 0 and y < ROWS]. *)
Definition row_on_board (c : Z * Z) : bool := (snd c >=? 0) && (snd c <? ROWS).

(** ** Pieces and states *)

(** What [Piece.__init__] and [Piece.rotate] maintain. *)
Definition piece_ok (p : Piece) : Prop :=
  shape_list p = PIECES (kind p) /\
  0 <= rot_index p /\
  shape_list p !! Z.to_nat (rot_index p) = Some (shape p).

(** [self.shape] is [self.shape_list[self.rot_index]]. *)
Definition shape_in_sync (p : Piece) : Prop :=
  getitem (shape_list p) (rot_index p) = Ok (shape p).

(** What holds of every state the game gets into. *)
Record inv (s : GameState) : Prop := mkInv {
  inv_board : board_ok (board s);
  inv_piece : piece_ok (active s);
  inv_cols : Forall x_in_range (get_cells (active s) 0 0);
  inv_lines : 0 <= lines s;
  inv_level : level s = lines s / 10;
  inv_resets : 0 <= lock_resets_left s <= 15
}.

(** A state that differs from [s] in the active piece at most. *)
Definition only_active_changed (s s1 : GameState) : Prop :=
  s1 = set_active (active s1) s.

(** Whether the active piece of [s], shifted by the kick [k], is free. *)
Definition kick_free (s : GameState) (k : Z * Z) : bool :=
  negb (collides (board s) (get_cells (active s) (fst k) (snd k))).

(** The state [try_rotate_with_kick] leaves when the kick [(dx, dy)] works
    for the rotated piece [p1]. *)
Definition kicked (now : Z) (p1 : Piece) (k : Z * Z) (s : GameState) : GameState :=
  let s2 := set_active (move_by p1 (fst k) (snd k)) s in
  if grounded s2 then reset_lock_timer now s2 else s2.

(** ** Locking *)

(** The conditions under which [tick] reaches its call of [lock_piece]. *)
Definition tick_locks (now : Z) (down_pressed : bool) (s : GameState) : Prop :=
  game_over s || paused s = false
  /\ (now - last_fall s >=? (if down_pressed then SOFT_DROP_MS else fall_ms s)) = true
  /\ collision s (active s) 0 1 = Ok true
  /\ lock_delay_over now (touch_ground now s) = true.

(** The events that get a new active piece by locking the old one. *)
Definition locking (e : Event) (s : GameState) : Prop :=
  e = KeyHardDrop \/ exists now down, e = Tick now down /\ tick_locks now down s.




(** ** Counters and line clears *)

(** Score, cleared lines, level and fall interval. *)
Definition counters (s : GameState) : Z * Z * Z * Z :=
  (score s, lines s, level s, fall_ms s).

(** The counters are consistent: a line count and the level it gives. *)
Definition counters_ok (s : GameState) : Prop :=
  0 <= lines s /\ level s = lines s / 10.

(** From [s] to [s1] the score, the line count and the level have not gone
    down; and either line count, level and fall interval are the same, or
    the line count has grown and the fall interval is the one computed for
    the new level. *)
Definition counters_grow (s s1 : GameState) : Prop :=
  score s <= score s1 /\ lines s <= lines s1 /\ level s <= level s1 /\
  ((lines s1 = lines s /\ level s1 = level s /\ fall_ms s1 = fall_ms s) \/
   (lines s < lines s1 /\ fall_ms s1 = level_fall_ms (level s1) /\
    80 <= fall_ms s1)).

(** [counters_grow], and the fall interval compared with the one before:
    when that was the interval of the level before and the new level is at
    most 16, the new interval is not longer, and it is shorter when the
    level has gone up to 15 at most. *)
Definition counters_up (s s1 : GameState) : Prop :=
  counters_grow s s1 /\
  (fall_ms s = level_fall_ms (level s) -> level s1 <= 16 ->
   fall_ms s1 <= fall_ms s /\
   (level s < level s1 -> level s1 <= 15 -> fall_ms s1 < fall_ms s)).

(** A row in which every cell is non-empty. *)
Definition row_full (row : list Cell) : bool := forallb is_not_None row.

(** ** Concrete games and states *)

(** A concrete game, for the examples below: the generator draws
    3, 5, 1, 2, 0, 1 and the clock reads 0. *)
Definition demo_tape : Tape := [3; 5; 1; 2; 0; 1]%nat.

(** Its first state. *)
Definition demo_state : GameState :=
  match GameState_init demo_tape 0 with
  | Ok s => s
  | Raise _ =>
      mkGame (mkSupply [] [] []) [] (mkPiece KI 0 [] [] 0 0) None false 0 0
        false false 0 0 0 false None 0
  end.

(** [run es s]: the events [es] one after the other, from [s]. *)
Fixpoint run (es : list Event) (s : GameState) : res GameState :=
  match es with
  | [] => Ok s
  | e :: rest => do s1 <- step e s; run rest s1
  end.

(** Thirty pieces of an actual game, as the keys pressed: [kR] rotates
    clockwise, [kl] and [kr] move, [kD] drops.  Nine lines are cleared on
    the way and the next hard drop completes the tenth. *)
Definition nine_line_keys : list Event :=
  let kR := KeyRotate true 0 in
  let kl := KeyLeft 0 in
  let kr := KeyRight 0 in
  let kD := KeyHardDrop in
    [kl; kl; kl; kl; kD; kR; kl; kl; kl; kD; kr; kD; kD; kr; kr; kr; kD;
     kR; kl; kl; kl; kl; kl; kD; kr; kr; kr; kr; kD; kl; kD; kD; kl; kl;
     kl; kD; kD; kr; kr; kr; kD; kR; kl; kl; kD; kR; kl; kl; kl; kl; kl;
     kD; kR; kR; kR; kl; kl; kl; kD; kR; kR; kr; kr; kr; kD; kr; kD; kR;
     kr; kr; kr; kD; kR; kl; kl; kD; kl; kD; kR; kl; kl; kl; kl; kD; kR;
     kr; kr; kD; kR; kR; kR; kr; kr; kr; kr; kD; kr; kr; kr; kr; kD; kR;
     kD; kR; kR; kR; kr; kr; kD; kR; kl; kD; kl; kl; kl; kD; kR; kl; kl;
     kl; kD; kR; kR; kr; kr; kD; kl; kl; kl; kl].

(** A bottom row that a Z piece dropped from the spawn position
    completes. *)
Definition nearly_full_row : list Cell :=
  [Some KI; Some KI; Some KI; Some KI; Some KI; None; None;
   Some KI; Some KI; Some KI].

(** A game with nine lines cleared (score 900, level 0, 800 ms), that
    row at the bottom and a Z piece at its spawn position. *)
Definition level_up_state : GameState :=
  mkGame (mkSupply [] [KO] [KS; KI; KL; KJ; KT])
    (replicate 19 empty_row ++ [nearly_full_row])
    (mkPiece KZ 0 (PIECES KZ) [[1;1;0]; [0;1;1]; [0;0;0]] 4 (-2))
    None false 0 800 false false 900 9 0 false None 15.

(** The demo game with its first piece, a Z, turned upright and moved
    against the left wall: the next rotation needs the kick [(1, 0)]. *)
Definition wall_keys : list Event :=
  [KeyRotate true 0; KeyLeft 0; KeyLeft 0; KeyLeft 0; KeyLeft 0; KeyLeft 0].

Definition wall_state : GameState :=
  match run wall_keys demo_state with
  | Ok s => s
  | Raise _ => demo_state
  end.

(** The demo game with the Z and the S dropped and the I, upright, lowered
    into the left column beside the Z: no kick frees its clockwise
    rotation. *)
Definition well_keys : list Event :=
  [KeyLeft 0; KeyLeft 0; KeyLeft 0; KeyHardDrop;
   KeyRight 0; KeyRight 0; KeyRight 0; KeyHardDrop;
   KeyRotate true 0; KeyLeft 0; KeyLeft 0; KeyLeft 0; KeyLeft 0; KeyLeft 0]
  ++ repeat KeySoftDrop 19.

Definition well_state : GameState :=
  match run well_keys demo_state with
  | Ok s => s
  | Raise _ => demo_state
  end.

(** Twenty soft drops take the first piece of the demo game to the floor,
    and the tick at 1000 ms finds it resting there. *)
Definition floor_keys : list Event :=
  repeat KeySoftDrop 20 ++ [Tick 1000 false].






(** ** The state of a game in play *)

(** The queue shows five kinds, and the bag holds what is left of one
    shuffled set of the seven. *)
Definition supply_ok (q : Supply) : Prop :=
  length (next_queue q) = 5%nat /\ NoDup (bag q) /\ (length (bag q) <= 6)%nat.

(** What holds of every state the game gets into, beyond [inv]. *)
Record play_inv (s : GameState) : Prop := mkPlayInv {
  play_base : inv s;
  play_supply : supply_ok (supply s);
  play_lock : grounded s = true <-> lock_start s <> None;
  play_fall : fall_ms s = level_fall_ms (level s);
  play_score : 0 <= score s;
  play_rows : Forall (fun row : list Cell => has_empty_cell row = true) (board s);
  play_free :
    game_over s = false -> collides (board s) (get_cells (active s) 0 0) = false
}.

(** Whether the position [(x, y)] is among [cells]. *)
Definition among (cells : list (Z * Z)) (x y : Z) : bool :=
  existsb (fun c => (fst c =? x) && (snd c =? y)) cells.

(** Every row of [m] has [w] entries. *)
Definition rectangular {A : Type} (w : nat) (m : list (list A)) : Prop :=
  Forall (fun row => length row = w) m.

(** What a sideways key does when the way is free. *)
Definition moved_sideways (dx now : Z) (s : GameState) : GameState :=
  let s1 := set_active (move_by (active s) dx 0) s in
  if grounded s1 then reset_lock_timer now s1 else s1.

(** One square per occupied cell of the board, row by row. *)
Definition board_blocks (b : Board) : list (Color * Rect) :=
  flat_map (fun r =>
    flat_map (fun c =>
      match cell_at b c r with
      | Some k => [(KEY_TO_COLOR k, block_rect c r)]
      | None => []
      end) (range COLS)) (range ROWS).

(** The demo game after three soft drops: the piece is on the board. *)
Definition dropped_state : GameState :=
  match run [KeySoftDrop; KeySoftDrop; KeySoftDrop] demo_state with
  | Ok s => s
  | Raise _ => demo_state
  end.

(** * Properties *)

(** ** The tables, evaluated *)

Example PIECES_I :
  PIECES KI =
  [ [[0;0;0;0]; [1;1;1;1]; [0;0;0;0]; [0;0;0;0]];
    [[0;0;1;0]; [0;0;1;0]; [0;0;1;0]; [0;0;1;0]];
    [[0;0;0;0]; [0;0;0;0]; [1;1;1;1]; [0;0;0;0]];
    [[0;1;0;0]; [0;1;0;0]; [0;1;0;0]; [0;1;0;0]] ].
Proof. reflexivity. Qed.

Example PIECES_T :
  PIECES KT =
  [ [[0;1;0]; [1;1;1]; [0;0;0]];
    [[0;1;0]; [0;1;1]; [0;1;0]];
    [[0;0;0]; [1;1;1]; [0;1;0]];
    [[0;1;0]; [1;1;0]; [0;1;0]] ].
Proof. reflexivity. Qed.

Example PIECES_sizes :
  map (fun k => length (PIECES k)) PIECE_KEYS = [4; 4; 4; 1; 4; 4; 4]%nat.
Proof. reflexivity. Qed.

(** Where each kind spawns: [(x, y)] of the top-left corner. *)
Example spawn_positions :
  map (fun k => match Piece_init k with
                | Ok p => Some (px p, py p)
                | Raise _ => None
                end) PIECE_KEYS
  = [Some (3, -3); Some (4, -2); Some (4, -2); Some (4, -1);
     Some (4, -2); Some (4, -2); Some (4, -2)].
Proof. reflexivity. Qed.

(** The fall interval at the levels 0 to 16. *)
Example level_fall_ms_table :
  map level_fall_ms [0; 1; 2; 3; 4; 5; 6; 7; 8; 9; 10; 11; 12; 13; 14; 15; 16]
  = [800; 680; 577; 491; 417; 354; 301; 256; 217; 185; 157; 133; 113; 96;
     82; 80; 80].
Proof. vm_compute. reflexivity. Qed.

(** The bag drawn from [demo_tape]. *)
Example new_bag_demo : new_bag demo_tape = ([KZ; KS; KI; KL; KJ; KT; KO], []).
Proof. reflexivity. Qed.

(** ** The runtime *)

Lemma bind_Ok {A B : Type} (m : res A) (f : A -> res B) (b : B) :
  bind m f = Ok b -> exists a, m = Ok a /\ f a = Ok b.
Proof. destruct m as [a|e]; simpl; intros H; [eauto | discriminate]. Qed.

(** Split a hypothesis [do x <- m; k = Ok r] into its two halves. *)
Ltac bind_inv H :=
  let a := fresh "a" in
  let Ha := fresh "Ha" in
  apply bind_Ok in H; destruct H as (a & Ha & H).

Section PyListFacts.
Context {A : Type}.
Implicit Types (l : list A) (i : Z).

Lemma norm_index_in_range n i :
  0 <= i < n -> norm_index n i = Ok (Z.to_nat i).
Proof.
  intros Hi. unfold norm_index.
  destruct (Z.ltb_spec i 0); [lia|].
  destruct (Z.leb_spec 0 i); [|lia].
  destruct (Z.ltb_spec i n); [reflexivity|lia].
Qed.

Lemma getitem_in_range l i :
  0 <= i < len l -> exists a, getitem l i = Ok a /\ l !! Z.to_nat i = Some a.
Proof.
  intros Hi. unfold getitem. rewrite norm_index_in_range by assumption. simpl.
  destruct (l !! Z.to_nat i) as [a|] eqn:E; [eauto|].
  apply lookup_ge_None in E. unfold len in Hi. lia.
Qed.

Lemma getitem_lookup l i a :
  0 <= i -> l !! Z.to_nat i = Some a -> getitem l i = Ok a.
Proof.
  intros Hi E. pose proof (lookup_lt_Some _ _ _ E) as Hlt.
  destruct (getitem_in_range l i) as (a' & -> & E'); [unfold len; lia|].
  congruence.
Qed.

Lemma setitem_in_range l i v :
  0 <= i < len l -> setitem l i v = Ok (<[Z.to_nat i := v]> l).
Proof.
  intros Hi. unfold setitem. now rewrite norm_index_in_range.
Qed.

Lemma enumerate_from_fst k l ia :
  In ia (enumerate_from k l) -> k <= fst ia < k + len l.
Proof.
  revert k. induction l as [|a l IH]; intros k; simpl; [tauto|].
  unfold len in *. simpl length.
  intros [<- | H]; simpl; [lia|].
  apply IH in H. lia.
Qed.
End PyListFacts.

(** ** Cells of a piece *)

Lemma map_flat_map_comm {X Y W : Type} (f : Y -> W) (g : X -> list Y) (l : list X) :
  map f (flat_map g l) = flat_map (fun x => map f (g x)) l.
Proof.
  induction l as [|x l IH]; simpl; [reflexivity|].
  now rewrite map_app, IH.
Qed.

Lemma flat_map_ext_all {X Y : Type} (f g : X -> list Y) (l : list X) :
  (forall x, f x = g x) -> flat_map f l = flat_map g l.
Proof.
  intros E. induction l as [|x l IH]; simpl; [reflexivity|].
  now rewrite E, IH.
Qed.

Lemma get_cells_filled (p : Piece) (xo yo : Z) :
  get_cells p xo yo =
  map (fun cr : Z * Z => (px p + fst cr + xo, py p + snd cr + yo))
      (filled (shape p)).
Proof.
  unfold get_cells, filled.
  rewrite map_flat_map_comm. apply flat_map_ext_all. intros rr.
  rewrite map_flat_map_comm. apply flat_map_ext_all. intros cv.
  now destruct (snd cv =? 0).
Qed.

Lemma filled_row_nonneg (sh : Matrix) (cr : Z * Z) :
  In cr (filled sh) -> 0 <= snd cr.
Proof.
  unfold filled. rewrite in_flat_map. intros (rr & Hrr & H).
  apply enumerate_from_fst in Hrr.
  rewrite in_flat_map in H. destruct H as (cv & _ & H).
  destruct (snd cv =? 0); simpl in H; [tauto|].
  destruct H as [<- | []]. simpl. lia.
Qed.

Lemma get_cells_move_by (p : Piece) (dx dy : Z) :
  get_cells (move_by p dx dy) 0 0 = get_cells p dx dy.
Proof.
  rewrite !get_cells_filled. simpl. apply map_ext. intros cr.
  f_equal; lia.
Qed.

(** ** Board accesses *)

Lemma board_ok_row (b : Board) (y : Z) :
  board_ok b -> 0 <= y < ROWS ->
  exists row, b !! Z.to_nat y = Some row /\ len row = COLS.
Proof.
  intros [Hl Hr] Hy.
  destruct (getitem_in_range b y) as (row & _ & E); [lia|].
  exists row. split; [exact E|].
  rewrite Forall_forall in Hr. apply Hr.
  eapply list_elem_of_lookup_2. exact E.
Qed.

Lemma board_get_ok (b : Board) (x y : Z) :
  board_ok b -> on_board (x, y) -> board_get b y x = Ok (cell_at b x y).
Proof.
  intros Hb [Hx Hy]. simpl in Hx, Hy.
  destruct (board_ok_row b y Hb Hy) as (row & E & Hrow).
  unfold board_get, cell_at. rewrite E.
  rewrite (getitem_lookup b y row) by (lia || assumption). simpl.
  destruct (getitem_in_range row x) as (c & -> & ->); [lia|reflexivity].
Qed.

Lemma collision_scan_reads (b : Board) (cells : list (Z * Z)) :
  forall r reads,
    collision_scan b cells = Ok (r, reads) -> Forall on_board reads.
Proof.
  induction cells as [|[x y] rest IH]; intros r reads H; simpl in H.
  - injection H as <- <-. constructor.
  - destruct (Z.ltb_spec x 0); simpl in H.
    { injection H as <- <-. constructor. }
    destruct (Z.geb_spec x COLS); simpl in H.
    { injection H as <- <-. constructor. }
    destruct (Z.geb_spec y ROWS).
    { injection H as <- <-. constructor. }
    destruct (Z.geb_spec y 0).
    + bind_inv H. destruct (is_not_None a).
      * injection H as <- <-. repeat constructor; simpl; lia.
      * bind_inv H. destruct a0 as [r0 reads0]. injection H as <- <-.
        constructor; [split; simpl; lia|]. eapply IH. exact Ha0.
    + eapply IH. exact H.
Qed.

Lemma collision_scan_total (b : Board) (cells : list (Z * Z)) :
  board_ok b ->
  exists reads, collision_scan b cells = Ok (collides b cells, reads).
Proof.
  intros Hb. induction cells as [|[x y] rest IH]; simpl.
  - eexists. reflexivity.
  - unfold cell_hits. simpl.
    destruct (Z.ltb_spec x 0); simpl; [eauto|].
    destruct (Z.geb_spec x COLS); simpl; [eauto|].
    destruct (Z.geb_spec y ROWS); simpl; [eauto|].
    destruct (Z.geb_spec y 0); simpl.
    + rewrite board_get_ok by (assumption || split; simpl; lia). simpl.
      destruct (is_not_None (cell_at b x y)); simpl; [eauto|].
      destruct IH as (reads & ->). simpl. eauto.
    + exact IH.
Qed.

Lemma collision_total (s : GameState) (p : Piece) (xo yo : Z) :
  board_ok (board s) ->
  collision s p xo yo = Ok (collides (board s) (get_cells p xo yo)).
Proof.
  intros Hb. unfold collision.
  destruct (collision_scan_total (board s) (get_cells p xo yo) Hb) as (reads & ->).
  reflexivity.
Qed.

Lemma collides_false_range (b : Board) (cells : list (Z * Z)) :
  collides b cells = false ->
  Forall (fun c => x_in_range c /\ snd c < ROWS) cells.
Proof.
  unfold collides. intros H. apply Forall_forall. intros c Hc.
  apply list_elem_of_In in Hc.
  assert (Hf : cell_hits b c = false).
  { destruct (cell_hits b c) eqn:E; [|reflexivity].
    assert (existsb (cell_hits b) cells = true) by (apply existsb_exists; eauto).
    congruence. }
  unfold cell_hits in Hf. unfold x_in_range.
  repeat (apply orb_false_elim in Hf; destruct Hf as [Hf ?]).
  lia.
Qed.

(** ** The shuffle and the bag *)

Lemma insert_swaps_element {A : Type} (l : list A) (i : nat) (a b : A) :
  l !! i = Some a -> a :: <[i := b]> l ≡ₚ b :: l.
Proof.
  revert i. induction l as [|x l IH]; intros i E; [discriminate|].
  destruct i as [|i]; simpl in *.
  - injection E as ->. apply perm_swap.
  - rewrite perm_swap. rewrite (IH i E). apply perm_swap.
Qed.

Lemma swap_items_perm {A : Type} (x : list A) (i j : nat) :
  swap_items x i j ≡ₚ x.
Proof.
  unfold swap_items.
  destruct (x !! i) as [a|] eqn:Ei; [|reflexivity].
  destruct (x !! j) as [b|] eqn:Ej; [|reflexivity].
  destruct (decide (i = j)) as [->|Hne].
  - assert (a = b) as -> by congruence.
    now rewrite !(list_insert_id x j b Ej).
  - apply (Permutation_cons_inv (a := b)).
    rewrite (insert_swaps_element (<[i := b]> x) j b a).
    + apply insert_swaps_element. exact Ei.
    + rewrite list_lookup_insert_ne by assumption. exact Ej.
Qed.

Lemma shuffle_down_perm {A : Type} (i : nat) (x : list A) (t : Tape) :
  fst (shuffle_down i x t) ≡ₚ x.
Proof.
  revert x t. induction i as [|i IH]; intros x t; simpl; [reflexivity|].
  rewrite IH. apply swap_items_perm.
Qed.

Lemma new_bag_perm (t : Tape) : fst (new_bag t) ≡ₚ PIECE_KEYS.
Proof. apply shuffle_down_perm. Qed.

Lemma new_bag_cons (t : Tape) :
  exists k rest, fst (new_bag t) = k :: rest.
Proof.
  pose proof (Permutation_length (new_bag_perm t)) as Hl.
  destruct (fst (new_bag t)) as [|k rest]; [discriminate|eauto].
Qed.

Lemma fill_next_from_bag (q : Supply) (k : Kind) (rest : list Kind) :
  bag q = k :: rest ->
  _fill_next q =
  Ok {| rng := rng q; bag := rest; next_queue := next_queue q ++ [k] |}.
Proof. intros E. unfold _fill_next. rewrite E. reflexivity. Qed.

Lemma fill_next_refill (q : Supply) (k : Kind) (rest : list Kind) :
  bag q = [] -> fst (new_bag (rng q)) = k :: rest ->
  _fill_next q =
  Ok {| rng := snd (new_bag (rng q)); bag := rest;
        next_queue := next_queue q ++ [k] |}.
Proof.
  intros E Hb. unfold _fill_next. rewrite E.
  destruct (new_bag (rng q)) as [b t]. simpl in Hb. subst b. reflexivity.
Qed.

Lemma fill_next_total (q : Supply) :
  exists q1 k, _fill_next q = Ok q1 /\ next_queue q1 = next_queue q ++ [k].
Proof.
  destruct (bag q) as [|k rest] eqn:E.
  - destruct (new_bag_cons (rng q)) as (k & rest & Hb).
    rewrite (fill_next_refill q k rest E Hb). eauto.
  - rewrite (fill_next_from_bag q k rest E). eauto.
Qed.

(** Drawing [n] kinds from a bag that holds at least [n]: they come out in
    order and the generator is not touched. *)
Lemma fill_many_from_bag (n : nat) (q : Supply) :
  (n <= length (bag q))%nat ->
  fill_many n q =
  Ok {| rng := rng q; bag := drop n (bag q);
        next_queue := next_queue q ++ take n (bag q) |}.
Proof.
  revert q. induction n as [|n IH]; intros q Hn; simpl.
  - rewrite drop_0, app_nil_r. now destruct q.
  - destruct (bag q) as [|k rest] eqn:E; simpl in Hn; [lia|].
    rewrite (fill_next_from_bag q k rest E). simpl.
    rewrite IH by (simpl; lia). simpl.
    now rewrite <- app_assoc.
Qed.

(** ** Pieces *)

Lemma piece_ok_sync (p : Piece) : piece_ok p -> shape_in_sync p.
Proof. intros (_ & H0 & E). now apply getitem_lookup. Qed.

Lemma Piece_init_total (k : Kind) :
  exists p, Piece_init k = Ok p /\ piece_ok p /\ kind p = k /\
            Forall x_in_range (get_cells p 0 0).
Proof.
  destruct k; eexists; (split; [vm_compute; reflexivity|]);
    (split; [repeat split; vm_compute; congruence|]);
    (split; [reflexivity|]);
    vm_compute; repeat constructor; congruence.
Qed.

Lemma PIECES_filled (k : Kind) (sh : Matrix) :
  In sh (PIECES k) -> filled sh <> [].
Proof.
  destruct k; vm_compute; intros H;
    repeat (destruct H as [<- | H]; [discriminate|]); destruct H.
Qed.

Lemma piece_ok_filled (p : Piece) : piece_ok p -> filled (shape p) <> [].
Proof.
  intros (Hl & _ & E). apply (PIECES_filled (kind p)). rewrite <- Hl.
  apply list_elem_of_In. eapply list_elem_of_lookup_2. exact E.
Qed.

Lemma rotate_total (p : Piece) (cw : bool) :
  piece_ok p ->
  exists p1, rotate p cw = Ok p1 /\ piece_ok p1 /\ kind p1 = kind p /\
             shape_list p1 = shape_list p /\ px p1 = px p /\ py p1 = py p.
Proof.
  intros (Hl & H0 & E). pose proof (lookup_lt_Some _ _ _ E) as Hlt.
  unfold rotate, py_mod.
  destruct (Z.eqb_spec (len (shape_list p)) 0) as [Hz|Hz];
    [unfold len in Hz; lia|]. simpl.
  set (ri := (if cw then rot_index p + 1 else rot_index p - 1)
             mod len (shape_list p)).
  assert (Hri : 0 <= ri < len (shape_list p)).
  { apply Z.mod_pos_bound. unfold len. lia. }
  destruct (getitem_in_range (shape_list p) ri Hri) as (sh & -> & Esh). simpl.
  eexists. split; [reflexivity|]. unfold piece_ok. simpl.
  split; [split; [exact Hl|split; [lia|exact Esh]]|].
  repeat split; reflexivity.
Qed.

Lemma spawn_total (q : Supply) :
  exists p q1, _spawn_from_queue q = Ok (p, q1) /\ piece_ok p /\
               Forall x_in_range (get_cells p 0 0) /\
               Piece_init (kind p) = Ok p.
Proof.
  unfold _spawn_from_queue.
  assert (exists q1 k rest, match next_queue q with
                            | [] => _fill_next q
                            | _ :: _ => Ok q
                            end = Ok q1 /\ next_queue q1 = k :: rest)
    as (q1 & k & rest & -> & Hq).
  { destruct (next_queue q) as [|k rest] eqn:E; [|eauto].
    destruct (fill_next_total q) as (q1 & k & -> & Hq). rewrite E in Hq. eauto. }
  simpl. rewrite Hq. simpl.
  destruct (fill_next_total {| rng := rng q1; bag := bag q1; next_queue := rest |})
    as (q2 & k' & -> & _). simpl.
  destruct (Piece_init_total k) as (p & Hp & Hok & Hk & Hx). rewrite Hp. simpl.
  exists p, q2. repeat split; try apply Hok; auto. now rewrite Hk.
Qed.

(** ** Writing the board *)

Lemma board_set_ok (b : Board) (x y : Z) (v : Cell) :
  board_ok b -> on_board (x, y) ->
  exists b1, board_set b y x v = Ok b1 /\ board_ok b1.
Proof.
  intros Hb [Hx Hy]. simpl in Hx, Hy.
  destruct (board_ok_row b y Hb Hy) as (row & E & Hrow).
  destruct Hb as [Hl Hr].
  unfold board_set.
  rewrite (getitem_lookup b y row) by (lia || assumption). simpl.
  rewrite setitem_in_range by lia. simpl.
  rewrite setitem_in_range by lia.
  eexists. split; [reflexivity|]. split.
  - unfold len in *. now rewrite length_insert.
  - apply Forall_insert; [exact Hr|].
    unfold len in *. now rewrite length_insert.
Qed.

(** The positions [lock_cells] writes are the cells it was given whose row
    is on the board, whatever their column. *)
Lemma lock_cells_writes (k : Kind) (cells : list (Z * Z)) :
  forall b b1 writes,
    lock_cells b k cells = Ok (b1, writes) ->
    writes = List.filter row_on_board cells.
Proof.
  induction cells as [|[x y] rest IH]; intros b b1 writes H; simpl in H.
  - now injection H as <- <-.
  - simpl. unfold row_on_board at 1. simpl.
    destruct ((y >=? 0) && (y <? ROWS)).
    + bind_inv H. bind_inv H. destruct a0 as [b2 w]. injection H as <- <-.
      f_equal. eapply IH. exact Ha0.
    + eapply IH. exact H.
Qed.

Lemma lock_cells_total (k : Kind) (cells : list (Z * Z)) :
  forall b, board_ok b -> Forall x_in_range cells ->
  exists b1 writes, lock_cells b k cells = Ok (b1, writes) /\ board_ok b1.
Proof.
  induction cells as [|[x y] rest IH]; intros b Hb Hc; simpl.
  - eauto.
  - inversion Hc as [|c l Hx Hrest]; subst. unfold x_in_range in Hx. simpl in Hx.
    destruct (Z.geb_spec y 0); simpl; [|apply IH; assumption].
    destruct (Z.ltb_spec y ROWS); simpl; [|apply IH; assumption].
    destruct (board_set_ok b x y (Some k) Hb) as (b1 & -> & Hb1);
      [split; simpl; lia|]. simpl.
    destruct (IH b1 Hb1 Hrest) as (b2 & w & -> & Hb2). simpl. eauto.
Qed.

(** ** Line clears *)

Lemma iter_cons_replicate {A : Type} (n : nat) (r : A) (l : list A) :
  Nat.iter n (cons r) l = replicate n r ++ l.
Proof. induction n as [|n IH]; simpl; [reflexivity|]. now rewrite IH. Qed.

Lemma filter_length_le {A : Type} (f : A -> bool) (l : list A) :
  (length (List.filter f l) <= length l)%nat.
Proof.
  induction l as [|a l IH]; simpl; [lia|]. destruct (f a); simpl; lia.
Qed.

Lemma Forall_list_filter {A : Type} (P : A -> Prop) (f : A -> bool) (l : list A) :
  Forall P l -> Forall P (List.filter f l).
Proof.
  induction 1 as [|a l Ha Hl IH]; simpl; [constructor|].
  destruct (f a); [constructor|]; assumption.
Qed.

Lemma empty_row_len : len empty_row = COLS.
Proof. reflexivity. Qed.

Lemma clear_lines_board_ok (s : GameState) :
  Forall (fun row : list Cell => len row = COLS) (board s) ->
  len (board s) = ROWS ->
  board_ok (board (clear_lines_and_score s)).
Proof.
  intros Hr Hl. unfold clear_lines_and_score.
  destruct (Z.gtb_spec (ROWS - len (List.filter has_empty_cell (board s))) 0) as [Hc|Hc];
    simpl; [|split; assumption].
  rewrite iter_cons_replicate. split.
  - unfold len in *. rewrite length_app, length_replicate. lia.
  - apply Forall_app. split.
    + apply Forall_replicate. apply empty_row_len.
    + now apply Forall_list_filter.
Qed.

(** ** The invariant of the game state *)

Lemma inv_clear_lines (s : GameState) : inv s -> inv (clear_lines_and_score s).
Proof.
  intros H. pose proof (clear_lines_board_ok s) as Hb.
  destruct H as [[Hl Hr] Hp Hc Hn Hv Hk]. specialize (Hb Hr Hl).
  constructor; try exact Hb; revert Hb; unfold clear_lines_and_score;
    destruct (Z.gtb_spec (ROWS - len (List.filter has_empty_cell (board s))) 0);
    simpl; intros _; try assumption; try reflexivity; lia.
Qed.

Lemma inv_reset_lock_timer (now : Z) (s : GameState) :
  inv s -> inv (reset_lock_timer now s).
Proof.
  intros [Hb Hp Hc Hn Hv Hk]. unfold reset_lock_timer.
  destruct (Z.ltb_spec 0 (lock_resets_left s)); constructor; simpl;
    try assumption; lia.
Qed.

Lemma inv_placed (s : GameState) (p : Piece) (dx dy : Z) :
  inv s -> piece_ok p -> collides (board s) (get_cells p dx dy) = false ->
  inv (set_active (move_by p dx dy) s).
Proof.
  intros [Hb _ _ Hn Hv Hk] Hp Hfree. constructor; simpl; try assumption.
  rewrite get_cells_move_by.
  eapply Forall_impl; [exact (collides_false_range _ _ Hfree)|].
  intros c [H _]. exact H.
Qed.

Lemma inv_moved (s : GameState) (dx dy : Z) :
  inv s -> collides (board s) (get_cells (active s) dx dy) = false ->
  inv (set_active (move_by (active s) dx dy) s).
Proof. intros H. apply inv_placed; [exact H|apply H]. Qed.

Lemma check_spawn_collision_total (s : GameState) :
  inv s ->
  exists s1, check_spawn_collision s = Ok s1 /\ inv s1 /\
    s1 = (if collides (board s) (get_cells (active s) 0 0)
          then set_game_over true s else s).
Proof.
  intros H. unfold check_spawn_collision.
  rewrite collision_total by apply H. simpl.
  eexists. split; [reflexivity|]. split; [|reflexivity].
  destruct (collides _ _); [|exact H].
  destruct H. constructor; assumption.
Qed.

Lemma lock_piece_total (s : GameState) :
  inv s -> exists s1, lock_piece s = Ok s1 /\ inv s1.
Proof.
  intros H. unfold lock_piece.
  destruct (lock_cells_total (kind (active s)) (get_cells (active s) 0 0) (board s))
    as (b & w & -> & Hb); [apply H..|]. simpl.
  assert (H1 : inv (clear_lines_and_score (set_board b s))).
  { apply inv_clear_lines. destruct H. constructor; assumption. }
  set (s1 := clear_lines_and_score (set_board b s)) in *.
  destruct (spawn_total (supply s1)) as (p & q & -> & Hp & Hx & _). simpl.
  destruct (check_spawn_collision_total
              (set_lock false None 15
                 (set_hold_used false (set_active p (set_supply q s1)))))
    as (s2 & -> & H2 & _).
  - destruct H1. constructor; simpl; try assumption; lia.
  - eauto.
Qed.

(** ** Drops *)

Lemma only_active_refl (s : GameState) : only_active_changed s s.
Proof. unfold only_active_changed. now destruct s. Qed.

Lemma free_below_bound (b : Board) (p : Piece) :
  piece_ok p -> collides b (get_cells p 0 1) = false -> py p + 1 < ROWS.
Proof.
  intros Hp Hfree. apply collides_false_range in Hfree.
  rewrite get_cells_filled, Forall_map in Hfree.
  pose proof (piece_ok_filled p Hp) as Hne.
  destruct (filled (shape p)) as [|cr rest] eqn:E; [congruence|].
  inversion Hfree as [|c l [_ Hy] _]; subst. simpl in Hy.
  assert (0 <= snd cr) by (apply (filled_row_nonneg (shape p)); rewrite E; now left).
  lia.
Qed.

Lemma drop_loop_total (fuel : nat) :
  forall s d0,
    inv s -> (Z.to_nat (ROWS - 1 - py (active s)) < fuel)%nat ->
    exists s1 d, drop_loop fuel s d0 = Ok (s1, d) /\ inv s1 /\ d0 <= d /\
                 only_active_changed s s1.
Proof.
  induction fuel as [|fuel IH]; intros s d0 H Hf; [lia|]. simpl.
  rewrite collision_total by apply H. simpl.
  destruct (collides (board s) (get_cells (active s) 0 1)) eqn:Hc; simpl.
  - exists s, d0. split; [reflexivity|].
    split; [exact H|]. split; [lia|apply only_active_refl].
  - pose proof (free_below_bound _ _ (inv_piece s H) Hc) as Hy.
    destruct (IH (set_active (move_by (active s) 0 1) s) (d0 + 1))
      as (s1 & d & -> & H1 & Hd & Hfr).
    + now apply inv_moved.
    + simpl. lia.
    + exists s1, d. split; [reflexivity|].
      split; [exact H1|]. split; [lia|].
      unfold only_active_changed in *. rewrite Hfr. reflexivity.
Qed.

Lemma getitem_raises {A : Type} (l : list A) (i : Z) (e : exn) :
  getitem l i = Raise e -> e = IndexError.
Proof.
  unfold getitem, norm_index.
  destruct ((0 <=? (if i <? 0 then i + len l else i))
            && ((if i <? 0 then i + len l else i) <? len l)); simpl.
  - destruct (l !! _); [discriminate|]. now intros [= <-].
  - now intros [= <-].
Qed.

Lemma collision_scan_raises (b : Board) (cells : list (Z * Z)) (e : exn) :
  collision_scan b cells = Raise e -> e = IndexError.
Proof.
  induction cells as [|[x y] rest IH]; simpl; [discriminate|].
  destruct ((x <? 0) || (x >=? COLS)); [discriminate|].
  destruct (y >=? ROWS); [discriminate|].
  destruct (y >=? 0); [|exact IH].
  unfold board_get.
  destruct (getitem b y) as [row|e1] eqn:E1; simpl.
  - destruct (getitem row x) as [c|e2] eqn:E2; simpl.
    + destruct (is_not_None c); [discriminate|].
      destruct (collision_scan b rest) as [[r reads]|e3]; simpl; [discriminate|].
      intros [= <-]. now apply IH.
    + intros [= <-]. eapply getitem_raises. exact E2.
  - intros [= <-]. eapply getitem_raises. exact E1.
Qed.

Lemma collision_scan_free (b : Board) (cells : list (Z * Z)) :
  forall reads,
    collision_scan b cells = Ok (false, reads) ->
    Forall (fun c => x_in_range c /\ snd c < ROWS) cells.
Proof.
  induction cells as [|[x y] rest IH]; intros reads H; simpl in H;
    [constructor|].
  destruct (Z.ltb_spec x 0); simpl in H; [discriminate|].
  destruct (Z.geb_spec x COLS); simpl in H; [discriminate|].
  destruct (Z.geb_spec y ROWS); [discriminate|].
  assert (Hxy : x_in_range (x, y) /\ snd (x, y) < ROWS)
    by (unfold x_in_range; simpl; lia).
  destruct (y >=? 0).
  - bind_inv H. destruct (is_not_None a); [discriminate|].
    bind_inv H. destruct a0 as [r reads0]. injection H as -> _.
    constructor; [exact Hxy|]. eapply IH. exact Ha0.
  - constructor; [exact Hxy|]. eapply IH. exact H.
Qed.

(** [drop_fuel] is not a limit on the loop of [hard_drop]: the tests only
    run out for a piece without a filled cell, for which [collision] is
    always false and the loop of the source never ends. *)
Lemma drop_loop_diverges (fuel : nat) :
  forall s d0,
    (Z.to_nat (ROWS - 1 - py (active s)) < fuel)%nat ->
    drop_loop fuel s d0 = Raise Diverges ->
    get_cells (active s) 0 0 = [].
Proof.
  induction fuel as [|fuel IH]; intros s d0 Hf H; [lia|]. simpl in H.
  unfold collision in H.
  destruct (collision_scan (board s) (get_cells (active s) 0 1))
    as [[[|] reads]|e] eqn:E; simpl in H.
  - discriminate.
  - apply collision_scan_free in E.
    rewrite get_cells_filled in *.
    destruct (filled (shape (active s))) as [|cr rest] eqn:Efill; [reflexivity|].
    exfalso.
    assert (Hrow : 0 <= snd cr)
      by (apply (filled_row_nonneg (shape (active s))); rewrite Efill; now left).
    inversion E as [|c l [_ Hy] _]; subst. simpl in Hy.
    apply IH in H; [|simpl; lia].
    rewrite get_cells_filled in H. simpl in H. rewrite Efill in H. discriminate.
  - injection H as ->. apply collision_scan_raises in E. discriminate.
Qed.

Lemma inv_only_score (s : GameState) (n : Z) : inv s -> inv (set_score n s).
Proof. intros []. constructor; assumption. Qed.

Lemma hard_drop_total (s : GameState) :
  inv s -> exists s1, hard_drop s = Ok s1 /\ inv s1.
Proof.
  intros H. unfold hard_drop.
  destruct (drop_loop_total (drop_fuel s) s 0 H) as (s1 & d & -> & H1 & _ & _);
    [unfold drop_fuel; lia|]. simpl.
  apply lock_piece_total. now apply inv_only_score.
Qed.

Lemma soft_drop_total (s : GameState) :
  inv s -> exists s1, soft_drop s = Ok s1 /\ inv s1.
Proof.
  intros H. unfold soft_drop. rewrite collision_total by apply H. simpl.
  destruct (collides (board s) (get_cells (active s) 0 1)) eqn:Hc; simpl.
  - eauto.
  - eexists. split; [reflexivity|]. apply inv_only_score. now apply inv_moved.
Qed.

(** ** Hold *)

(** A piece as [Piece.__init__] leaves it is already where [hold_action]
    puts it. *)
Lemma Piece_init_position (k : Kind) (p : Piece) :
  Piece_init k = Ok p ->
  spawn_x (shape p) = Ok (px p) /\ spawn_y (shape p) = py p.
Proof.
  unfold Piece_init. intros H. bind_inv H. bind_inv H.
  injection H as <-. simpl. auto.
Qed.

Lemma piece_eta (p : Piece) :
  {| kind := kind p; rot_index := rot_index p; shape_list := shape_list p;
     shape := shape p; px := px p; py := py p |} = p.
Proof. now destruct p. Qed.

Lemma hold_swap_total (s : GameState) :
  inv s ->
  exists s1, hold_swap s = Ok s1 /\ inv s1 /\
             Piece_init (kind (active s1)) = Ok (active s1).
Proof.
  intros H. unfold hold_swap. destruct (hold s) as [temp|]; cbv zeta.
  - destruct (Piece_init_total temp) as (p & Hp & Hok & Hk & Hx).
    rewrite Hp. simpl. eexists. split; [reflexivity|]. split.
    + destruct H. constructor; assumption.
    + simpl. now rewrite Hk.
  - destruct (spawn_total (supply s)) as (p & q & Hs & Hok & Hx & Hp).
    simpl. rewrite Hs. simpl. eexists. split; [reflexivity|]. split.
    + destruct H. constructor; assumption.
    + exact Hp.
Qed.

Lemma hold_reposition_total (s : GameState) :
  inv s -> Piece_init (kind (active s)) = Ok (active s) ->
  exists s1, hold_reposition s = Ok s1 /\ inv s1.
Proof.
  intros H Hinit. unfold hold_reposition.
  destruct (Piece_init_position _ _ Hinit) as [-> ->]. simpl.
  rewrite piece_eta.
  destruct (check_spawn_collision_total
              (set_lock false None 15 (set_active (active s) s)))
    as (s3 & -> & H3 & _); [|eauto].
  destruct H. constructor; simpl; try assumption; lia.
Qed.

Lemma hold_action_total (s : GameState) :
  inv s -> exists s1, hold_action s = Ok s1 /\ inv s1.
Proof.
  intros H. unfold hold_action.
  destruct (hold_used s); [eauto|].
  destruct (hold_swap_total (set_hold_used true s)) as (s2 & -> & H2 & Hi).
  { destruct H. constructor; assumption. }
  simpl. now apply hold_reposition_total.
Qed.

(** ** Gravity *)

Lemma inv_touch_ground (now : Z) (s : GameState) : inv s -> inv (touch_ground now s).
Proof.
  intros H. unfold touch_ground. destruct (grounded s); [exact H|].
  destruct H. constructor; assumption.
Qed.

Lemma inv_set_last_fall (now : Z) (s : GameState) : inv s -> inv (set_last_fall now s).
Proof. intros []. constructor; assumption. Qed.

Lemma tick_total (now : Z) (down : bool) (s : GameState) :
  inv s -> exists s1, tick now down s = Ok s1 /\ inv s1.
Proof.
  intros H. unfold tick.
  destruct (game_over s || paused s).
  { eexists. split; [reflexivity|]. now apply inv_set_last_fall. }
  destruct (now - last_fall s >=? (if down then SOFT_DROP_MS else fall_ms s));
    [|eauto].
  rewrite collision_total by apply H. simpl.
  destruct (collides (board s) (get_cells (active s) 0 1)) eqn:Hc; simpl.
  - destruct (lock_delay_over now (touch_ground now s)).
    + destruct (lock_piece_total _ (inv_touch_ground now s H)) as (s1 & -> & H1).
      simpl. eexists. split; [reflexivity|]. now apply inv_set_last_fall.
    + simpl. eexists. split; [reflexivity|].
      apply inv_set_last_fall. now apply inv_touch_ground.
  - eexists. split; [reflexivity|]. apply inv_set_last_fall.
    pose proof (inv_moved s 0 1 H Hc) as [].
    destruct H. constructor; simpl in *; assumption.
Qed.

(** ** Sideways moves and rotation *)

Lemma move_sideways_total (dx now : Z) (s : GameState) :
  inv s -> exists s1, move_sideways dx now s = Ok s1 /\ inv s1.
Proof.
  intros H. unfold move_sideways. rewrite collision_total by apply H. simpl.
  destruct (collides (board s) (get_cells (active s) dx 0)) eqn:Hc; simpl;
    [eauto|].
  eexists. split; [reflexivity|].
  destruct (grounded s); [apply inv_reset_lock_timer|]; now apply inv_moved.
Qed.

Lemma first_free_kick_find (s : GameState) (ks : list (Z * Z)) :
  board_ok (board s) -> first_free_kick s ks = Ok (find (kick_free s) ks).
Proof.
  intros Hb. induction ks as [|[dx dy] rest IH]; simpl; [reflexivity|].
  rewrite collision_total by assumption. simpl. unfold kick_free at 1. simpl.
  destruct (collides (board s) (get_cells (active s) dx dy)); simpl;
    [exact IH|reflexivity].
Qed.

Lemma try_rotate_with_kick_spec (cw : bool) (now : Z) (s : GameState) :
  piece_ok (active s) -> board_ok (board s) ->
  exists p1,
    rotate (active s) cw = Ok p1 /\ piece_ok p1 /\
    try_rotate_with_kick cw now s =
    Ok (match find (kick_free (set_active p1 s)) kicks with
        | Some k => (true, kicked now p1 k s)
        | None => (false, s)
        end).
Proof.
  intros Hp Hb. unfold try_rotate_with_kick.
  destruct (rotate_total (active s) cw Hp) as (p1 & Hr & Hp1 & Hk & Hl & Hx & Hy).
  exists p1. split; [exact Hr|]. split; [exact Hp1|]. rewrite Hr. cbn [bind].
  rewrite first_free_kick_find by exact Hb. cbn [bind].
  destruct (find (kick_free (set_active p1 s)) kicks) as [[dx dy]|].
  - reflexivity.
  - cbn [active set_active]. rewrite Hl. rewrite (piece_ok_sync _ Hp). cbn [bind].
    rewrite Hk, Hx, Hy, piece_eta. now destruct s.
Qed.

Lemma try_rotate_with_kick_total (cw : bool) (now : Z) (s : GameState) :
  inv s -> exists r s1, try_rotate_with_kick cw now s = Ok (r, s1) /\ inv s1.
Proof.
  intros H.
  destruct (try_rotate_with_kick_spec cw now s (inv_piece s H) (inv_board s H))
    as (p1 & Hr & Hp1 & ->).
  destruct (find (kick_free (set_active p1 s)) kicks) as [k|] eqn:E.
  - do 2 eexists. split; [reflexivity|].
    apply find_some in E. destruct E as [_ Hfree].
    unfold kick_free in Hfree. apply negb_true_iff in Hfree. simpl in Hfree.
    unfold kicked. simpl.
    destruct (grounded s); [apply inv_reset_lock_timer|];
      now apply inv_placed.
  - eauto.
Qed.

(** ** Every reachable state satisfies the invariant *)

Lemma fill_many_total (n : nat) (q : Supply) : exists q1, fill_many n q = Ok q1.
Proof.
  revert q. induction n as [|n IH]; intros q; simpl; [eauto|].
  destruct (fill_next_total q) as (q1 & k & -> & _). simpl. apply IH.
Qed.

Lemma empty_board_ok : board_ok empty_board.
Proof.
  split; [reflexivity|]. unfold empty_board. apply Forall_replicate.
  apply empty_row_len.
Qed.

Lemma GameState_init_total (t : Tape) (now : Z) :
  exists s p q,
    GameState_init t now = Ok s /\ inv s /\
    s = mkGame q empty_board p None false now BASE_FALL_MS false false
          0 0 0 false None 15.
Proof.
  unfold GameState_init. destruct (new_bag t) as [b t1].
  destruct (fill_many_total 5 {| rng := t1; bag := b; next_queue := [] |})
    as (q & ->). cbn [bind].
  destruct (spawn_total q) as (p & q1 & -> & Hp & Hx & _). cbn [bind].
  eexists _, p, q1. split; [reflexivity|]. split; [|reflexivity].
  constructor; cbn; try assumption; try lia; try reflexivity.
  apply empty_board_ok.
Qed.

Lemma step_total (e : Event) (s : GameState) :
  quits e = false -> inv s -> exists s1, step e s = Ok s1 /\ inv s1.
Proof.
  intros Hq H.
  destruct e as [| |cw now| | |now|now|now down| |]; try discriminate Hq; simpl.
  - eexists. split; [reflexivity|]. destruct H. constructor; assumption.
  - now apply hold_action_total.
  - destruct (try_rotate_with_kick_total cw now s H) as (r & s1 & -> & H1).
    simpl. eauto.
  - now apply hard_drop_total.
  - now apply soft_drop_total.
  - now apply move_sideways_total.
  - now apply move_sideways_total.
  - now apply tick_total.
Qed.

Lemma reachable_inv (s : GameState) : reachable s -> inv s.
Proof.
  induction 1 as [t now s Hinit | s e s1 _ IH Hstep].
  - destruct (GameState_init_total t now) as (s' & p & q & E & H & _).
    congruence.
  - destruct (quits e) eqn:Hq; [destruct e; discriminate|].
    destruct (step_total e s Hq IH) as (s' & E & H). congruence.
Qed.

(** No event but those that end the program raises an exception in a
    reachable state. *)
Lemma reachable_step_total (e : Event) (s : GameState) :
  quits e = false -> reachable s ->
  exists s1, step e s = Ok s1 /\ reachable s1.
Proof.
  intros Hq Hr.
  destruct (step_total e s Hq (reachable_inv s Hr)) as (s1 & E & _).
  exists s1. split; [exact E|]. eapply reach_step; eassumption.
Qed.

Lemma demo_state_init : GameState_init demo_tape 0 = Ok demo_state.
Proof. reflexivity. Qed.

Lemma demo_reachable : reachable demo_state.
Proof. exact (reach_init demo_tape 0 demo_state demo_state_init). Qed.

Lemma run_reachable (es : list Event) :
  forall s s1, reachable s -> run es s = Ok s1 -> reachable s1.
Proof.
  induction es as [|e rest IH]; intros s s1 Hr H; simpl in H.
  - now injection H as <-.
  - destruct (step e s) as [s0|] eqn:E; [|discriminate H]. cbn [bind] in H.
    eapply IH; [|exact H]. eapply reach_step; eassumption.
Qed.

Lemma wall_reachable : reachable wall_state.
Proof.
  apply (run_reachable wall_keys demo_state); [exact demo_reachable|].
  vm_compute. reflexivity.
Qed.

Lemma well_reachable : reachable well_state.
Proof.
  apply (run_reachable well_keys demo_state); [exact demo_reachable|].
  vm_compute. reflexivity.
Qed.

(** * The properties of the specification *)

(** ** C1: board accesses stay on the board *)

Lemma inv_lock_writes (s : GameState) :
  inv s ->
  exists b1 writes,
    lock_cells (board s) (kind (active s)) (get_cells (active s) 0 0)
      = Ok (b1, writes)
    /\ Forall on_board writes.
Proof.
  intros H.
  destruct (lock_cells_total (kind (active s)) (get_cells (active s) 0 0)
              (board s) (inv_board s H) (inv_cols s H)) as (b1 & writes & E & _).
  exists b1, writes. split; [exact E|].
  rewrite (lock_cells_writes _ _ _ _ _ E).
  apply Forall_forall. intros c Hc. apply list_elem_of_In in Hc.
  apply filter_In in Hc. destruct Hc as [Hin Hc].
  pose proof (inv_cols s H) as Hx. rewrite Forall_forall in Hx.
  apply list_elem_of_In in Hin. specialize (Hx c Hin).
  unfold row_on_board in Hc. unfold x_in_range in Hx. split; lia.
Qed.

(** C1.  No board cell outside [0,COLS) x [0,ROWS) is referenced.  Every
    position [collision] reads with [board[y][x]] is on the board, for any
    board, piece and offset.  Every position [lock_piece] writes has
    [0 <= y < ROWS].  In every reachable state the filled cells of the
    active piece have [0 <= x < COLS]; [collision] returns a verdict
    without raising; and the writes of [lock_piece] all succeed and are on
    the board, both for the piece where it is (the lock in [tick]) and for
    the piece where the loop of [hard_drop] leaves it. *)
Theorem board_access_in_range :
  (forall (b : Board) (cells : list (Z * Z)) r reads,
      collision_scan b cells = Ok (r, reads) -> Forall on_board reads)
  /\ (forall (b : Board) (k : Kind) (cells : list (Z * Z)) b1 writes,
         lock_cells b k cells = Ok (b1, writes) ->
         Forall (fun c => 0 <= snd c < ROWS) writes)
  /\ (forall s : GameState, reachable s ->
        Forall x_in_range (get_cells (active s) 0 0)
        /\ (forall p xo yo, exists r reads,
               collision_scan (board s) (get_cells p xo yo) = Ok (r, reads)
               /\ Forall on_board reads)
        /\ (exists b1 writes,
               lock_cells (board s) (kind (active s))
                 (get_cells (active s) 0 0) = Ok (b1, writes)
               /\ Forall on_board writes)
        /\ (exists s0 d,
               drop_loop (drop_fuel s) s 0 = Ok (s0, d)
               /\ Forall x_in_range (get_cells (active s0) 0 0)
               /\ exists b1 writes,
                    lock_cells (board s0) (kind (active s0))
                      (get_cells (active s0) 0 0) = Ok (b1, writes)
                    /\ Forall on_board writes)).
Proof.
  split; [exact collision_scan_reads|]. split.
  - intros b k cells b1 writes H.
    rewrite (lock_cells_writes k cells b b1 writes H).
    apply Forall_forall. intros c Hc. apply list_elem_of_In in Hc.
    apply filter_In in Hc. destruct Hc as [_ Hc].
    unfold row_on_board in Hc. lia.
  - intros s Hr. pose proof (reachable_inv s Hr) as H.
    split; [apply H|]. split; [|split].
    + intros p xo yo.
      destruct (collision_scan_total (board s) (get_cells p xo yo) (inv_board s H))
        as (reads & E).
      exists (collides (board s) (get_cells p xo yo)), reads.
      split; [exact E|]. eapply collision_scan_reads. exact E.
    + now apply inv_lock_writes.
    + destruct (drop_loop_total (drop_fuel s) s 0 H) as (s0 & d & E & H0 & _);
        [unfold drop_fuel; lia|].
      exists s0, d. split; [exact E|]. split; [apply H0|].
      now apply inv_lock_writes.
Qed.

Lemma board_access_in_range_witness :
  Forall x_in_range (get_cells (active demo_state) 0 0)
  /\ exists b1 writes,
       lock_cells (board demo_state) (kind (active demo_state))
         (get_cells (active demo_state) 0 0) = Ok (b1, writes)
       /\ Forall on_board writes.
Proof.
  destruct (proj2 (proj2 board_access_in_range) demo_state demo_reachable)
    as (Hx & _ & Hw & _).
  split; [exact Hx | exact Hw].
Defined.

(** ** C2: the 7-bag randomizer *)

(** C2.  Every bag [new_bag] returns is a permutation of the seven kinds.
    [_fill_next] moves the front of the bag to the back of the queue and
    leaves the generator alone while the bag is not empty; on an empty bag,
    and only then, it takes a new bag first.  Hence seven draws starting at
    an empty bag append one whole new bag, every kind exactly once, and
    leave the bag empty again. *)
Theorem seven_bag :
  (forall t : Tape, fst (new_bag t) ≡ₚ [KI; KJ; KL; KO; KS; KT; KZ])
  /\ (forall (q : Supply) k rest,
         bag q = k :: rest ->
         _fill_next q =
         Ok {| rng := rng q; bag := rest; next_queue := next_queue q ++ [k] |})
  /\ (forall q : Supply,
         bag q = [] ->
         exists k rest,
           fst (new_bag (rng q)) = k :: rest /\
           _fill_next q =
           Ok {| rng := snd (new_bag (rng q)); bag := rest;
                 next_queue := next_queue q ++ [k] |})
  /\ (forall q : Supply,
         bag q = [] ->
         exists block,
           block = fst (new_bag (rng q)) /\
           block ≡ₚ [KI; KJ; KL; KO; KS; KT; KZ] /\
           fill_many 7 q =
           Ok {| rng := snd (new_bag (rng q)); bag := [];
                 next_queue := next_queue q ++ block |}).
Proof.
  split; [exact new_bag_perm|]. split; [exact fill_next_from_bag|]. split.
  - intros q E. destruct (new_bag_cons (rng q)) as (k & rest & Hb).
    exists k, rest. split; [exact Hb|]. now apply fill_next_refill.
  - intros q E. eexists. split; [reflexivity|]. split; [apply new_bag_perm|].
    destruct (new_bag_cons (rng q)) as (k & rest & Hb).
    pose proof (Permutation_length (new_bag_perm (rng q))) as Hl.
    rewrite Hb in *. simpl in Hl.
    change (fill_many 7 q) with (do q1 <- _fill_next q; fill_many 6 q1).
    rewrite (fill_next_refill q k rest E Hb). cbn [bind].
    rewrite fill_many_from_bag by (simpl; lia). simpl rng. simpl bag.
    simpl next_queue.
    rewrite drop_ge by lia. rewrite take_ge by lia.
    now rewrite <- app_assoc.
Qed.

Lemma seven_bag_witness :
  fill_many 7 {| rng := demo_tape; bag := []; next_queue := [] |} =
  Ok {| rng := []; bag := []; next_queue := [KZ; KS; KI; KL; KJ; KT; KO] |}.
Proof.
  destruct (proj2 (proj2 (proj2 seven_bag))
              {| rng := demo_tape; bag := []; next_queue := [] |} eq_refl)
    as (block & -> & _ & E).
  exact E.
Defined.

(** ** C3: rotation with wall kicks *)

Lemma find_first {A : Type} (f : A -> bool) (l : list A) :
  match find f l with
  | Some a => exists pre post,
      l = pre ++ a :: post /\ Forall (fun x => f x = false) pre /\ f a = true
  | None => Forall (fun x => f x = false) l
  end.
Proof.
  induction l as [|x l IH]; simpl; [constructor|].
  destruct (f x) eqn:E.
  - exists [], l. repeat split; [constructor | exact E].
  - destruct (find f l) as [a|].
    + destruct IH as (pre & post & -> & Hpre & Ha).
      exists (x :: pre), post. repeat split; [constructor|]; assumption.
    + constructor; assumption.
Qed.

(** C3.  In a reachable state [try_rotate_with_kick] first puts the active
    piece into the next (or previous) rotation state [p1].  Then either some
    offset of [(0,0), (-1,0), (1,0), (-2,0), (2,0), (0,-1)] is free for [p1]:
    the call returns [True], the active piece has the rotation index and
    the shape of [p1] and the position of the piece before the call plus
    the first such offset, and it does not collide; or every offset
    collides: the call returns [False] and the game state is the one
    before the call. *)
Theorem rotate_with_kick_outcome (cw : bool) (now : Z) (s : GameState) :
  reachable s ->
  exists p1,
    rotate (active s) cw = Ok p1
    /\ rot_index p1 =
       (if cw then rot_index (active s) + 1 else rot_index (active s) - 1)
         mod len (shape_list (active s))
    /\ shape_in_sync p1
    /\ ((exists pre k post s1,
            [(0, 0); (-1, 0); (1, 0); (-2, 0); (2, 0); (0, -1)] = pre ++ k :: post
            /\ Forall (fun k' => collision s p1 (fst k') (snd k') = Ok true) pre
            /\ collision s p1 (fst k) (snd k) = Ok false
            /\ try_rotate_with_kick cw now s = Ok (true, s1)
            /\ active s1 =
               {| kind := kind (active s); rot_index := rot_index p1;
                  shape_list := shape_list (active s); shape := shape p1;
                  px := px (active s) + fst k; py := py (active s) + snd k |}
            /\ collision s1 (active s1) 0 0 = Ok false)
        \/ (Forall (fun k' => collision s p1 (fst k') (snd k') = Ok true)
              [(0, 0); (-1, 0); (1, 0); (-2, 0); (2, 0); (0, -1)]
            /\ try_rotate_with_kick cw now s = Ok (false, s))).
Proof.
  intros Hr. pose proof (reachable_inv s Hr) as H.
  pose proof (inv_board s H) as Hb.
  destruct (try_rotate_with_kick_spec cw now s (inv_piece s H) Hb)
    as (p1 & Hrot & Hp1 & E).
  assert (Hsame : kind p1 = kind (active s)
                  /\ shape_list p1 = shape_list (active s)
                  /\ px p1 = px (active s) /\ py p1 = py (active s)).
  { destruct (rotate_total (active s) cw (inv_piece s H))
      as (p1' & Hrot' & _ & Hk' & Hl' & Hx' & Hy').
    rewrite Hrot in Hrot'. injection Hrot' as <-. auto. }
  destruct Hsame as (Hkind & Hlist & Hpx & Hpy).
  exists p1. split; [exact Hrot|]. split.
  { unfold rotate, py_mod in Hrot.
    destruct (len (shape_list (active s)) =? 0); [discriminate|].
    cbn [bind] in Hrot. bind_inv Hrot. now injection Hrot as <-. }
  split; [now apply piece_ok_sync|].
  assert (Hcol : forall k', collision s p1 (fst k') (snd k') =
                            Ok (negb (kick_free (set_active p1 s) k'))).
  { intros k'. rewrite collision_total by exact Hb.
    unfold kick_free. now rewrite negb_involutive. }
  pose proof (find_first (kick_free (set_active p1 s)) kicks) as Hf.
  destruct (find (kick_free (set_active p1 s)) kicks) as [k|].
  - left. destruct Hf as (pre & post & Hk & Hpre & Hfree).
    exists pre, k, post, (kicked now p1 k s).
    split; [exact Hk|]. split.
    { eapply Forall_impl; [exact Hpre|]. intros k' Hk'.
      now rewrite Hcol, Hk'. }
    split; [now rewrite Hcol, Hfree|]. split; [exact E|].
    assert (Ha : active (kicked now p1 k s) = move_by p1 (fst k) (snd k)).
    { unfold kicked, reset_lock_timer. cbn.
      destruct (grounded s); [|reflexivity].
      now destruct (0 <? lock_resets_left s). }
    assert (Hbd : board (kicked now p1 k s) = board s).
    { unfold kicked, reset_lock_timer. cbn.
      destruct (grounded s); [|reflexivity].
      now destruct (0 <? lock_resets_left s). }
    split; [rewrite Ha; unfold move_by; now rewrite Hkind, Hlist, Hpx, Hpy|].
    rewrite collision_total by (rewrite Hbd; exact Hb).
    rewrite Ha, Hbd, get_cells_move_by.
    unfold kick_free in Hfree. apply negb_true_iff in Hfree. cbn in Hfree.
    now rewrite Hfree.
  - right. split; [|exact E].
    eapply Forall_impl; [exact Hf|]. intros k' Hk'. now rewrite Hcol, Hk'.
Qed.

Lemma rotate_with_kick_outcome_witness :
  (exists s1,
      try_rotate_with_kick true 0 wall_state = Ok (true, s1)
      /\ rot_index (active wall_state) = 1 /\ rot_index (active s1) = 2
      /\ px (active wall_state) = -1 /\ px (active s1) = 0
      /\ py (active s1) = py (active wall_state))
  /\ try_rotate_with_kick true 0 well_state = Ok (false, well_state).
Proof.
  split.
  - destruct (rotate_with_kick_outcome true 0 wall_state wall_reachable)
      as (p1 & Hrot & Hri & _
          & [(pre & k & post & s1 & Hk & Hpre & Hfree & Htry & Hact & _)
            | (Hall & _)]).
    + exists s1. split; [exact Htry|]. rewrite Hact. cbn [rot_index px py].
      rewrite Hri.
      vm_compute in Hrot. injection Hrot as <-.
      destruct pre as [|a0 [|a1 [|a2 pre]]]; cbn [app] in Hk.
      * injection Hk as <- _. vm_compute in Hfree. discriminate Hfree.
      * injection Hk as _ <- _. vm_compute in Hfree. discriminate Hfree.
      * injection Hk as _ _ <- _. vm_compute. repeat split.
      * injection Hk as _ _ <- _. inversion_clear Hpre as [|? ? _ Hpre1].
        inversion_clear Hpre1 as [|? ? _ Hpre2].
        inversion_clear Hpre2 as [|? ? Hc _].
        vm_compute in Hc. discriminate Hc.
    + vm_compute in Hrot. injection Hrot as <-.
      inversion_clear Hall as [|? ? _ Hall1].
      inversion_clear Hall1 as [|? ? _ Hall2].
      inversion_clear Hall2 as [|? ? Hc _].
      vm_compute in Hc. discriminate Hc.
  - destruct (rotate_with_kick_outcome true 0 well_state well_reachable)
      as (p1 & Hrot & _ & _
          & [(pre & k & post & s1 & Hk & _ & Hfree & _) | (_ & Htry)]);
      [|exact Htry].
    vm_compute in Hrot. injection Hrot as <-.
    assert (Hin : In k [(0, 0); (-1, 0); (1, 0); (-2, 0); (2, 0); (0, -1)])
      by (rewrite Hk; apply in_elt).
    cbn [In] in Hin.
    repeat (destruct Hin as [<-|Hin];
            [vm_compute in Hfree; discriminate Hfree|]).
    destruct Hin.
Defined.

(** ** Running a method symbolically *)

(** Take an equation [method s = Ok s1] apart along the control flow of the
    method: one goal per path that returns, with the results of the calls
    on that path as hypotheses. *)
Ltac run H :=
  repeat match type of H with
  | Ok _ = Ok _ => injection H as H
  | Raise _ = Ok _ => discriminate H
  | bind ?m _ = Ok _ =>
      let r := fresh "r" in
      let E := fresh "E" in
      destruct m as [r|] eqn:E; cbn [bind] in H; [|discriminate H]
  | (if ?c then _ else _) = Ok _ =>
      let C := fresh "C" in destruct c eqn:C
  | (let (_, _) := ?x in _) = Ok _ => destruct x
  | (match ?x with _ => _ end) = Ok _ =>
      let M := fresh "M" in destruct x eqn:M
  end.

(** After [run]: the result is a nest of conditionals over record updates;
    look at each case. *)
Ltac frame :=
  subst; cbn;
  repeat match goal with
         | |- context [if ?c then _ else _] => destruct c; cbn
         end;
  try reflexivity.

Lemma check_spawn_collision_inv (s s1 : GameState) :
  check_spawn_collision s = Ok s1 ->
  exists c, collision s (active s) 0 0 = Ok c /\
            s1 = if c then set_game_over true s else s.
Proof.
  unfold check_spawn_collision. intros H.
  destruct (collision s (active s) 0 0) as [c|]; [|discriminate].
  injection H as <-. eauto.
Qed.

(** What [lock_piece] leaves: the written board with its lines cleared, a
    new piece from the queue, a fresh lock delay and hold, and the game-over
    flag raised if that piece collides. *)
Lemma lock_piece_inv (s s1 : GameState) :
  lock_piece s = Ok s1 ->
  exists b writes p q c,
    lock_cells (board s) (kind (active s)) (get_cells (active s) 0 0)
      = Ok (b, writes) /\
    _spawn_from_queue (supply s) = Ok (p, q) /\
    let s4 := set_lock false None 15
                (set_hold_used false
                   (set_active p
                      (set_supply q (clear_lines_and_score (set_board b s))))) in
    collision s4 p 0 0 = Ok c /\
    s1 = if c then set_game_over true s4 else s4.
Proof.
  unfold lock_piece. intros H.
  destruct (lock_cells _ _ _) as [[b writes]|] eqn:E1; [|discriminate].
  cbn [bind] in H.
  assert (Hs : supply (clear_lines_and_score (set_board b s)) = supply s).
  { unfold clear_lines_and_score. now destruct (_ >? 0). }
  rewrite Hs in H.
  destruct (_spawn_from_queue (supply s)) as [[p q]|] eqn:E2; [|discriminate].
  cbn [bind] in H.
  apply check_spawn_collision_inv in H. destruct H as (c & Hc & ->).
  exists b, writes, p, q, c. auto.
Qed.

(** What [hold_action] leaves when the hold is still usable: the kinds
    swapped (or the next piece taken from the queue), the new piece at the
    spawn position, a fresh lock delay, and the game-over flag raised if the
    piece collides. *)
Lemma hold_action_inv (s s1 : GameState) :
  hold_used s = false -> hold_action s = Ok s1 ->
  exists p q x0 c,
    match hold s with
    | Some temp => Piece_init temp = Ok p /\ q = supply s
    | None => _spawn_from_queue (supply s) = Ok (p, q)
    end /\
    spawn_x (shape p) = Ok x0 /\
    let a := {| kind := kind p; rot_index := rot_index p;
                shape_list := shape_list p; shape := shape p;
                px := x0; py := spawn_y (shape p) |} in
    let s3 := set_lock false None 15
                (set_active a
                   (set_supply q
                      (set_hold (Some (kind (active s)))
                         (set_hold_used true s)))) in
    collision s3 a 0 0 = Ok c /\
    s1 = if c then set_game_over true s3 else s3.
Proof.
  intros Hu H. unfold hold_action in H. rewrite Hu in H.
  destruct (hold_swap (set_hold_used true s)) as [s2|] eqn:E; [|discriminate].
  cbn [bind] in H. unfold hold_reposition in H.
  destruct (spawn_x (shape (active s2))) as [x0|] eqn:Ex; [|discriminate].
  cbn [bind] in H. apply check_spawn_collision_inv in H.
  destruct H as (c & Hc & ->).
  unfold hold_swap in E. cbn [hold set_hold_used] in E.
  destruct (hold s) as [temp|] eqn:Hh; cbn zeta in E.
  - destruct (Piece_init temp) as [p|] eqn:Ep; [|discriminate].
    cbn [bind] in E. injection E as <-. exists p, (supply s), x0, c.
    split; [auto|]. split; [exact Ex|]. split; [exact Hc|].
    now destruct s.
  - change (supply _) with (supply s) in E.
    destruct (_spawn_from_queue (supply s)) as [[p q]|] eqn:Ep; [|discriminate].
    cbn [bind] in E. injection E as <-. exists p, q, x0, c. auto.
Qed.

Lemma drop_loop_inv (fuel : nat) :
  forall s d0 s1 d,
    drop_loop fuel s d0 = Ok (s1, d) -> d0 <= d /\ only_active_changed s s1.
Proof.
  induction fuel as [|fuel IH]; intros s d0 s1 d H; simpl in H; [discriminate|].
  run H.
  - apply IH in H. destruct H as [Hd Hfr]. split; [lia|].
    unfold only_active_changed in *. rewrite Hfr. reflexivity.
  - subst. split; [lia|apply only_active_refl].
Qed.

(** ** C4: when the board changes *)

(** The five ways through [tick]. *)
Lemma tick_inv (now : Z) (down : bool) (s s1 : GameState) :
  tick now down s = Ok s1 ->
  (game_over s || paused s = true /\ s1 = set_last_fall now s)
  \/ s1 = s
  \/ (collision s (active s) 0 1 = Ok false /\
      s1 = set_last_fall now
             (set_lock false None (lock_resets_left s)
                (set_active (move_by (active s) 0 1) s)))
  \/ (lock_delay_over now (touch_ground now s) = false /\
      s1 = set_last_fall now (touch_ground now s))
  \/ (tick_locks now down s /\
      exists s2, lock_piece (touch_ground now s) = Ok s2 /\
                 s1 = set_last_fall now s2).
Proof.
  unfold tick. intros H.
  destruct (game_over s || paused s) eqn:Hg.
  { injection H as <-. auto. }
  destruct (now - last_fall s >=? _) eqn:Ht.
  2:{ injection H as <-. auto. }
  destruct (collision s (active s) 0 1) as [[|]|] eqn:Hc; cbn [bind negb] in H;
    [| |discriminate].
  - destruct (lock_delay_over now (touch_ground now s)) eqn:Hd.
    + destruct (lock_piece (touch_ground now s)) as [s2|] eqn:Hl; [|discriminate].
      injection H as <-. do 4 right.
      split; [unfold tick_locks; repeat split; assumption|].
      exists s2. split; reflexivity.
    + injection H as <-. do 3 right. left. split; reflexivity.
  - injection H as <-. do 2 right. left. split; reflexivity.
Qed.

(** C4.  Sideways moves, [soft_drop], [try_rotate_with_kick], [hold_action]
    and pausing leave the board as it is, and so does every [tick] that
    does not get to lock the piece. *)
Theorem board_changes_only_on_lock :
  (forall dx now s s1, move_sideways dx now s = Ok s1 -> board s1 = board s)
  /\ (forall s s1, soft_drop s = Ok s1 -> board s1 = board s)
  /\ (forall cw now s r s1,
         try_rotate_with_kick cw now s = Ok (r, s1) -> board s1 = board s)
  /\ (forall s s1, hold_action s = Ok s1 -> board s1 = board s)
  /\ (forall s, board (toggle_pause s) = board s)
  /\ (forall now down s s1,
         tick now down s = Ok s1 ->
         board s1 = board s \/ tick_locks now down s).
Proof.
  split; [|split; [|split; [|split; [|split; [reflexivity|]]]]].
  - intros dx now s s1 H. unfold move_sideways, reset_lock_timer in H.
    run H; frame.
  - intros s s1 H. unfold soft_drop in H. run H; frame.
  - intros cw now s r s1 H. unfold try_rotate_with_kick, reset_lock_timer in H.
    run H; frame.
  - intros s s1 H. destruct (hold_used s) eqn:Hu.
    + unfold hold_action in H. rewrite Hu in H. now injection H as <-.
    + apply hold_action_inv in H; [|exact Hu].
      destruct H as (p & q & x0 & c & _ & _ & _ & ->). frame.
  - intros now down s s1 H.
    destruct (tick_inv now down s s1 H)
      as [[_ ->] | [-> | [[_ ->] | [[_ ->] | [Hl _]]]]];
      [left; reflexivity .. | | right; exact Hl].
    left. unfold touch_ground. frame.
Qed.

Lemma board_changes_only_on_lock_witness :
  board (toggle_pause demo_state) = board demo_state
  /\ forall s1, soft_drop demo_state = Ok s1 -> board s1 = board demo_state.
Proof.
  split.
  - exact (proj1 (proj2 (proj2 (proj2 (proj2 board_changes_only_on_lock)))) demo_state).
  - exact (proj1 (proj2 board_changes_only_on_lock) demo_state).
Defined.

(** ** C5: hold is usable once per spawn *)

Lemma step_rotate_inv (cw : bool) (now : Z) (s s1 : GameState) :
  step (KeyRotate cw now) s = Ok s1 ->
  exists r, try_rotate_with_kick cw now s = Ok (r, s1).
Proof.
  simpl. intros H.
  destruct (try_rotate_with_kick cw now s) as [[r s2]|]; [|discriminate].
  injection H as <-. eauto.
Qed.

Lemma hard_drop_inv (s s1 : GameState) :
  hard_drop s = Ok s1 ->
  exists s0 d,
    drop_loop (drop_fuel s) s 0 = Ok (s0, d) /\
    lock_piece (set_score (score s0 + HARD_DROP_SCORE * d) s0) = Ok s1.
Proof.
  unfold hard_drop. intros H.
  destruct (drop_loop (drop_fuel s) s 0) as [[s0 d]|]; [|discriminate].
  eauto.
Qed.

Lemma lock_piece_hold_used (s s1 : GameState) :
  lock_piece s = Ok s1 -> hold_used s1 = false.
Proof.
  intros H. apply lock_piece_inv in H.
  destruct H as (b & w & p & q & c & _ & _ & _ & ->). now destruct c.
Qed.

(** C5.  [hold_action] leaves [hold_used] set; called while [hold_used] is
    set it returns at once and changes nothing; [lock_piece] clears
    [hold_used]; and an event that finds [hold_used] set and leaves it
    cleared is one that ran [lock_piece]: a hard drop, or a [tick] that
    locked the piece. *)
Theorem hold_once_per_spawn :
  (forall s s1, hold_action s = Ok s1 -> hold_used s1 = true)
  /\ (forall s, reachable s ->
         exists s1, hold_action s = Ok s1 /\ hold_used s1 = true)
  /\ (forall s, hold_used s = true -> hold_action s = Ok s)
  /\ (forall s s1, lock_piece s = Ok s1 -> hold_used s1 = false)
  /\ (forall e s s1,
         step e s = Ok s1 -> hold_used s = true -> hold_used s1 = false ->
         locking e s).
Proof.
  assert (Hset : forall s s1, hold_action s = Ok s1 -> hold_used s1 = true).
  { intros s s1 H. destruct (hold_used s) eqn:Hu.
    - unfold hold_action in H. rewrite Hu in H. now injection H as <-.
    - apply hold_action_inv in H; [|exact Hu].
      destruct H as (p & q & x0 & c & _ & _ & _ & ->). now destruct c. }
  split; [exact Hset|]. split.
  { intros s Hr.
    destruct (hold_action_total s (reachable_inv s Hr)) as (s1 & E & _).
    exists s1. split; [exact E|]. eapply Hset. exact E. }
  split.
  { intros s Hu. unfold hold_action. now rewrite Hu. }
  split; [exact lock_piece_hold_used|].
  intros e s s1 H Hu Hu1.
  destruct e as [| |cw now| | |now|now|now down| |];
    try discriminate;
    [simpl in H .. | apply step_rotate_inv in H; destruct H as [r H]
     | simpl in H | simpl in H | simpl in H | simpl in H | simpl in H].
  - injection H as <-. simpl in Hu1. congruence.
  - apply Hset in H. congruence.
  - assert (hold_used s1 = hold_used s); [|congruence].
    unfold try_rotate_with_kick, reset_lock_timer in H. run H; frame.
  - left. reflexivity.
  - assert (hold_used s1 = hold_used s); [|congruence].
    unfold soft_drop in H. run H; frame.
  - assert (hold_used s1 = hold_used s); [|congruence].
    unfold move_sideways, reset_lock_timer in H. run H; frame.
  - assert (hold_used s1 = hold_used s); [|congruence].
    unfold move_sideways, reset_lock_timer in H. run H; frame.
  - right. exists now, down. split; [reflexivity|].
    destruct (tick_inv now down s s1 H)
      as [[_ ->] | [-> | [[_ ->] | [[_ ->] | [Hl _]]]]];
      [simpl in Hu1; try congruence ..| exact Hl].
    unfold touch_ground in Hu1. destruct (grounded s); simpl in Hu1; congruence.
Qed.

Lemma hold_once_per_spawn_witness :
  exists s1, hold_action demo_state = Ok s1 /\ hold_used s1 = true
             /\ hold_action s1 = Ok s1.
Proof.
  destruct (proj1 (proj2 hold_once_per_spawn) demo_state demo_reachable)
    as (s1 & E & Hu).
  exists s1. split; [exact E|]. split; [exact Hu|].
  exact (proj1 (proj2 (proj2 hold_once_per_spawn)) s1 Hu).
Defined.

(** ** C6: the lock-delay reset counter *)















(** Without the rotations the piece locks: the next tick after the lock
    delay brings the next piece. *)
Example locks_when_left_alone :
  exists s1,
    run (floor_keys ++ [Tick 1800 false]) demo_state = Ok s1
    /\ kind (active s1) = KS /\ board s1 <> board demo_state.
Proof.
  eexists. split; [vm_compute; reflexivity|]. split; [reflexivity|].
  vm_compute. discriminate.
Qed.



(** ** C7 and C8: the game counters *)

(** [lock_piece] changes the counters the way [clear_lines_and_score] does
    on the board it has written. *)
Lemma lock_piece_counters (s s1 : GameState) :
  lock_piece s = Ok s1 ->
  exists b, counters s1 = counters (clear_lines_and_score (set_board b s)).
Proof.
  intros H. apply lock_piece_inv in H.
  destruct H as (b & w & p & q & c & _ & _ & _ & ->).
  exists b. now destruct c.
Qed.

(** An event changes the counters by adding drop points to the score, if
    any, and then possibly clearing lines. *)
Lemma step_counters (e : Event) (s s1 : GameState) :
  step e s = Ok s1 ->
  exists s',
    score s <= score s' /\ lines s' = lines s /\ level s' = level s /\
    fall_ms s' = fall_ms s /\
    (counters s1 = counters s' \/
     counters s1 = counters (clear_lines_and_score s')).
Proof.
  intros H.
  assert (Hsame : counters s1 = counters s ->
                  exists s', score s <= score s' /\ lines s' = lines s /\
                    level s' = level s /\ fall_ms s' = fall_ms s /\
                    (counters s1 = counters s' \/
                     counters s1 = counters (clear_lines_and_score s'))).
  { intros E. exists s. repeat split; try lia. now left. }
  destruct e as [| |cw now| | |now|now|now down| |];
    try discriminate;
    [simpl in H .. | apply step_rotate_inv in H; destruct H as [r H]
     | simpl in H | simpl in H | simpl in H | simpl in H | simpl in H].
  - injection H as <-. now apply Hsame.
  - apply Hsame. destruct (hold_used s) eqn:Hu.
    + unfold hold_action in H. rewrite Hu in H. now injection H as <-.
    + apply hold_action_inv in H; [|exact Hu].
      destruct H as (p & q & x0 & c & _ & _ & _ & ->). now destruct c.
  - apply Hsame.
    unfold try_rotate_with_kick, reset_lock_timer in H. run H; frame.
  - apply hard_drop_inv in H. destruct H as (s0 & d & Hd & Hl).
    apply drop_loop_inv in Hd. destruct Hd as [Hd Hfr].
    apply lock_piece_counters in Hl. destruct Hl as [b Hl].
    exists (set_board b (set_score (score s0 + HARD_DROP_SCORE * d) s0)).
    rewrite Hfr. cbn. unfold HARD_DROP_SCORE.
    repeat split; try lia. right. rewrite Hl. rewrite Hfr. reflexivity.
  - unfold soft_drop in H. run H.
    + exists s1. subst s1. cbn. unfold SOFT_DROP_SCORE.
      repeat split; try lia. now left.
    + apply Hsame. now subst.
  - apply Hsame. unfold move_sideways, reset_lock_timer in H. run H; frame.
  - apply Hsame. unfold move_sideways, reset_lock_timer in H. run H; frame.
  - destruct (tick_inv now down s s1 H)
      as [[_ ->] | [-> | [[_ ->] | [[_ ->] | [_ (s2 & Hl & ->)]]]]];
      try (apply Hsame; reflexivity).
    + apply Hsame. unfold touch_ground. now destruct (grounded s).
    + apply lock_piece_counters in Hl. destruct Hl as [b Hl].
      exists (set_board b (touch_ground now s)).
      unfold touch_ground in *. destruct (grounded s); cbn;
        (repeat split; try lia); right; exact Hl.
Qed.

Lemma SCORES_get_nonneg (n : Z) : 0 <= SCORES_get n.
Proof.
  unfold SCORES_get.
  repeat match goal with |- context [if ?c then _ else _] => destruct c end; lia.
Qed.

Lemma level_fall_ms_min (lvl : Z) : 80 <= level_fall_ms lvl.
Proof. unfold level_fall_ms. lia. Qed.

Lemma clear_lines_counters_grow (s : GameState) :
  counters_ok s -> counters_grow s (clear_lines_and_score s).
Proof.
  intros [Hn Hv]. unfold counters_grow, clear_lines_and_score.
  destruct (Z.gtb_spec (ROWS - len (List.filter has_empty_cell (board s))) 0)
    as [Hc|Hc]; cbn.
  - pose proof (SCORES_get_nonneg (ROWS - len (List.filter has_empty_cell (board s)))).
    assert (0 <= level s) by (rewrite Hv; apply Z.div_pos; lia).
    repeat split; try nia.
    + rewrite Hv. apply Z.div_le_mono; lia.
    + right. repeat split; [lia|apply level_fall_ms_min].
  - lia.
Qed.

Lemma counters_grow_transport (s s' s1 t1 : GameState) :
  score s <= score s' -> lines s' = lines s -> level s' = level s ->
  fall_ms s' = fall_ms s -> counters s1 = counters t1 ->
  counters_grow s' t1 -> counters_grow s s1.
Proof.
  unfold counters_grow, counters. intros Hs Hl Hv Hf E (H1 & H2 & H3 & H4).
  injection E as -> -> -> ->. lia.
Qed.

Lemma counters_grow_refl (s : GameState) : counters_grow s s.
Proof. unfold counters_grow. lia. Qed.

Lemma level_fall_ms_values :
  level_fall_ms 0 = 800 /\ level_fall_ms 1 = 680 /\ level_fall_ms 2 = 577
  /\ level_fall_ms 3 = 491 /\ level_fall_ms 4 = 417 /\ level_fall_ms 5 = 354
  /\ level_fall_ms 6 = 301 /\ level_fall_ms 7 = 256 /\ level_fall_ms 8 = 217
  /\ level_fall_ms 9 = 185 /\ level_fall_ms 10 = 157 /\ level_fall_ms 11 = 133
  /\ level_fall_ms 12 = 113 /\ level_fall_ms 13 = 96 /\ level_fall_ms 14 = 82
  /\ level_fall_ms 15 = 80 /\ level_fall_ms 16 = 80.
Proof. vm_compute. repeat split. Qed.

(** Up to level 16 the fall interval does not grow with the level, and up
    to level 15 it shrinks. *)
Lemma level_fall_ms_antitone (l l' : Z) :
  0 <= l <= l' -> l' <= 16 ->
  level_fall_ms l' <= level_fall_ms l
  /\ (l < l' -> l' <= 15 -> level_fall_ms l' < level_fall_ms l).
Proof.
  intros Hl Hl'.
  destruct level_fall_ms_values
    as (T0 & T1 & T2 & T3 & T4 & T5 & T6 & T7 & T8 & T9 & T10 & T11 & T12
        & T13 & T14 & T15 & T16).
  assert (Hc : forall x, 0 <= x <= 16 ->
                x = 0 \/ x = 1 \/ x = 2 \/ x = 3 \/ x = 4 \/ x = 5 \/ x = 6
                \/ x = 7 \/ x = 8 \/ x = 9 \/ x = 10 \/ x = 11 \/ x = 12
                \/ x = 13 \/ x = 14 \/ x = 15 \/ x = 16) by (intros; lia).
  destruct (Hc l ltac:(lia)) as [E|[E|[E|[E|[E|[E|[E|[E|[E|[E|[E|[E|[E|[E|[E|[E|E]]]]]]]]]]]]]]]];
    subst l;
    destruct (Hc l' ltac:(lia)) as [E|[E|[E|[E|[E|[E|[E|[E|[E|[E|[E|[E|[E|[E|[E|[E|E]]]]]]]]]]]]]]]];
    subst l'; lia.
Qed.

Lemma counters_grow_up (s s1 : GameState) :
  0 <= level s -> counters_grow s s1 -> counters_up s s1.
Proof.
  intros H0 Hg. split; [exact Hg|]. intros Hf H16.
  destruct Hg as (_ & _ & Hlv & [(_ & Hl & Hfm) | (_ & Hfm & _)]).
  - rewrite Hfm, Hl. lia.
  - rewrite Hfm, Hf. apply level_fall_ms_antitone; lia.
Qed.

Lemma counters_ok_level (s : GameState) : counters_ok s -> 0 <= level s.
Proof. intros [Hn Hv]. rewrite Hv. apply Z.div_pos; lia. Qed.

(** The same drop happens in play: in the game that starts in
    [demo_state], after the keys [nine_line_keys], a hard drop takes the
    counters from score 2032, 9 lines, level 0 and 800 ms to score 2166,
    10 lines, level 1 and 680 ms. *)
Lemma level_up_in_play :
  exists s s1,
    run nine_line_keys demo_state = Ok s /\ reachable s
    /\ step KeyHardDrop s = Ok s1
    /\ counters s = (2032, 9, 0, 800)
    /\ counters s1 = (2166, 10, 1, 680).
Proof.
  destruct (run nine_line_keys demo_state) as [s|] eqn:E;
    [|vm_compute in E; discriminate].
  destruct (step KeyHardDrop s) as [s1|] eqn:E1.
  - exists s, s1. split; [reflexivity|].
    split; [exact (run_reachable _ _ _ demo_reachable E)|].
    split; [exact E1|].
    assert (Hc : (do s <- run nine_line_keys demo_state;
                  do s1 <- step KeyHardDrop s;
                  Ok (counters s, counters s1))
                 = Ok ((2032, 9, 0, 800), (2166, 10, 1, 680)))
      by (vm_compute; reflexivity).
    rewrite E in Hc. cbn [bind] in Hc. rewrite E1 in Hc. cbn [bind] in Hc.
    split; congruence.
  - assert (Hc : (do s <- run nine_line_keys demo_state;
                  do s1 <- step KeyHardDrop s; Ok tt) = Ok tt)
      by (vm_compute; reflexivity).
    rewrite E in Hc. cbn [bind] in Hc. rewrite E1 in Hc. discriminate.
Qed.

(** C7, as stated, fails: the fall interval goes down when the level goes
    up.  In [level_up_state] the hard drop moves the Z piece down 20 rows
    (40 points), locks it, and clears the bottom row (100 points): the
    tenth line, so the level becomes 1 and [fall_ms] goes from 800 to
    [max(80, int(800 * 0.85 ** 1)) = 680]. *)
Lemma fall_ms_decreases_on_level_up :
  exists s1,
    hard_drop level_up_state = Ok s1
    /\ counters level_up_state = (900, 9, 0, 800)
    /\ counters s1 = (1040, 10, 1, 680)
    /\ fall_ms s1 < fall_ms level_up_state.
Proof.
  eexists. split; [vm_compute; reflexivity|]. cbn. repeat split.
Qed.

(** The fall interval of a reachable state is the one of its level. *)
Lemma reachable_fall_ms (s : GameState) :
  reachable s -> fall_ms s = level_fall_ms (level s).
Proof.
  induction 1 as [t now s Hinit | s e s1 _ IH Hstep].
  - destruct (GameState_init_total t now) as (s' & p & q & E & _ & Hs).
    rewrite Hinit in E. injection E as <-. subst s. vm_compute. reflexivity.
  - apply step_counters in Hstep.
    destruct Hstep as (s' & _ & _ & Hv & Hf & [E | E]); unfold counters in E.
    + injection E as _ _ -> ->. congruence.
    + injection E as _ _ -> ->. unfold clear_lines_and_score.
      destruct (_ >? 0); cbn; [reflexivity|congruence].
Qed.

Lemma reachable_counters_ok (s : GameState) : reachable s -> counters_ok s.
Proof. intros Hr. split; apply (reachable_inv s Hr). Qed.

(** C7, amended.  Every reachable state has consistent counters and the
    fall interval of its level.  In a state whose counters are consistent,
    [clear_lines_and_score], [lock_piece] and every event leave score, line
    count and level at least as large as before.  The fall interval is
    untouched, with line count and level, unless lines were cleared; then
    it is set to [max(80, int(BASE_FALL_MS * LEVEL_SPEEDUP ** level))] for
    the new level, at least 80.  Where the interval before was the one of
    the level before and the new level is at most 16, the new interval is
    not longer than the one before, and it is shorter when the level has
    gone up to at most 15.  The interval is 800 at level 0, 680 at level 1
    and 80 at the levels 15 and 16. *)
Theorem counters_monotone (s : GameState) :
  counters_ok s ->
  counters_up s (clear_lines_and_score s)
  /\ (forall s1, lock_piece s = Ok s1 -> counters_up s s1)
  /\ (forall e s1, step e s = Ok s1 -> counters_up s s1)
  /\ (forall s0, reachable s0 ->
                 counters_ok s0 /\ fall_ms s0 = level_fall_ms (level s0))
  /\ (level_fall_ms 0 = 800 /\ level_fall_ms 1 = 680
      /\ level_fall_ms 15 = 80 /\ level_fall_ms 16 = 80).
Proof.
  intros Hok. pose proof (counters_ok_level s Hok) as H0.
  split; [apply counters_grow_up; [exact H0|];
          now apply clear_lines_counters_grow|].
  split.
  { intros s1 H. apply counters_grow_up; [exact H0|].
    apply lock_piece_counters in H. destruct H as [b E].
    apply (counters_grow_transport s (set_board b s) s1
             (clear_lines_and_score (set_board b s)));
      [cbn; lia | reflexivity | reflexivity | reflexivity | exact E
      | now apply clear_lines_counters_grow]. }
  split.
  { intros e s1 H. apply counters_grow_up; [exact H0|].
    apply step_counters in H.
    destruct H as (s' & Hs & Hl & Hv & Hf & [E | E]).
    + eapply (counters_grow_transport s s'); eauto using counters_grow_refl.
    + eapply (counters_grow_transport s s'); eauto.
      apply clear_lines_counters_grow. unfold counters_ok in *.
      rewrite Hl, Hv. exact Hok. }
  split.
  { intros s0 Hr. split; [now apply reachable_counters_ok|].
    now apply reachable_fall_ms. }
  destruct level_fall_ms_values
    as (T0 & T1 & _ & _ & _ & _ & _ & _ & _ & _ & _ & _ & _ & _ & _ & T15 & T16).
  auto.
Qed.

Lemma counters_monotone_witness :
  exists s s1,
    run nine_line_keys demo_state = Ok s /\ step KeyHardDrop s = Ok s1
    /\ counters_ok s /\ counters_up s s1
    /\ level s < level s1 /\ fall_ms s1 < fall_ms s.
Proof.
  destruct level_up_in_play as (s & s1 & Hrun & Hr & Hstep & Hc & Hc1).
  pose proof (reachable_counters_ok s Hr) as Hok.
  destruct (counters_monotone s Hok) as (_ & _ & Hev & _ & (T0 & _)).
  pose proof (Hev KeyHardDrop s1 Hstep) as Hup.
  unfold counters in Hc, Hc1.
  injection Hc as _ _ Hlv Hf. injection Hc1 as _ _ Hlv1 Hf1.
  exists s, s1. split; [exact Hrun|]. split; [exact Hstep|].
  split; [exact Hok|]. split; [exact Hup|]. split; [lia|].
  destruct Hup as (_ & Hcmp).
  apply Hcmp; [rewrite Hf, Hlv; symmetry; exact T0|lia|lia|lia].
Defined.

Lemma clear_lines_level (s : GameState) :
  clear_lines_and_score s = s
  \/ level (clear_lines_and_score s) = lines (clear_lines_and_score s) / 10.
Proof.
  unfold clear_lines_and_score.
  destruct (_ >? 0); [right; reflexivity | left; reflexivity].
Qed.

Lemma GameState_init_inv (t : Tape) (now : Z) (s : GameState) :
  GameState_init t now = Ok s ->
  exists p q,
    s = mkGame q empty_board p None false now BASE_FALL_MS false false
          0 0 0 false None 15.
Proof.
  intros H. destruct (GameState_init_total t now) as (s' & p & q & E & _ & Hs).
  exists p, q. congruence.
Qed.

(** C8.  A new game has [level = lines // 10] (both are 0).
    [clear_lines_and_score] either changes nothing or leaves
    [level = lines // 10]; every event either leaves [lines] and [level] as
    they are or leaves [level = lines // 10].  So every event preserves the
    equality, and it holds in every reachable state. *)
Theorem level_is_lines_div_10 :
  (forall t now s,
      GameState_init t now = Ok s ->
      lines s = 0 /\ level s = 0 /\ level s = lines s / 10)
  /\ (forall s,
         clear_lines_and_score s = s
         \/ level (clear_lines_and_score s) = lines (clear_lines_and_score s) / 10)
  /\ (forall e s s1,
         step e s = Ok s1 ->
         (lines s1 = lines s /\ level s1 = level s)
         \/ level s1 = lines s1 / 10)
  /\ (forall e s s1,
         level s = lines s / 10 -> step e s = Ok s1 ->
         level s1 = lines s1 / 10)
  /\ (forall s, reachable s -> level s = lines s / 10).
Proof.
  assert (Hstep : forall e s s1,
             step e s = Ok s1 ->
             (lines s1 = lines s /\ level s1 = level s)
             \/ level s1 = lines s1 / 10).
  { intros e s s1 H. apply step_counters in H.
    destruct H as (s' & _ & Hl & Hv & _ & [E | E]); unfold counters in E.
    - injection E as _ -> -> _. left. split; assumption.
    - injection E as _ -> -> _.
      destruct (clear_lines_level s') as [-> | Hc]; [left; split; assumption|].
      right. exact Hc. }
  split.
  { intros t now s H. apply GameState_init_inv in H.
    destruct H as (p & q & ->). cbn. repeat split. }
  split; [exact clear_lines_level|]. split; [exact Hstep|]. split.
  { intros e s s1 Hv H. destruct (Hstep e s s1 H) as [[-> ->] | Hc]; assumption. }
  intros s Hr. apply (reachable_inv s Hr).
Qed.

Lemma level_is_lines_div_10_witness :
  level demo_state = lines demo_state / 10
  /\ forall s1, step KeyHardDrop demo_state = Ok s1 -> level s1 = lines s1 / 10.
Proof.
  pose proof (proj2 (proj2 (proj2 (proj2 level_is_lines_div_10)))
                demo_state demo_reachable) as H0.
  split; [exact H0|].
  intros s1.
  exact (proj1 (proj2 (proj2 (proj2 level_is_lines_div_10)))
           KeyHardDrop demo_state s1 H0).
Defined.

(** ** C9: what a line clear does *)

Lemma has_empty_cell_not_full (row : list Cell) :
  has_empty_cell row = negb (row_full row).
Proof.
  unfold has_empty_cell, row_full.
  induction row as [|c row IH]; simpl; [reflexivity|].
  rewrite IH. now destruct (is_not_None c).
Qed.

Lemma filter_split_length {A : Type} (f : A -> bool) (l : list A) :
  (length (List.filter f l) + length (List.filter (fun a => negb (f a)) l)
   = length l)%nat.
Proof.
  induction l as [|a l IH]; simpl; [reflexivity|].
  destruct (f a); simpl; lia.
Qed.

Lemma filter_all {A : Type} (f : A -> bool) (l : list A) :
  length (List.filter f l) = length l -> List.filter f l = l.
Proof.
  induction l as [|a l IH]; simpl; [reflexivity|].
  pose proof (filter_length_le f l) as Hle.
  destruct (f a); simpl; intros H; [f_equal; apply IH; lia | lia].
Qed.

(** C9.  On a board of [ROWS] rows, [clear_lines_and_score] drops exactly
    the full rows, keeps the others in order, and puts as many empty rows
    on top, so the board still has [ROWS] rows (of [COLS] cells, if it had
    before).  If [cleared > 0] rows were full, the score grows by
    [SCORES.get(cleared, 0) * (level + 1)] with the level before the call
    (100, 300, 500, 800 for 1 to 4 rows) and the line count by [cleared].
    If no row was full, the state is unchanged. *)
Theorem clear_lines_and_score_spec (s : GameState) :
  len (board s) = ROWS ->
  let kept := List.filter (fun row => negb (row_full row)) (board s) in
  let cleared := len (List.filter row_full (board s)) in
  let s1 := clear_lines_and_score s in
  board s1 = replicate (Z.to_nat cleared) (replicate (Z.to_nat COLS) None) ++ kept
  /\ len (board s1) = ROWS
  /\ (Forall (fun row : list Cell => len row = COLS) (board s) ->
      Forall (fun row : list Cell => len row = COLS) (board s1))
  /\ (0 < cleared ->
      score s1 = score s + SCORES_get cleared * (level s + 1)
      /\ lines s1 = lines s + cleared)
  /\ (SCORES_get 1 = 100 /\ SCORES_get 2 = 300 /\ SCORES_get 3 = 500
      /\ SCORES_get 4 = 800)
  /\ (cleared = 0 -> s1 = s).
Proof.
  intros Hl kept cleared s1.
  assert (Hk : List.filter has_empty_cell (board s) = kept).
  { apply filter_ext. intros row. apply has_empty_cell_not_full. }
  assert (Hc : ROWS - len (List.filter has_empty_cell (board s)) = cleared).
  { rewrite Hk. subst kept cleared. unfold len in *.
    pose proof (filter_split_length row_full (board s)). lia. }
  assert (Hs1 : s1 = clear_lines_and_score s) by reflexivity.
  unfold clear_lines_and_score in Hs1. rewrite Hc, Hk in Hs1.
  destruct (Z.gtb_spec cleared 0) as [Hpos|Hzero].
  - rewrite iter_cons_replicate in Hs1. rewrite Hs1. cbn.
    split; [reflexivity|]. split.
    { unfold len in *. rewrite length_app, length_replicate.
      subst kept cleared. pose proof (filter_split_length row_full (board s)).
      unfold len. lia. }
    split.
    { intros Hr. apply Forall_app. split.
      - apply Forall_replicate. apply empty_row_len.
      - now apply Forall_list_filter. }
    split; [intros _; split; reflexivity|].
    split; [repeat split|]. lia.
  - assert (Hz : cleared = 0) by (subst cleared; unfold len in *; lia).
    assert (Hall : kept = board s).
    { subst kept. apply filter_all.
      pose proof (filter_split_length row_full (board s)).
      subst cleared. unfold len in *. lia. }
    rewrite Hs1, Hz, Hall. cbn.
    split; [reflexivity|]. split; [exact Hl|]. split; [auto|].
    split; [lia|]. split; [repeat split|]. reflexivity.
Qed.

Lemma clear_lines_and_score_spec_witness :
  board (clear_lines_and_score (set_board (replicate 19 empty_row ++ [replicate 10 (Some KI)]) level_up_state))
  = replicate 20 empty_row
  /\ score (clear_lines_and_score (set_board (replicate 19 empty_row ++ [replicate 10 (Some KI)]) level_up_state))
     = 900 + 100 * (0 + 1).
Proof.
  pose proof (clear_lines_and_score_spec
                (set_board (replicate 19 empty_row ++ [replicate 10 (Some KI)])
                   level_up_state) eq_refl) as (Hb & _ & _ & Hs & _).
  split; [exact Hb|]. apply Hs. reflexivity.
Defined.

(** ** C10: game over *)

Lemma Piece_init_kind (k : Kind) (p : Piece) : Piece_init k = Ok p -> kind p = k.
Proof.
  unfold Piece_init. intros H. bind_inv H. bind_inv H. now injection H as <-.
Qed.



(** * Further properties of the code *)

(** ** The queue and the bag in play *)

Lemma PIECE_KEYS_NoDup : NoDup PIECE_KEYS.
Proof.
  unfold PIECE_KEYS.
  repeat (apply NoDup_cons_2;
          [rewrite ?elem_of_cons, elem_of_nil; intuition discriminate|]).
  apply NoDup_nil_2.
Qed.

Lemma new_bag_NoDup (t : Tape) : NoDup (fst (new_bag t)).
Proof.
  rewrite new_bag_perm. apply PIECE_KEYS_NoDup.
Qed.

Lemma fill_next_supply (q q1 : Supply) :
  _fill_next q = Ok q1 -> NoDup (bag q) ->
  NoDup (bag q1) /\ (length (bag q1) <= 6)%nat
  /\ exists k, next_queue q1 = next_queue q ++ [k].
Proof.
  intros H Hn. destruct (bag q) as [|k rest] eqn:E.
  - destruct (new_bag_cons (rng q)) as (k & rest & Hb).
    rewrite (fill_next_refill q k rest E Hb) in H. injection H as <-. simpl.
    pose proof (new_bag_NoDup (rng q)) as Hnd.
    pose proof (Permutation_length (new_bag_perm (rng q))) as Hl.
    rewrite Hb in Hnd, Hl. simpl in Hl.
    split; [now inversion Hnd|]. split; [lia|eauto].
  - rewrite (fill_next_from_bag q k rest E) in H. injection H as <-. simpl.
    pose proof (new_bag_NoDup (rng q)).
    split; [now inversion Hn|]. split; [|eauto].
    (* a bag never holds more than the seven kinds *)
    assert (Hle : (length (k :: rest) <= length PIECE_KEYS)%nat).
    { apply NoDup_incl_length; [apply NoDup_ListNoDup; exact Hn|].
      intros x _. destruct x; simpl; tauto. }
    simpl in Hle. lia.
Qed.

Lemma fill_many_supply (n : nat) :
  forall q q1,
    fill_many n q = Ok q1 -> NoDup (bag q) ->
    NoDup (bag q1)
    /\ (n = O \/ (length (bag q1) <= 6)%nat)
    /\ length (next_queue q1) = (length (next_queue q) + n)%nat.
Proof.
  induction n as [|n IH]; intros q q1 H Hn; simpl in H.
  - injection H as <-. split; [exact Hn|]. split; [now left|lia].
  - bind_inv H. destruct (fill_next_supply _ _ Ha Hn) as (Hn1 & Hl1 & k & Hq).
    destruct (IH _ _ H Hn1) as (Hn2 & Hl2 & Hq2).
    split; [exact Hn2|]. split.
    + right. destruct Hl2 as [-> | Hl2]; [|exact Hl2].
      simpl in H. now injection H as <-.
    + rewrite Hq2, Hq, length_app. simpl. lia.
Qed.

Lemma spawn_supply (q q1 : Supply) (p : Piece) :
  _spawn_from_queue q = Ok (p, q1) ->
  length (next_queue q) = 5%nat -> NoDup (bag q) ->
  supply_ok q1.
Proof.
  unfold _spawn_from_queue. intros H Hq Hn.
  destruct (next_queue q) as [|k rest] eqn:E; [discriminate|].
  cbn [bind] in H. rewrite E in H. cbn [popleft bind] in H.
  bind_inv H. bind_inv H. injection H as _ <-.
  destruct (fill_next_supply _ _ Ha Hn) as (Hn1 & Hl1 & k1 & Hq1).
  simpl in Hq1. unfold supply_ok. rewrite Hq1, length_app. simpl in *.
  split; [lia|]. split; assumption.
Qed.

(** ** The play invariant *)

Lemma GameState_eta (s : GameState) :
  mkGame (supply s) (board s) (active s) (hold s) (hold_used s) (last_fall s)
    (fall_ms s) (paused s) (game_over s) (score s) (lines s) (level s)
    (grounded s) (lock_start s) (lock_resets_left s) = s.
Proof. now destruct s. Qed.

Lemma play_inv_set_active (s : GameState) (p : Piece) :
  play_inv s -> piece_ok p -> collides (board s) (get_cells p 0 0) = false ->
  play_inv (set_active p s).
Proof.
  intros [Hb Hs Hl Hf Hsc Hr Hfree] Hp Hc. constructor; simpl; try assumption.
  - destruct Hb. constructor; simpl; try assumption.
    eapply Forall_impl; [exact (collides_false_range _ _ Hc)|].
    intros c [H _]. exact H.
  - intros _. exact Hc.
Qed.

Lemma play_inv_moved (s : GameState) (dx dy : Z) :
  play_inv s -> collides (board s) (get_cells (active s) dx dy) = false ->
  play_inv (set_active (move_by (active s) dx dy) s).
Proof.
  intros H Hc. apply play_inv_set_active; [exact H| |].
  - apply (inv_piece s (play_base s H)).
  - now rewrite get_cells_move_by.
Qed.

Lemma play_inv_set_lock (s : GameState) (g : bool) (t : option Z) (n : Z) :
  play_inv s -> (g = true <-> t <> None) -> 0 <= n <= 15 ->
  play_inv (set_lock g t n s).
Proof.
  intros [Hb Hs Hl Hf Hsc Hr Hfree] Hg Hn. constructor; simpl; try assumption.
  destruct Hb. constructor; simpl; assumption.
Qed.

Lemma play_inv_reset (now : Z) (s : GameState) :
  play_inv s -> grounded s = true -> play_inv (reset_lock_timer now s).
Proof.
  intros H Hg. unfold reset_lock_timer.
  destruct (Z.ltb_spec 0 (lock_resets_left s)); [|exact H].
  apply play_inv_set_lock; [exact H| |].
  - rewrite Hg. split; [discriminate|reflexivity].
  - pose proof (inv_resets s (play_base s H)). lia.
Qed.

Lemma play_inv_set_score (s : GameState) (n : Z) :
  play_inv s -> 0 <= n -> play_inv (set_score n s).
Proof.
  intros [Hb Hs Hl Hf Hsc Hr Hfree] Hn. constructor; simpl; try assumption.
  now apply inv_only_score.
Qed.

Lemma play_inv_set_last_fall (s : GameState) (t : Z) :
  play_inv s -> play_inv (set_last_fall t s).
Proof.
  intros [Hb Hs Hl Hf Hsc Hr Hfree]. constructor; simpl; try assumption.
  now apply inv_set_last_fall.
Qed.

Lemma play_inv_touch_ground (now : Z) (s : GameState) :
  play_inv s -> play_inv (touch_ground now s).
Proof.
  intros H. unfold touch_ground. destruct (grounded s); [exact H|].
  apply play_inv_set_lock; [exact H| |].
  - split; [discriminate|reflexivity].
  - apply (inv_resets s (play_base s H)).
Qed.

(** After a line clear no row is full. *)
Lemma clear_lines_rows (s : GameState) :
  len (board s) = ROWS ->
  Forall (fun row : list Cell => has_empty_cell row = true)
         (board (clear_lines_and_score s)).
Proof.
  intros Hl. unfold clear_lines_and_score.
  assert (Hkept : Forall (fun row : list Cell => has_empty_cell row = true)
                         (List.filter has_empty_cell (board s))).
  { apply Forall_forall. intros row Hrow. apply list_elem_of_In in Hrow.
    apply filter_In in Hrow. tauto. }
  destruct (Z.gtb_spec (ROWS - len (List.filter has_empty_cell (board s))) 0)
    as [Hc|Hc]; simpl.
  - rewrite iter_cons_replicate. apply Forall_app. split; [|exact Hkept].
    apply Forall_replicate. reflexivity.
  - rewrite <- (filter_all has_empty_cell (board s)); [exact Hkept|].
    pose proof (filter_length_le has_empty_cell (board s)).
    unfold len in *. lia.
Qed.

Lemma clear_lines_fall (s : GameState) :
  fall_ms s = level_fall_ms (level s) ->
  fall_ms (clear_lines_and_score s)
  = level_fall_ms (level (clear_lines_and_score s)).
Proof.
  intros H. unfold clear_lines_and_score. now destruct (_ >? 0).
Qed.

Lemma clear_lines_score (s : GameState) :
  0 <= score s -> 0 <= lines s -> level s = lines s / 10 ->
  0 <= score (clear_lines_and_score s).
Proof.
  intros Hs Hn Hv. unfold clear_lines_and_score.
  destruct (_ >? 0); simpl; [|exact Hs].
  pose proof (SCORES_get_nonneg (ROWS - len (List.filter has_empty_cell (board s)))).
  assert (0 <= level s) by (rewrite Hv; apply Z.div_pos; lia).
  nia.
Qed.

(** [lock_piece] re-establishes everything about the piece, the board and
    the lock delay. *)
Lemma lock_piece_play (s s1 : GameState) :
  inv s -> supply_ok (supply s) -> fall_ms s = level_fall_ms (level s) ->
  0 <= score s ->
  lock_piece s = Ok s1 -> play_inv s1.
Proof.
  intros H Hq Hf Hsc Hl.
  assert (H1 : inv s1).
  { destruct (lock_piece_total s H) as (s' & E & H'). congruence. }
  apply lock_piece_inv in Hl.
  destruct Hl as (b & w & p & q & c & Hw & Hsp & Hc & ->).
  assert (Hb : board_ok b).
  { destruct (lock_cells_total (kind (active s)) (get_cells (active s) 0 0)
                (board s) (inv_board s H) (inv_cols s H)) as (b' & w' & E & Hb').
    congruence. }
  set (s0 := clear_lines_and_score (set_board b s)) in *.
  assert (Hb0 : board_ok (board s0))
    by (apply clear_lines_board_ok; apply Hb).
  rewrite collision_total in Hc by exact Hb0. injection Hc as Hc.
  assert (Hrows : Forall (fun row : list Cell => has_empty_cell row = true)
                         (board s0)) by (apply clear_lines_rows; apply Hb).
  assert (Hfall : fall_ms s0 = level_fall_ms (level s0))
    by (apply clear_lines_fall; exact Hf).
  assert (Hscore : 0 <= score s0)
    by (apply clear_lines_score; [exact Hsc|apply H|apply H]).
  assert (Hq1 : supply_ok q)
    by (eapply spawn_supply; [exact Hsp|apply Hq|apply Hq]).
  constructor; [exact H1|..]; destruct c; cbn in *; try assumption;
    try (split; [discriminate|congruence]); try discriminate.
  - intros _. exact Hc.
Qed.

Lemma hold_action_play (s s1 : GameState) :
  play_inv s -> hold_action s = Ok s1 -> play_inv s1.
Proof.
  intros H Hh.
  assert (H1 : inv s1).
  { destruct (hold_action_total s (play_base s H)) as (s' & E & H'). congruence. }
  destruct (hold_used s) eqn:Hu.
  { unfold hold_action in Hh. rewrite Hu in Hh. now injection Hh as <-. }
  apply hold_action_inv in Hh; [|exact Hu].
  destruct Hh as (p & q & x0 & c & Hp & Hx & Hc & ->).
  assert (Hq : supply_ok q).
  { destruct (hold s) as [temp|].
    - destruct Hp as [_ ->]. apply H.
    - eapply spawn_supply; [exact Hp|apply H|apply H]. }
  rewrite collision_total in Hc by (cbn; apply H). injection Hc as Hc.
  destruct H as [Hb Hs Hl Hf Hsc Hr Hfree].
  constructor; [exact H1|..]; destruct c; cbn in *; try assumption;
    try (split; [discriminate|congruence]); try discriminate.
  intros _. exact Hc.
Qed.

Lemma get_cells_move_by_off (p : Piece) (dx dy xo yo : Z) :
  get_cells (move_by p dx dy) xo yo = get_cells p (dx + xo) (dy + yo).
Proof.
  rewrite !get_cells_filled. simpl. apply map_ext. intros cr. f_equal; lia.
Qed.

Lemma drop_loop_play (fuel : nat) :
  forall s d0 s0 d,
    play_inv s -> drop_loop fuel s d0 = Ok (s0, d) ->
    play_inv s0 /\ d0 <= d.
Proof.
  induction fuel as [|fuel IH]; intros s d0 s0 d H E; simpl in E; [discriminate|].
  rewrite collision_total in E by apply H. cbn [bind] in E.
  destruct (collides (board s) (get_cells (active s) 0 1)) eqn:Hc; cbn [negb] in E.
  - injection E as <- <-. split; [exact H|lia].
  - apply IH in E; [|now apply play_inv_moved]. split; [apply E|lia].
Qed.

Lemma play_inv_set_paused (s : GameState) (b : bool) :
  play_inv s -> play_inv (set_paused b s).
Proof.
  intros [[] Hs Hl Hf Hsc Hr Hfree]. constructor; simpl; try assumption.
  constructor; assumption.
Qed.

Lemma move_sideways_play (dx now : Z) (s s1 : GameState) :
  play_inv s -> move_sideways dx now s = Ok s1 -> play_inv s1.
Proof.
  intros H E. unfold move_sideways in E.
  rewrite collision_total in E by apply H. cbn [bind] in E.
  destruct (collides (board s) (get_cells (active s) dx 0)) eqn:Hc; cbn [negb] in E.
  - now injection E as <-.
  - injection E as <-. pose proof (play_inv_moved s dx 0 H Hc) as Hm.
    cbn [grounded set_active]. destruct (grounded s) eqn:Hg; [|exact Hm].
    apply play_inv_reset; [exact Hm|exact Hg].
Qed.

Lemma step_play (e : Event) (s s1 : GameState) :
  play_inv s -> step e s = Ok s1 -> play_inv s1.
Proof.
  intros H E.
  destruct e as [| |cw now| | |now|now|now down| |];
    try discriminate;
    [simpl in E .. | apply step_rotate_inv in E; destruct E as [r E]
     | simpl in E | simpl in E | simpl in E | simpl in E | simpl in E].
  - injection E as <-. now apply play_inv_set_paused.
  - eapply hold_action_play; eassumption.
  - destruct (try_rotate_with_kick_spec cw now s
                (inv_piece s (play_base s H)) (inv_board s (play_base s H)))
      as (p1 & _ & Hp1 & E1).
    rewrite E1 in E.
    destruct (find (kick_free (set_active p1 s)) kicks) as [k|] eqn:Ek;
      injection E as _ <-; [|exact H].
    apply find_some in Ek. destruct Ek as [_ Hfree].
    unfold kick_free in Hfree. apply negb_true_iff in Hfree. cbn in Hfree.
    assert (Hm : play_inv (set_active (move_by p1 (fst k) (snd k)) s)).
    { apply play_inv_set_active; [exact H|exact Hp1|].
      now rewrite get_cells_move_by. }
    unfold kicked. cbn [grounded set_active].
    destruct (grounded s) eqn:Hg; [|exact Hm].
    apply play_inv_reset; [exact Hm|exact Hg].
  - apply hard_drop_inv in E. destruct E as (s0 & d & Ed & El).
    destruct (drop_loop_play _ _ _ _ _ H Ed) as [H0 Hd].
    eapply lock_piece_play; [| | | |exact El]; cbn; try apply H0.
    + apply inv_only_score. apply H0.
    + unfold HARD_DROP_SCORE. pose proof (play_score s0 H0). lia.
  - unfold soft_drop in E. rewrite collision_total in E by apply H.
    cbn [bind] in E.
    destruct (collides (board s) (get_cells (active s) 0 1)) eqn:Hc;
      cbn [negb] in E; injection E as <-; [exact H|].
    apply play_inv_set_score; [now apply play_inv_moved|].
    cbn. unfold SOFT_DROP_SCORE. pose proof (play_score s H). lia.
  - eapply move_sideways_play; eassumption.
  - eapply move_sideways_play; eassumption.
  - destruct (tick_inv now down s s1 E)
      as [[_ ->] | [-> | [[Hc ->] | [[_ ->] | [_ (s2 & Hl & ->)]]]]].
    + now apply play_inv_set_last_fall.
    + exact H.
    + apply play_inv_set_last_fall.
      rewrite collision_total in Hc by apply H. injection Hc as Hc.
      apply play_inv_set_lock.
      * now apply play_inv_moved.
      * split; [discriminate|congruence].
      * apply (inv_resets s (play_base s H)).
    + apply play_inv_set_last_fall. now apply play_inv_touch_ground.
    + apply play_inv_set_last_fall.
      pose proof (play_inv_touch_ground now s H) as Ht.
      eapply lock_piece_play; [| | | |exact Hl]; apply Ht.
Qed.

Lemma spawn_free_on_empty_board (k : Kind) (p : Piece) :
  Piece_init k = Ok p -> collides empty_board (get_cells p 0 0) = false.
Proof.
  intros H. destruct k; vm_compute in H; injection H as <-; reflexivity.
Qed.

Lemma GameState_init_play (t : Tape) (now : Z) (s : GameState) :
  GameState_init t now = Ok s -> play_inv s.
Proof.
  intros H.
  assert (H1 : inv s).
  { destruct (GameState_init_total t now) as (s' & p & q & E & H' & _). congruence. }
  unfold GameState_init in H.
  pose proof (new_bag_NoDup t) as Hnd.
  destruct (new_bag t) as [b t1]. simpl in Hnd.
  bind_inv H. destruct (fill_many_supply _ _ _ Ha Hnd) as (Hn1 & _ & Hq1).
  simpl in Hq1.
  destruct (spawn_total a) as (p & q1 & Hsp & _ & _ & Hp).
  rewrite Hsp in H. cbn [bind] in H. injection H as <-.
  constructor; [exact H1|..]; cbn.
  - eapply spawn_supply; [exact Hsp|exact Hq1|exact Hn1].
  - split; [discriminate|congruence].
  - vm_compute. reflexivity.
  - lia.
  - unfold empty_board. apply Forall_replicate. reflexivity.
  - intros _. eapply spawn_free_on_empty_board. exact Hp.
Qed.

Lemma reachable_play_inv (s : GameState) : reachable s -> play_inv s.
Proof.
  induction 1 as [t now s Hinit | s e s1 _ IH Hstep].
  - eapply GameState_init_play. exact Hinit.
  - eapply step_play; eassumption.
Qed.

(** ** Properties of every reachable state *)

(** X1.  Play raises only where the program ends.  From a reachable
    state a sequence of events with no [K_ESCAPE] key press and no
    [pygame.QUIT] event runs to the end without an [IndexError], a
    [ZeroDivisionError] or an endless [hard_drop] loop, and ends in a
    reachable state.  A sequence with such an event runs up to the first
    of them and stops there: with [SystemExit] on [pygame.QUIT], and with
    an [AttributeError] on [K_ESCAPE], whose handler calls [sys.ext()]. *)
Theorem play_never_raises (es : list Event) (s : GameState) :
  reachable s ->
  match find quits es with
  | None => exists s1, run es s = Ok s1 /\ reachable s1
  | Some KeyEscape => run es s = Raise AttributeError
  | Some _ => run es s = Raise SystemExit
  end.
Proof.
  revert s. induction es as [|e rest IH]; intros s Hr.
  - cbn. eauto.
  - destruct (quits e) eqn:Hq.
    + destruct e; try discriminate Hq; reflexivity.
    + cbn [find]. rewrite Hq.
      destruct (reachable_step_total e s Hq Hr) as (s1 & E & Hr1).
      cbn [run]. rewrite E. cbn [bind]. now apply IH.
Qed.

Lemma play_never_raises_witness :
  (exists s1,
      run [KeyRotate true 7; KeyLeft 8; KeyHold; KeyHardDrop; Tick 900 true]
          demo_state = Ok s1
      /\ reachable s1)
  /\ run [KeyLeft 8; KeyEscape; KeyHardDrop] demo_state = Raise AttributeError.
Proof.
  split.
  - exact (play_never_raises
             [KeyRotate true 7; KeyLeft 8; KeyHold; KeyHardDrop; Tick 900 true]
             demo_state demo_reachable).
  - exact (play_never_raises [KeyLeft 8; KeyEscape; KeyHardDrop]
             demo_state demo_reachable).
Defined.

(** X2.  While the game is not over the active piece is in a free
    position: [collision] of the active piece with no offset is false. *)
Theorem active_piece_is_free (s : GameState) :
  reachable s -> game_over s = false -> collision s (active s) 0 0 = Ok false.
Proof.
  intros Hr Hg. pose proof (reachable_play_inv s Hr) as H.
  rewrite collision_total by apply H. f_equal. now apply (play_free s H).
Qed.

Lemma active_piece_is_free_witness :
  collision demo_state (active demo_state) 0 0 = Ok false.
Proof. exact (active_piece_is_free demo_state demo_reachable eq_refl). Defined.

(** X3.  The queue always holds exactly five kinds (the five the side
    panel shows), and the bag holds at most six kinds, no kind twice. *)
Theorem queue_holds_five (s : GameState) :
  reachable s ->
  length (next_queue (supply s)) = 5%nat
  /\ NoDup (bag (supply s))
  /\ (length (bag (supply s)) <= 6)%nat.
Proof. intros Hr. apply (play_supply s (reachable_play_inv s Hr)). Qed.

Lemma queue_holds_five_witness :
  length (next_queue (supply demo_state)) = 5%nat
  /\ NoDup (bag (supply demo_state))
  /\ (length (bag (supply demo_state)) <= 6)%nat.
Proof. exact (queue_holds_five demo_state demo_reachable). Defined.

(** X4.  The lock timer runs exactly while the piece is grounded:
    [lock_start] is [None] if and only if [grounded] is false. *)
Theorem grounded_iff_lock_timer (s : GameState) :
  reachable s -> (grounded s = true <-> lock_start s <> None).
Proof. intros Hr. apply (play_lock s (reachable_play_inv s Hr)). Qed.

Lemma grounded_iff_lock_timer_witness :
  grounded demo_state = true <-> lock_start demo_state <> None.
Proof. exact (grounded_iff_lock_timer demo_state demo_reachable). Defined.

(** X5.  The fall interval is always the one computed from the current
    level, [max(80, int(BASE_FALL_MS * LEVEL_SPEEDUP ** level))], hence at
    least 80; and score, line count and level are never negative. *)
Theorem fall_interval_follows_level (s : GameState) :
  reachable s ->
  fall_ms s = level_fall_ms (level s) /\ 80 <= fall_ms s
  /\ 0 <= score s /\ 0 <= lines s /\ 0 <= level s.
Proof.
  intros Hr. pose proof (reachable_play_inv s Hr) as H.
  pose proof (play_fall s H) as Hf.
  split; [exact Hf|]. split; [rewrite Hf; apply level_fall_ms_min|].
  split; [apply H|]. pose proof (inv_lines s (play_base s H)) as Hn.
  split; [exact Hn|]. rewrite (inv_level s (play_base s H)).
  apply Z.div_pos; lia.
Qed.

Lemma fall_interval_follows_level_witness :
  fall_ms demo_state = level_fall_ms (level demo_state)
  /\ 80 <= fall_ms demo_state
  /\ 0 <= score demo_state /\ 0 <= lines demo_state /\ 0 <= level demo_state.
Proof. exact (fall_interval_follows_level demo_state demo_reachable). Defined.

Lemma lock_piece_game_over (s s1 : GameState) :
  lock_piece s = Ok s1 -> game_over s = true -> game_over s1 = true.
Proof.
  intros H Hg. apply lock_piece_inv in H.
  destruct H as (b & w & p & q & c & _ & _ & _ & ->).
  destruct c; cbn; [reflexivity|].
  unfold clear_lines_and_score. now destruct (_ >? 0).
Qed.

(** X6.  Game over is final: no key press and no tick lowers [game_over]
    once it is set (only [K_r], which builds a new game, starts over). *)
Theorem game_over_is_final (e : Event) (s s1 : GameState) :
  game_over s = true -> step e s = Ok s1 -> game_over s1 = true.
Proof.
  intros Hg E.
  destruct e as [| |cw now| | |now|now|now down| |];
    try discriminate;
    [simpl in E .. | apply step_rotate_inv in E; destruct E as [r E]
     | simpl in E | simpl in E | simpl in E | simpl in E | simpl in E].
  - now injection E as <-.
  - destruct (hold_used s) eqn:Hu.
    + unfold hold_action in E. rewrite Hu in E. now injection E as <-.
    + apply hold_action_inv in E; [|exact Hu].
      destruct E as (p & q & x0 & c & _ & _ & _ & ->). now destruct c.
  - assert (game_over s1 = game_over s); [|congruence].
    unfold try_rotate_with_kick, reset_lock_timer in E. run E; frame.
  - apply hard_drop_inv in E. destruct E as (s0 & d & Ed & El).
    apply drop_loop_inv in Ed. destruct Ed as [_ Hfr].
    eapply lock_piece_game_over; [exact El|]. rewrite Hfr. exact Hg.
  - assert (game_over s1 = game_over s); [|congruence].
    unfold soft_drop in E. run E; frame.
  - assert (game_over s1 = game_over s); [|congruence].
    unfold move_sideways, reset_lock_timer in E. run E; frame.
  - assert (game_over s1 = game_over s); [|congruence].
    unfold move_sideways, reset_lock_timer in E. run E; frame.
  - unfold tick in E. rewrite Hg in E. now injection E as <-.
Qed.

Lemma game_over_is_final_witness :
  exists s1,
    step KeyHardDrop (set_game_over true demo_state) = Ok s1
    /\ game_over s1 = true.
Proof.
  eexists. split; [vm_compute; reflexivity|].
  apply (game_over_is_final KeyHardDrop (set_game_over true demo_state));
    [reflexivity | vm_compute; reflexivity].
Defined.

(** ** Where a hard drop lands *)

Lemma get_cells_same (p q : Piece) (xo yo xo' yo' : Z) :
  shape p = shape q -> px p + xo = px q + xo' -> py p + yo = py q + yo' ->
  get_cells p xo yo = get_cells q xo' yo'.
Proof.
  intros Hs Hx Hy. rewrite !get_cells_filled, Hs. apply map_ext.
  intros cr. f_equal; lia.
Qed.

Lemma collision_same (s s' : GameState) (p q : Piece) (xo yo xo' yo' : Z) :
  board s = board s' ->
  shape p = shape q -> px p + xo = px q + xo' -> py p + yo = py q + yo' ->
  collision s p xo yo = collision s' q xo' yo'.
Proof.
  intros Hb Hs Hx Hy. unfold collision.
  now rewrite Hb, (get_cells_same p q xo yo xo' yo' Hs Hx Hy).
Qed.

(** The loop of [hard_drop] changes the row of the piece only, takes it
    through free positions only, and stops where it cannot go further. *)
Lemma drop_loop_path (fuel : nat) :
  forall s d0 s0 d,
    drop_loop fuel s d0 = Ok (s0, d) ->
    d0 <= d
    /\ s0 = set_active (active s0) s
    /\ active s0 =
       mkPiece (kind (active s)) (rot_index (active s)) (shape_list (active s))
         (shape (active s)) (px (active s)) (py (active s) + (d - d0))
    /\ collision s (active s) 0 (d - d0 + 1) = Ok true
    /\ (forall k, 1 <= k <= d - d0 -> collision s (active s) 0 k = Ok false).
Proof.
  induction fuel as [|fuel IH]; intros s d0 s0 d E; simpl in E; [discriminate|].
  destruct (collision s (active s) 0 1) as [[|]|] eqn:Hc; cbn [bind negb] in E;
    [| |discriminate].
  - injection E as <- <-. split; [lia|]. split; [now destruct s|].
    rewrite Z.sub_diag. split.
    + destruct (active s); simpl. f_equal. lia.
    + split; [exact Hc|]. intros k Hk. lia.
  - apply IH in E. destruct E as (Hd & Hfr & Ha & Hstop & Hfree).
    cbn [active set_active move_by kind rot_index shape_list shape px py] in Ha.
    split; [lia|]. split; [rewrite Hfr; reflexivity|]. split.
    + rewrite Ha. f_equal; lia.
    + split.
      * rewrite <- Hstop. apply collision_same; simpl; try reflexivity; lia.
      * intros k Hk. destruct (Z.eq_dec k 1) as [->|Hne]; [exact Hc|].
        rewrite <- (Hfree (k - 1)) by lia.
        apply collision_same; simpl; try reflexivity; lia.
Qed.

(** X7.  [hard_drop] moves the active piece straight down by the number
    [d] of free rows below it, positions [1] to [d] being free and
    position [d + 1] not, scores [HARD_DROP_SCORE] points for each of the
    [d] rows, and locks the piece there. *)
Theorem hard_drop_lands (s : GameState) :
  reachable s ->
  exists d,
    0 <= d
    /\ (forall k, 1 <= k <= d -> collision s (active s) 0 k = Ok false)
    /\ collision s (active s) 0 (d + 1) = Ok true
    /\ hard_drop s =
       lock_piece
         (set_score (score s + HARD_DROP_SCORE * d)
            (set_active
               (mkPiece (kind (active s)) (rot_index (active s))
                  (shape_list (active s)) (shape (active s))
                  (px (active s)) (py (active s) + d)) s)).
Proof.
  intros Hr. pose proof (reachable_inv s Hr) as H.
  destruct (drop_loop_total (drop_fuel s) s 0 H) as (s0 & d & E & _ & _ & _);
    [unfold drop_fuel; lia|].
  destruct (drop_loop_path _ _ _ _ _ E) as (Hd & Hfr & Ha & Hstop & Hfree).
  rewrite Z.sub_0_r in *.
  exists d. split; [exact Hd|]. split; [exact Hfree|]. split; [exact Hstop|].
  unfold hard_drop. rewrite E. cbn [bind]. rewrite Hfr, Ha. reflexivity.
Qed.

Lemma hard_drop_lands_witness :
  exists d,
    0 <= d
    /\ collision demo_state (active demo_state) 0 (d + 1) = Ok true
    /\ hard_drop demo_state =
       lock_piece
         (set_score (score demo_state + HARD_DROP_SCORE * d)
            (set_active
               (mkPiece (kind (active demo_state)) (rot_index (active demo_state))
                  (shape_list (active demo_state)) (shape (active demo_state))
                  (px (active demo_state)) (py (active demo_state) + d))
               demo_state)).
Proof.
  destruct (hard_drop_lands demo_state demo_reachable) as (d & Hd & _ & Hs & E).
  exists d. split; [exact Hd|]. split; [exact Hs|exact E].
Defined.

(** ** The ghost piece *)

Lemma ghost_loop_board (fuel : nat) :
  forall s s' g, board s = board s' -> ghost_loop fuel s g = ghost_loop fuel s' g.
Proof.
  induction fuel as [|fuel IH]; intros s s' g Hb; simpl; [reflexivity|].
  rewrite (collision_same s s' g g 0 1 0 1 Hb) by reflexivity.
  destruct (collision s' g 0 1) as [[|]|]; cbn [bind negb]; try reflexivity.
  now apply IH.
Qed.

Lemma ghost_loop_drop (fuel : nat) :
  forall s d0 s0 d,
    drop_loop fuel s d0 = Ok (s0, d) ->
    ghost_loop fuel s (active s) = Ok (active s0).
Proof.
  induction fuel as [|fuel IH]; intros s d0 s0 d E; simpl in *; [discriminate|].
  destruct (collision s (active s) 0 1) as [[|]|]; cbn [bind negb] in *;
    [| |discriminate].
  - now injection E as <- _.
  - apply IH in E. rewrite <- E. now apply ghost_loop_board.
Qed.

Lemma collides_false_cells (b : Board) (cells : list (Z * Z)) :
  collides b cells = false ->
  Forall (fun c => 0 <= snd c -> on_board c /\ cell_at b (fst c) (snd c) = None)
         cells.
Proof.
  unfold collides. intros H. apply Forall_forall. intros c Hc.
  apply list_elem_of_In in Hc.
  assert (Hf : cell_hits b c = false).
  { destruct (cell_hits b c) eqn:E; [|reflexivity].
    assert (existsb (cell_hits b) cells = true) by (apply existsb_exists; eauto).
    congruence. }
  unfold cell_hits in Hf.
  repeat (apply orb_false_elim in Hf; destruct Hf as [Hf ?]).
  intros Hy. split; [unfold on_board; lia|].
  destruct (Z.geb_spec (snd c) 0); [|lia]. simpl in *.
  now destruct (cell_at b (fst c) (snd c)).
Qed.

(** X8.  The ghost that [draw_ghost] computes is the piece a hard drop
    locks: [hard_drop] is [lock_piece] with the ghost as the active piece
    and the drop points added.  The cells drawn for the ghost are in the
    columns of the board and not above it; while the game is not over they
    are on the board and empty. *)
Theorem ghost_is_hard_drop_target (s : GameState) :
  reachable s ->
  exists ghost cells d,
    draw_ghost s = Ok (ghost, cells)
    /\ 0 <= d
    /\ hard_drop s =
       lock_piece (set_score (score s + HARD_DROP_SCORE * d) (set_active ghost s))
    /\ Forall (fun c => 0 <= fst c < COLS /\ 0 <= snd c) cells
    /\ (game_over s = false ->
        Forall (fun c => on_board c /\ cell_at (board s) (fst c) (snd c) = None)
               cells).
Proof.
  intros Hr. pose proof (reachable_play_inv s Hr) as H.
  pose proof (play_base s H) as Hi.
  destruct (drop_loop_total (drop_fuel s) s 0 Hi) as (s0 & d & E & _ & _ & _);
    [unfold drop_fuel; lia|].
  destruct (drop_loop_play _ _ _ _ _ H E) as [H0 Hd].
  destruct (drop_loop_inv _ _ _ _ _ E) as [_ Hfr].
  unfold only_active_changed in Hfr.
  assert (Hsc : score s0 = score s) by (rewrite Hfr; reflexivity).
  destruct (Piece_init_total (kind (active s))) as (g0 & Hg0 & Hok0 & Hk0 & _).
  assert (Hstart : {| kind := kind g0; rot_index := rot_index (active s);
                      shape_list := shape_list g0; shape := shape (active s);
                      px := px (active s); py := py (active s) |} = active s).
  { destruct Hok0 as (Hl0 & _). rewrite Hl0, Hk0.
    destruct (inv_piece s Hi) as (Hl & _). rewrite <- Hl. apply piece_eta. }
  exists (active s0), (List.filter (fun c => snd c >=? 0) (get_cells (active s0) 0 0)), d.
  split.
  { unfold draw_ghost. rewrite Hg0. cbn [bind]. rewrite Hstart.
    change (S (Z.to_nat (ROWS - 1 - py (active s)))) with (drop_fuel s).
    now rewrite (ghost_loop_drop _ _ _ _ _ E). }
  split; [exact Hd|]. split.
  { unfold hard_drop. rewrite E. cbn [bind]. now rewrite Hsc, <- Hfr. }
  split.
  - apply Forall_forall. intros c Hc. apply list_elem_of_In in Hc.
    apply filter_In in Hc. destruct Hc as [Hc Hy].
    pose proof (inv_cols s0 (play_base s0 H0)) as Hx.
    rewrite Forall_forall in Hx. apply list_elem_of_In in Hc.
    specialize (Hx c Hc). unfold x_in_range in Hx. lia.
  - intros Hg.
    assert (Hg0' : game_over s0 = false) by (rewrite Hfr; exact Hg).
    pose proof (collides_false_cells _ _ (play_free s0 H0 Hg0')) as Hf.
    assert (Hb : board s0 = board s) by (rewrite Hfr; reflexivity).
    rewrite Hb in Hf.
    apply Forall_forall. intros c Hc. apply list_elem_of_In in Hc.
    apply filter_In in Hc. destruct Hc as [Hc Hy].
    rewrite Forall_forall in Hf. apply list_elem_of_In in Hc.
    apply (Hf c Hc). lia.
Qed.

Lemma ghost_is_hard_drop_target_witness :
  exists ghost cells,
    draw_ghost demo_state = Ok (ghost, cells)
    /\ Forall (fun c => 0 <= fst c < COLS /\ 0 <= snd c) cells.
Proof.
  destruct (ghost_is_hard_drop_target demo_state demo_reachable)
    as (ghost & cells & d & E & _ & _ & Hc & _).
  exists ghost, cells. split; [exact E|exact Hc].
Defined.

(** ** What locking writes *)

Lemma board_set_eq (b : Board) (x y : Z) (v : Cell) (row : list Cell) :
  board_ok b -> on_board (x, y) -> b !! Z.to_nat y = Some row ->
  board_set b y x v = Ok (<[Z.to_nat y := <[Z.to_nat x := v]> row]> b).
Proof.
  intros Hb [Hx Hy] E. simpl in Hx, Hy.
  destruct (board_ok_row b y Hb Hy) as (row' & E' & Hrow).
  assert (row' = row) as -> by congruence.
  destruct Hb as [Hl _]. unfold board_set.
  rewrite (getitem_lookup b y row) by (lia || assumption). cbn [bind].
  rewrite setitem_in_range by lia. cbn [bind].
  now rewrite setitem_in_range by lia.
Qed.

Lemma cell_at_board_set (b b1 : Board) (x y x' y' : Z) (v : Cell) :
  board_ok b -> on_board (x, y) -> on_board (x', y') ->
  board_set b y x v = Ok b1 ->
  cell_at b1 x' y' = if (x =? x') && (y =? y') then v else cell_at b x' y'.
Proof.
  intros Hb Hxy Hxy' E.
  destruct Hxy as [Hx Hy]. destruct Hxy' as [Hx' Hy']. simpl in *.
  destruct (board_ok_row b y Hb Hy) as (row & Er & Hrow).
  rewrite (board_set_eq b x y v row Hb (conj Hx Hy) Er) in E. injection E as <-.
  pose proof (lookup_lt_Some _ _ _ Er) as Hlt.
  unfold cell_at, Board, Cell in *.
  destruct (Z.eqb_spec y y') as [<-|Hne].
  - rewrite list_lookup_insert_eq by exact Hlt. rewrite Er.
    destruct (Z.eqb_spec x x') as [<-|Hnx]; simpl.
    + rewrite list_lookup_insert_eq; [reflexivity|]. unfold len in Hrow. lia.
    + rewrite list_lookup_insert_ne by lia. reflexivity.
  - rewrite andb_false_r.
    rewrite list_lookup_insert_ne by lia. reflexivity.
Qed.

Lemma lock_cells_lookup (k : Kind) (cells : list (Z * Z)) :
  forall b b1 writes x y,
    board_ok b -> Forall x_in_range cells -> on_board (x, y) ->
    lock_cells b k cells = Ok (b1, writes) ->
    cell_at b1 x y = if among cells x y then Some k else cell_at b x y.
Proof.
  induction cells as [|[x0 y0] rest IH]; intros b b1 writes x y Hb Hc Hxy E;
    simpl in E.
  - now injection E as <- _.
  - inversion Hc as [|c l Hx0 Hrest]; subst. unfold x_in_range in Hx0.
    simpl in Hx0. unfold among. simpl. fold (among rest x y).
    destruct (Z.geb_spec y0 0) as [Hy0|Hy0]; simpl in E.
    2:{ rewrite (IH _ _ _ _ _ Hb Hrest Hxy E).
        destruct Hxy as [_ Hy]. simpl in Hy.
        destruct (Z.eqb_spec y0 y); [lia|]. now rewrite andb_false_r. }
    destruct (Z.ltb_spec y0 ROWS) as [Hy1|Hy1]; simpl in E.
    2:{ rewrite (IH _ _ _ _ _ Hb Hrest Hxy E).
        destruct Hxy as [_ Hy]. simpl in Hy.
        destruct (Z.eqb_spec y0 y); [lia|]. now rewrite andb_false_r. }
    assert (Hon : on_board (x0, y0)) by (split; simpl; lia).
    destruct (board_set_ok b x0 y0 (Some k) Hb Hon) as (b' & Eb & Hb').
    rewrite Eb in E. cbn [bind] in E.
    destruct (lock_cells b' k rest) as [[b2 w]|] eqn:E2; [|discriminate].
    cbn [bind] in E. injection E as <- _.
    rewrite (IH _ _ _ _ _ Hb' Hrest Hxy E2).
    rewrite (cell_at_board_set b b' x0 y0 x y (Some k) Hb Hon Hxy Eb).
    destruct (among rest x y); [now rewrite orb_true_r|].
    rewrite orb_false_r. reflexivity.
Qed.

Lemma among_In (cells : list (Z * Z)) (x y : Z) :
  among cells x y = true <-> In (x, y) cells.
Proof.
  unfold among. rewrite existsb_exists. split.
  - intros ([x0 y0] & Hin & H). simpl in H.
    apply andb_true_iff in H. destruct H as [Hx Hy].
    apply Z.eqb_eq in Hx, Hy. now subst.
  - intros Hin. exists (x, y). split; [exact Hin|].
    simpl. now rewrite !Z.eqb_refl.
Qed.

(** X9.  The writing loop of [lock_piece], on a board of [ROWS] by [COLS]
    cells and for cells in the columns of the board, raises nothing, leaves
    a board of the same size, puts the kind into every board position
    that is among the cells, and leaves every other position as it was.
    Cells above the board are skipped. *)
Theorem lock_cells_writes_the_piece
  (b : Board) (k : Kind) (cells : list (Z * Z)) :
  board_ok b -> Forall x_in_range cells ->
  exists b1 writes,
    lock_cells b k cells = Ok (b1, writes)
    /\ board_ok b1
    /\ (forall x y, on_board (x, y) -> In (x, y) cells ->
                    board_get b1 y x = Ok (Some k))
    /\ (forall x y, on_board (x, y) -> ~ In (x, y) cells ->
                    board_get b1 y x = board_get b y x).
Proof.
  intros Hb Hc.
  destruct (lock_cells_total k cells b Hb Hc) as (b1 & writes & E & Hb1).
  exists b1, writes. split; [exact E|]. split; [exact Hb1|]. split.
  - intros x y Hxy Hin. rewrite board_get_ok by assumption.
    rewrite (lock_cells_lookup k cells b b1 writes x y Hb Hc Hxy E).
    apply among_In in Hin. now rewrite Hin.
  - intros x y Hxy Hin. rewrite !board_get_ok by assumption.
    rewrite (lock_cells_lookup k cells b b1 writes x y Hb Hc Hxy E).
    destruct (among cells x y) eqn:Ea; [|reflexivity].
    apply among_In in Ea. contradiction.
Qed.

Lemma lock_cells_writes_the_piece_witness :
  exists b1 writes,
    lock_cells empty_board KT [(4, -1); (3, 0); (4, 0); (5, 0)] = Ok (b1, writes)
    /\ board_get b1 0 4 = Ok (Some KT)
    /\ board_get b1 1 4 = board_get empty_board 1 4.
Proof.
  destruct (lock_cells_writes_the_piece empty_board KT
              [(4, -1); (3, 0); (4, 0); (5, 0)] empty_board_ok)
    as (b1 & writes & E & _ & Hin & Hout).
  { repeat constructor; unfold x_in_range; simpl; lia. }
  exists b1, writes. split; [exact E|]. split.
  - apply Hin; [unfold on_board, COLS, ROWS; simpl; lia|]. simpl. tauto.
  - apply Hout; [unfold on_board, COLS, ROWS; simpl; lia|].
    simpl. intuition congruence.
Defined.

(** X10.  While the game is not over, locking never overwrites a locked
    block: every position that [lock_piece] writes is empty before, both
    when [tick] locks the piece where it is and when [hard_drop] locks it
    where its loop has left it. *)
Theorem lock_never_overwrites (s : GameState) :
  reachable s -> game_over s = false ->
  (forall b writes,
      lock_cells (board s) (kind (active s)) (get_cells (active s) 0 0)
        = Ok (b, writes) ->
      Forall (fun c => board_get (board s) (snd c) (fst c) = Ok None) writes)
  /\ (forall s0 d b writes,
         drop_loop (drop_fuel s) s 0 = Ok (s0, d) ->
         lock_cells (board s0) (kind (active s0)) (get_cells (active s0) 0 0)
           = Ok (b, writes) ->
         Forall (fun c => board_get (board s) (snd c) (fst c) = Ok None) writes).
Proof.
  intros Hr Hg. pose proof (reachable_play_inv s Hr) as H.
  assert (Hkey : forall s0 b writes,
             play_inv s0 -> game_over s0 = false -> board s0 = board s ->
             lock_cells (board s0) (kind (active s0)) (get_cells (active s0) 0 0)
               = Ok (b, writes) ->
             Forall (fun c => board_get (board s) (snd c) (fst c) = Ok None)
                    writes).
  { intros s0 b writes H0 Hg0 Hb E.
    rewrite (lock_cells_writes _ _ _ _ _ E).
    pose proof (collides_false_cells _ _ (play_free s0 H0 Hg0)) as Hf.
    rewrite Hb in Hf. rewrite Forall_forall in Hf.
    apply Forall_forall. intros c Hc. apply list_elem_of_In in Hc.
    apply filter_In in Hc. destruct Hc as [Hc Hrow].
    apply list_elem_of_In in Hc. unfold row_on_board in Hrow.
    destruct (Hf c Hc) as [Hon Hnone]; [lia|].
    destruct c as [x y]. rewrite board_get_ok; [|apply H|exact Hon].
    simpl in *. now rewrite Hnone. }
  split.
  - intros b writes E. eapply Hkey; eauto.
  - intros s0 d b writes Ed E.
    destruct (drop_loop_play _ _ _ _ _ H Ed) as [H0 _].
    destruct (drop_loop_inv _ _ _ _ _ Ed) as [_ Hfr].
    unfold only_active_changed in Hfr.
    eapply (Hkey s0); [exact H0| | |exact E]; rewrite Hfr; [exact Hg|reflexivity].
Qed.


Lemma lock_never_overwrites_witness :
  exists s0 d b writes,
    drop_loop (drop_fuel demo_state) demo_state 0 = Ok (s0, d)
    /\ lock_cells (board s0) (kind (active s0)) (get_cells (active s0) 0 0)
       = Ok (b, writes)
    /\ length writes = 4%nat
    /\ Forall (fun c => board_get (board demo_state) (snd c) (fst c) = Ok None)
              writes.
Proof.
  destruct (drop_loop (drop_fuel demo_state) demo_state 0) as [[s0 d]|] eqn:Ed;
    [|vm_compute in Ed; discriminate].
  destruct (lock_cells (board s0) (kind (active s0)) (get_cells (active s0) 0 0))
    as [[b writes]|] eqn:E.
  - exists s0, d, b, writes. split; [reflexivity|]. split; [exact E|]. split.
    + vm_compute in Ed. injection Ed as <- <-. vm_compute in E.
      injection E as <- <-. reflexivity.
    + exact (proj2 (lock_never_overwrites demo_state demo_reachable eq_refl)
               s0 d b writes Ed E).
  - vm_compute in Ed. injection Ed as <- <-. vm_compute in E. discriminate.
Defined.

(** ** No more than four lines at a time *)

Lemma filter_insert_length {A : Type} (f : A -> bool) (l : list A) (j : nat) (a : A) :
  (length (List.filter f (<[j := a]> l)) <= S (length (List.filter f l)))%nat.
Proof.
  revert j. induction l as [|x l IH]; intros j; simpl; [lia|].
  destruct j as [|j]; simpl.
  - destruct (f a), (f x); simpl; lia.
  - specialize (IH j). destruct (f x); simpl; lia.
Qed.

Lemma setitem_insert {A : Type} (l l1 : list A) (i : Z) (v : A) :
  setitem l i v = Ok l1 -> exists j, l1 = <[j := v]> l.
Proof.
  unfold setitem. intros H. bind_inv H. injection H as <-. eauto.
Qed.

Lemma board_set_insert (b b1 : Board) (x y : Z) (v : Cell) :
  board_set b y x v = Ok b1 -> exists j row, b1 = <[j := row]> b.
Proof.
  unfold board_set. intros H. bind_inv H. bind_inv H.
  apply setitem_insert in H. destruct H as [j ->]. eauto.
Qed.

Lemma lock_cells_full_rows (k : Kind) (cells : list (Z * Z)) :
  forall b b1 writes,
    lock_cells b k cells = Ok (b1, writes) ->
    (length (List.filter row_full b1)
     <= length (List.filter row_full b) + length writes)%nat.
Proof.
  induction cells as [|[x y] rest IH]; intros b b1 writes E; simpl in E.
  - injection E as <- <-. simpl. lia.
  - destruct ((y >=? 0) && (y <? ROWS)).
    + bind_inv E. bind_inv E. destruct a0 as [b2 w]. injection E as <- <-.
      apply board_set_insert in Ha. destruct Ha as (j & row & ->).
      apply IH in Ha0. simpl.
      pose proof (filter_insert_length row_full b j row).
      unfold Board, Cell in *. lia.
    + now apply IH.
Qed.

Lemma PIECES_four_cells (k : Kind) (sh : Matrix) :
  In sh (PIECES k) -> length (filled sh) = 4%nat.
Proof.
  destruct k; vm_compute; intros H;
    repeat (destruct H as [<- | H]; [reflexivity|]); destruct H.
Qed.

Lemma piece_ok_four_cells (p : Piece) (xo yo : Z) :
  piece_ok p -> length (get_cells p xo yo) = 4%nat.
Proof.
  intros (Hl & _ & E). rewrite get_cells_filled, length_map.
  apply (PIECES_four_cells (kind p)). rewrite <- Hl.
  apply list_elem_of_In. eapply list_elem_of_lookup_2. exact E.
Qed.

Lemma open_rows_none_full (b : Board) :
  Forall (fun row : list Cell => has_empty_cell row = true) b ->
  List.filter row_full b = [].
Proof.
  induction 1 as [|row b Hrow _ IH]; simpl; [reflexivity|].
  rewrite has_empty_cell_not_full in Hrow.
  destruct (row_full row); [discriminate|exact IH].
Qed.

(** One [lock_piece] clears at most four lines and scores them at the
    level before the call. *)
Lemma lock_piece_lines (s s1 : GameState) :
  play_inv s -> lock_piece s = Ok s1 ->
  0 <= lines s1 - lines s <= 4
  /\ score s1 = score s + SCORES_get (lines s1 - lines s) * (level s + 1)
  /\ level s1 = lines s1 / 10.
Proof.
  intros H E. pose proof (play_base s H) as Hi.
  apply lock_piece_inv in E.
  destruct E as (b & w & p & q & c & Hw & _ & _ & ->).
  assert (Hb : board_ok b).
  { destruct (lock_cells_total (kind (active s)) (get_cells (active s) 0 0)
                (board s) (inv_board s Hi) (inv_cols s Hi)) as (b' & w' & E & Hb').
    congruence. }
  pose proof (lock_cells_full_rows _ _ _ _ _ Hw) as Hfull.
  rewrite (open_rows_none_full _ (play_rows s H)) in Hfull. simpl in Hfull.
  rewrite (lock_cells_writes _ _ _ _ _ Hw) in Hfull.
  pose proof (filter_length_le row_on_board (get_cells (active s) 0 0)) as Hle.
  rewrite (piece_ok_four_cells _ 0 0 (inv_piece s Hi)) in Hle.
  assert (Hkept : List.filter has_empty_cell b
                  = List.filter (fun row => negb (row_full row)) b).
  { apply filter_ext. intros row. apply has_empty_cell_not_full. }
  pose proof (filter_split_length row_full b) as Hsplit.
  destruct Hb as [Hlen _].
  assert (Hcl : 0 <= ROWS - len (List.filter has_empty_cell b) <= 4).
  { rewrite Hkept. unfold len in *. lia. }
  assert (Hgoal :
    0 <= lines (clear_lines_and_score (set_board b s)) - lines s <= 4
    /\ score (clear_lines_and_score (set_board b s))
       = score s + SCORES_get (lines (clear_lines_and_score (set_board b s))
                               - lines s) * (level s + 1)
    /\ level (clear_lines_and_score (set_board b s))
       = lines (clear_lines_and_score (set_board b s)) / 10).
  { unfold clear_lines_and_score. cbn [board set_board].
    destruct (Z.gtb_spec (ROWS - len (List.filter has_empty_cell b)) 0); cbn.
    - replace (lines s + (ROWS - len (List.filter has_empty_cell b)) - lines s)
        with (ROWS - len (List.filter has_empty_cell b)) by lia.
      repeat split; lia.
    - rewrite Z.sub_diag. change (SCORES_get 0) with 0.
      repeat split; try lia. apply Hi. }
  destruct c; exact Hgoal.
Qed.

(** Either no lock: the lines stay and the score grows by 0 or, for a soft
    drop, 1; or a lock of a state with the same lines and level, reached
    after [d] rows of hard drop. *)
Lemma step_lock_cases (e : Event) (s s1 : GameState) :
  play_inv s -> step e s = Ok s1 ->
  (lines s1 = lines s /\
   (score s1 = score s \/ score s1 = score s + SOFT_DROP_SCORE))
  \/ exists s0 s2 d,
       0 <= d /\ play_inv s0
       /\ score s0 = score s + HARD_DROP_SCORE * d
       /\ lines s0 = lines s /\ level s0 = level s
       /\ lock_piece s0 = Ok s2 /\ counters s1 = counters s2.
Proof.
  intros H E.
  assert (Hsame : counters s1 = counters s ->
                  lines s1 = lines s /\
                  (score s1 = score s \/ score s1 = score s + SOFT_DROP_SCORE)).
  { unfold counters. intros [= -> -> _ _]. auto. }
  destruct e as [| |cw now| | |now|now|now down| |];
    try discriminate;
    [simpl in E .. | apply step_rotate_inv in E; destruct E as [r E]
     | simpl in E | simpl in E | simpl in E | simpl in E | simpl in E].
  - left. apply Hsame. now injection E as <-.
  - left. apply Hsame. destruct (hold_used s) eqn:Hu.
    + unfold hold_action in E. rewrite Hu in E. now injection E as <-.
    + apply hold_action_inv in E; [|exact Hu].
      destruct E as (p & q & x0 & c & _ & _ & _ & ->). now destruct c.
  - left. apply Hsame.
    unfold try_rotate_with_kick, reset_lock_timer in E. run E; frame.
  - right. apply hard_drop_inv in E. destruct E as (s0 & d & Ed & El).
    destruct (drop_loop_play _ _ _ _ _ H Ed) as [H0 Hd].
    destruct (drop_loop_inv _ _ _ _ _ Ed) as [_ Hfr].
    unfold only_active_changed in Hfr.
    assert (Hsc : score s0 = score s) by (rewrite Hfr; reflexivity).
    assert (Hln : lines s0 = lines s) by (rewrite Hfr; reflexivity).
    assert (Hlv : level s0 = level s) by (rewrite Hfr; reflexivity).
    exists (set_score (score s0 + HARD_DROP_SCORE * d) s0), s1, d.
    split; [lia|]. split.
    { apply play_inv_set_score; [exact H0|].
      unfold HARD_DROP_SCORE. pose proof (play_score s0 H0). lia. }
    cbn. repeat split; try assumption. lia.
  - left. unfold soft_drop in E. run E; subst; cbn; auto.
  - left. apply Hsame. unfold move_sideways, reset_lock_timer in E. run E; frame.
  - left. apply Hsame. unfold move_sideways, reset_lock_timer in E. run E; frame.
  - destruct (tick_inv now down s s1 E)
      as [[_ ->] | [-> | [[_ ->] | [[_ ->] | [_ (s2 & Hl & ->)]]]]];
      try (left; apply Hsame; reflexivity).
    + left. apply Hsame. unfold touch_ground. now destruct (grounded s).
    + right. exists (touch_ground now s), s2, 0.
      split; [lia|]. split; [now apply play_inv_touch_ground|].
      assert (Hf : counters (touch_ground now s) = counters s)
        by (unfold touch_ground; now destruct (grounded s)).
      unfold counters in Hf. injection Hf as Hsc Hln Hlv _.
      unfold HARD_DROP_SCORE. repeat split; try assumption. lia.
Qed.

(** X11.  No key press and no tick clears more than four lines, and the
    score grows by the drop points (1 for a soft drop, [HARD_DROP_SCORE]
    for each row of a hard drop) plus [SCORES] of the number of lines
    cleared, 0 to 4, times the level before plus one. *)
Theorem at_most_four_lines (e : Event) (s s1 : GameState) :
  reachable s -> step e s = Ok s1 ->
  0 <= lines s1 - lines s <= 4
  /\ exists drop_points,
       0 <= drop_points
       /\ score s1 = score s + drop_points
                     + SCORES_get (lines s1 - lines s) * (level s + 1).
Proof.
  intros Hr E. pose proof (reachable_play_inv s Hr) as H.
  destruct (step_lock_cases e s s1 H E)
    as [[Hl Hs] | (s0 & s2 & d & Hd & H0 & Hs0 & Hl0 & Hv0 & El & Ec)].
  - rewrite Hl, Z.sub_diag. change (SCORES_get 0) with 0.
    split; [lia|]. unfold SOFT_DROP_SCORE in Hs.
    destruct Hs as [-> | ->]; [exists 0 | exists 1]; lia.
  - destruct (lock_piece_lines s0 s2 H0 El) as (Hn & Hsc & _).
    unfold counters in Ec. injection Ec as -> -> _ _.
    rewrite Hl0, Hv0, Hs0 in *. split; [exact Hn|].
    exists (HARD_DROP_SCORE * d). unfold HARD_DROP_SCORE in *. split; lia.
Qed.

Lemma at_most_four_lines_witness :
  exists s s1,
    run nine_line_keys demo_state = Ok s /\ step KeyHardDrop s = Ok s1
    /\ lines s1 - lines s = 1
    /\ 0 <= lines s1 - lines s <= 4.
Proof.
  destruct level_up_in_play as (s & s1 & E & Hr & E1 & Hc & Hc1).
  exists s, s1. split; [exact E|]. split; [exact E1|]. split.
  - unfold counters in Hc, Hc1. injection Hc as _ -> _ _.
    injection Hc1 as _ -> _ _. reflexivity.
  - exact (proj1 (at_most_four_lines KeyHardDrop s s1 Hr E1)).
Defined.

(** ** Rotating a piece *)

(** X12.  [Piece.rotate] one way and then the other way gives the piece
    back, whenever the rotation index is a valid index of the shape list
    and the shape is the one at that index. *)
Theorem Piece_rotate_round_trip (p : Piece) (cw : bool) :
  0 <= rot_index p < len (shape_list p) -> shape_in_sync p ->
  (do p1 <- rotate p cw; rotate p1 (negb cw)) = Ok p.
Proof.
  intros Hri Hsync. unfold rotate, py_mod.
  destruct (Z.eqb_spec (len (shape_list p)) 0) as [Hz|Hz]; [lia|]. cbn [bind].
  set (n := len (shape_list p)) in *.
  set (r1 := (if cw then rot_index p + 1 else rot_index p - 1) mod n).
  assert (Hr1 : 0 <= r1 < n) by (apply Z.mod_pos_bound; lia).
  destruct (getitem_in_range (shape_list p) r1 Hr1) as (sh1 & -> & _).
  cbn [bind rot_index shape_list kind px py].
  fold n. destruct (Z.eqb_spec n 0) as [|_]; [lia|]. cbn [bind].
  assert (Hback : (if negb cw then r1 + 1 else r1 - 1) mod n = rot_index p).
  { subst r1. destruct cw; simpl.
    - rewrite Zminus_mod_idemp_l.
      replace (rot_index p + 1 - 1) with (rot_index p) by lia.
      apply Z.mod_small. lia.
    - rewrite Zplus_mod_idemp_l.
      replace (rot_index p - 1 + 1) with (rot_index p) by lia.
      apply Z.mod_small. lia. }
  rewrite Hback. unfold shape_in_sync in Hsync. rewrite Hsync. cbn [bind].
  now rewrite piece_eta.
Qed.

Lemma Piece_rotate_round_trip_witness :
  (do p1 <- rotate (active demo_state) true; rotate p1 false)
  = Ok (active demo_state).
Proof.
  apply Piece_rotate_round_trip.
  - vm_compute. split; [discriminate|reflexivity].
  - reflexivity.
Defined.

(** ** The rotation tables *)

Lemma row_eqb_eq (a b : list Z) : row_eqb a b = true <-> a = b.
Proof.
  revert b. induction a as [|u a IH]; intros [|v b]; simpl;
    try (split; [discriminate|discriminate]); [tauto|].
  rewrite andb_true_iff, Z.eqb_eq, IH. split.
  - intros [-> ->]. reflexivity.
  - intros [= -> ->]. auto.
Qed.

Lemma matrix_eqb_eq (a b : Matrix) : matrix_eqb a b = true <-> a = b.
Proof.
  revert b. induction a as [|u a IH]; intros [|v b]; simpl;
    try (split; [discriminate|discriminate]); [tauto|].
  rewrite andb_true_iff, row_eqb_eq, IH. split.
  - intros [-> ->]. reflexivity.
  - intros [= -> ->]. auto.
Qed.

Lemma existsb_matrix_eqb (r : Matrix) (acc : list Matrix) :
  existsb (matrix_eqb r) acc = true <-> r ∈ acc.
Proof.
  rewrite existsb_exists, list_elem_of_In. split.
  - intros (x & Hin & Hx). apply matrix_eqb_eq in Hx. now subst.
  - intros Hin. exists r. split; [exact Hin|]. now apply matrix_eqb_eq.
Qed.

(** The loop of [uniq], from any list [acc] collected so far. *)
Lemma uniq_loop (rots : list Matrix) :
  forall acc,
    let out := fold_left
                 (fun acc r => if existsb (matrix_eqb r) acc then acc
                               else acc ++ [r]) rots acc in
    (exists ext, out = acc ++ ext)
    /\ (NoDup acc -> NoDup out)
    /\ (length out <= length acc + length rots)%nat
    /\ (forall r, r ∈ out <-> r ∈ acc \/ r ∈ rots).
Proof.
  induction rots as [|x rots IH]; intros acc; simpl.
  - split; [exists []; now rewrite app_nil_r|]. split; [auto|]. split; [lia|].
    intros r. rewrite elem_of_nil. tauto.
  - destruct (existsb (matrix_eqb x) acc) eqn:E.
    + destruct (IH acc) as ((ext & He) & Hn & Hl & Hm).
      split; [eauto|]. split; [exact Hn|]. split; [lia|].
      intros r. rewrite Hm, elem_of_cons.
      apply existsb_matrix_eqb in E. split; [tauto|].
      intros [H | [-> | H]]; auto.
    + destruct (IH (acc ++ [x])) as ((ext & He) & Hn & Hl & Hm).
      split; [exists ([x] ++ ext); now rewrite He, <- app_assoc|].
      split.
      { intros Hacc. apply Hn. apply NoDup_app. split; [exact Hacc|].
        split; [|apply NoDup_singleton].
        intros y Hy Hx. apply list_elem_of_singleton in Hx. subst y.
        apply existsb_matrix_eqb in Hy. congruence. }
      split; [rewrite length_app in Hl; simpl in Hl; lia|].
      intros r. rewrite Hm, elem_of_app, list_elem_of_singleton, elem_of_cons.
      tauto.
Qed.

(** X13.  For every base matrix, [rotations_from_matrix] returns a list
    that starts with the matrix itself, has at most four states and no state
    twice, and holds exactly the matrices obtained by 0 to 3 clockwise
    quarter turns. *)
Theorem rotations_from_matrix_spec (mat : Matrix) :
  (exists rest, rotations_from_matrix mat = mat :: rest)
  /\ (length (rotations_from_matrix mat) <= 4)%nat
  /\ NoDup (rotations_from_matrix mat)
  /\ (forall r, r ∈ rotations_from_matrix mat <->
                exists i, (i < 4)%nat /\ r = Nat.iter i rot_cw mat).
Proof.
  assert (Hlist : rotations_from_matrix mat =
                  uniq [mat; rot_cw mat; rot_cw (rot_cw mat);
                        rot_cw (rot_cw (rot_cw mat))]) by reflexivity.
  rewrite Hlist. unfold uniq.
  set (rots := [mat; rot_cw mat; rot_cw (rot_cw mat);
                rot_cw (rot_cw (rot_cw mat))]).
  split.
  { subst rots.
    destruct (uniq_loop [rot_cw mat; rot_cw (rot_cw mat);
                         rot_cw (rot_cw (rot_cw mat))] [mat])
      as ((ext & He) & _). cbv zeta in He. exists ext. exact He. }
  destruct (uniq_loop rots []) as (_ & Hn & Hl & Hm). cbv zeta in *.
  split; [exact Hl|]. split; [apply Hn; apply NoDup_nil_2|].
  intros r. rewrite Hm. rewrite elem_of_nil. subst rots.
  rewrite !elem_of_cons, elem_of_nil. split.
  - intros [[] | [-> | [-> | [-> | [-> | []]]]]];
      [exists 0%nat | exists 1%nat | exists 2%nat | exists 3%nat];
      (split; [lia|reflexivity]).
  - intros (i & Hi & ->).
    destruct i as [|[|[|[|i]]]]; simpl; [tauto..|lia].
Qed.

(** ** Quarter turns of a matrix *)

Section ZipStar.
Context {A : Type}.
Implicit Types (r : list A) (m t : list (list A)).

Lemma zip_cons_length r t :
  length (zip_cons r t) = Nat.min (length r) (length t).
Proof.
  revert t. induction r as [|a r IH]; intros [|u t]; simpl; auto.
Qed.

Lemma zip_star_cons r m :
  m <> [] -> zip_star (r :: m) = zip_cons r (zip_star m).
Proof. destruct m; [congruence|reflexivity]. Qed.

Lemma zip_star_length w m :
  rectangular w m -> m <> [] -> length (zip_star m) = w.
Proof.
  induction 1 as [|r m Hr Hm IH]; intros Hne; [congruence|].
  destruct m as [|r' m'].
  - simpl. now rewrite length_map.
  - rewrite zip_star_cons by discriminate. rewrite zip_cons_length.
    rewrite IH by discriminate. lia.
Qed.

(** The columns of [r :: t], read off the rows [zip_cons r t]. *)
Lemma zip_star_zip_cons r t :
  length r = length t -> r <> [] ->
  zip_star (zip_cons r t) = r :: zip_star t.
Proof.
  revert t. induction r as [|a r IH]; intros [|u t] Hl Hne; simpl in Hl;
    try congruence; try lia.
  destruct r as [|a' r'].
  - destruct t; [|simpl in Hl; lia]. reflexivity.
  - destruct t as [|u' t']; [simpl in Hl; lia|].
    change (zip_cons (a :: a' :: r') (u :: u' :: t'))
      with ((a :: u) :: zip_cons (a' :: r') (u' :: t')).
    rewrite zip_star_cons by (simpl; discriminate).
    rewrite IH by (simpl in *; (lia || discriminate)).
    reflexivity.
Qed.

Lemma zip_star_singletons r :
  r <> [] -> zip_star (map (fun v => [v]) r) = [r].
Proof.
  induction r as [|a r IH]; intros Hne; [congruence|].
  destruct r as [|a' r']; [reflexivity|].
  change (map (fun v => [v]) (a :: a' :: r'))
    with ([a] :: map (fun v => [v]) (a' :: r')).
  rewrite zip_star_cons by (simpl; discriminate).
  rewrite IH by discriminate. reflexivity.
Qed.

(** Transposing twice gives the matrix back. *)
Lemma zip_star_involutive w m :
  rectangular w m -> m <> [] -> (0 < w)%nat -> zip_star (zip_star m) = m.
Proof.
  induction 1 as [|r m Hr Hm IH]; intros Hne Hw; [congruence|].
  assert (Hrne : r <> []) by (destruct r; [simpl in Hr; lia|discriminate]).
  destruct m as [|r' m'].
  - simpl. now apply zip_star_singletons.
  - rewrite zip_star_cons by discriminate.
    rewrite zip_star_zip_cons; [|rewrite (zip_star_length w)|exact Hrne];
      try (assumption || discriminate).
    now rewrite IH by (discriminate || assumption).
Qed.

Lemma zip_cons_rows r t (h : nat) :
  Forall (fun row => length row = h) t ->
  Forall (fun row => length row = S h) (zip_cons r t).
Proof.
  intros Ht. revert r. induction Ht as [|u t Hu _ IH]; intros [|a r]; simpl;
    try constructor; simpl; auto.
Qed.

(** The transpose of [h] rows has rows of [h] entries. *)
Lemma zip_star_rows m :
  Forall (fun row => length row = length m) (zip_star m).
Proof.
  induction m as [|r m IH]; [constructor|].
  destruct m as [|r' m'].
  - simpl. apply Forall_map. apply Forall_true. reflexivity.
  - rewrite zip_star_cons by discriminate. now apply zip_cons_rows.
Qed.

Lemma rectangular_rev w m : rectangular w m -> rectangular w (rev m).
Proof. unfold rectangular. intros H. now apply Forall_rev. Qed.
End ZipStar.

(** X14.  [rotate_shape] clockwise and counter-clockwise undo each other
    on every matrix with at least one row and one column whose rows are
    equally long; and a quarter turn of [h] rows of [w] entries has [w]
    rows of [h] entries. *)
Theorem rotate_shape_round_trip (w : nat) (m : Matrix) :
  rectangular w m -> m <> [] -> (0 < w)%nat ->
  rotate_shape (rotate_shape m true) false = m
  /\ rotate_shape (rotate_shape m false) true = m
  /\ (forall cw, length (rotate_shape m cw) = w
                 /\ rectangular (length m) (rotate_shape m cw)).
Proof.
  intros Hr Hne Hw. unfold rotate_shape.
  assert (Hrev : rev m <> []).
  { intros E. apply (f_equal (@length _)) in E. rewrite length_rev in E.
    destruct m; [congruence|discriminate]. }
  split; [|split].
  - rewrite (zip_star_involutive w) by (try apply rectangular_rev; assumption).
    apply rev_involutive.
  - rewrite rev_involutive. now apply (zip_star_involutive w).
  - intros [|]; split.
    + apply zip_star_length; [now apply rectangular_rev|exact Hrev].
    + pose proof (zip_star_rows (rev m)) as H. now rewrite length_rev in H.
    + rewrite length_rev. now apply zip_star_length.
    + apply rectangular_rev. apply zip_star_rows.
Qed.

Lemma rotate_shape_round_trip_witness :
  rotate_shape (rotate_shape [[0;1;1]; [1;1;0]] true) false = [[0;1;1]; [1;1;0]]
  /\ rotate_shape [[0;1;1]; [1;1;0]] true = [[1;0]; [1;1]; [0;1]].
Proof.
  split.
  - apply (proj1 (rotate_shape_round_trip 3 [[0;1;1]; [1;1;0]]
                    ltac:(repeat constructor) ltac:(discriminate) ltac:(lia))).
  - reflexivity.
Defined.

(** ** A new game *)

Lemma new_bag_seven (t : Tape) :
  exists k0 k1 k2 k3 k4 k5 k6,
    fst (new_bag t) = [k0; k1; k2; k3; k4; k5; k6].
Proof.
  pose proof (Permutation_length (new_bag_perm t)) as Hl.
  destruct (fst (new_bag t)) as [|k0 [|k1 [|k2 [|k3 [|k4 [|k5 [|k6 [|k7 b]]]]]]]];
    try discriminate Hl.
  now exists k0, k1, k2, k3, k4, k5, k6.
Qed.

(** X15.  [GameState()] never raises, whatever the random generator
    holds.  The new game has an empty board, no held piece, score, lines
    and level 0 and the base fall interval; and its first piece, the five
    kinds of the queue and the one kind left in the bag are, in this
    order, the first shuffled bag: the seven kinds, each once. *)
Theorem new_game_deals_one_bag (t : Tape) (now : Z) :
  exists s,
    GameState_init t now = Ok s
    /\ board s = empty_board
    /\ counters s = (0, 0, 0, BASE_FALL_MS)
    /\ hold s = None /\ hold_used s = false
    /\ paused s = false /\ game_over s = false
    /\ grounded s = false /\ lock_resets_left s = 15
    /\ Piece_init (kind (active s)) = Ok (active s)
    /\ length (next_queue (supply s)) = 5%nat
    /\ kind (active s) :: next_queue (supply s) ++ bag (supply s)
       = fst (new_bag t)
    /\ kind (active s) :: next_queue (supply s) ++ bag (supply s)
       ≡ₚ PIECE_KEYS.
Proof.
  destruct (new_bag_seven t) as (k0 & k1 & k2 & k3 & k4 & k5 & k6 & Hb).
  destruct (Piece_init_total k0) as (p & Hp & _ & Hk & _).
  assert (Hs : GameState_init t now =
               Ok (mkGame {| rng := snd (new_bag t); bag := [k6];
                             next_queue := [k1; k2; k3; k4; k5] |}
                     empty_board p None false now BASE_FALL_MS false false
                     0 0 0 false None 15)).
  { unfold GameState_init. destruct (new_bag t) as [b t1]. simpl in Hb.
    subst b. simpl. unfold _spawn_from_queue. simpl. rewrite Hp. reflexivity. }
  eexists. split; [exact Hs|]. simpl.
  repeat (split; [reflexivity|]).
  split; [now rewrite Hk|].
  split; [reflexivity|].
  rewrite Hk. split; [symmetry; exact Hb|].
  pose proof (new_bag_perm t) as Hperm. rewrite Hb in Hperm. exact Hperm.
Qed.

(** ** Spawning from the queue *)

Lemma spawn_from_queue_fifo (q : Supply) (k : Kind) (rest : list Kind) :
  next_queue q = k :: rest ->
  exists p q1 k',
    _spawn_from_queue q = Ok (p, q1)
    /\ Piece_init k = Ok p
    /\ next_queue q1 = rest ++ [k']
    /\ (bag q <> [] -> bag q = k' :: bag q1 /\ rng q1 = rng q)
    /\ (bag q = [] ->
        fst (new_bag (rng q)) = k' :: bag q1 /\ rng q1 = snd (new_bag (rng q))).
Proof.
  intros Hq.
  destruct (Piece_init_total k) as (p & Hp & _).
  unfold _spawn_from_queue. rewrite Hq. cbn [bind]. rewrite Hq.
  cbn [bind popleft].
  destruct (bag q) as [|k' b'] eqn:Hb.
  - destruct (new_bag_cons (rng q)) as (k' & b' & Hn).
    rewrite (fill_next_refill _ k' b') by (reflexivity || exact Hn).
    cbn [bind]. rewrite Hp. cbn [bind].
    eexists _, _, k'. split; [reflexivity|]. cbn [rng bag next_queue].
    split; [reflexivity|]. split; [reflexivity|].
    split; [congruence|]. intros _. split; [exact Hn|reflexivity].
  - rewrite (fill_next_from_bag _ k' b') by reflexivity.
    cbn [bind]. rewrite Hp. cbn [bind].
    eexists _, _, k'. split; [reflexivity|]. cbn [rng bag next_queue].
    split; [reflexivity|]. split; [reflexivity|].
    split; [intros _; split; reflexivity|discriminate].
Qed.

(** X16.  [_spawn_from_queue] on a queue that is not empty never raises:
    the piece it returns is a new piece of the kind at the head of the
    queue, and the queue moves up by one, with the first kind of the bag
    appended at its end; the bag is a freshly shuffled one when it was
    empty. *)
Theorem spawn_takes_queue_head (q : Supply) (k : Kind) (rest : list Kind) :
  next_queue q = k :: rest ->
  exists p q1 k',
    _spawn_from_queue q = Ok (p, q1)
    /\ Piece_init k = Ok p
    /\ next_queue q1 = rest ++ [k']
    /\ (bag q <> [] -> bag q = k' :: bag q1 /\ rng q1 = rng q)
    /\ (bag q = [] ->
        fst (new_bag (rng q)) = k' :: bag q1 /\ rng q1 = snd (new_bag (rng q))).
Proof. exact (spawn_from_queue_fifo q k rest). Qed.

Lemma spawn_takes_queue_head_witness :
  exists p q1,
    _spawn_from_queue (supply demo_state) = Ok (p, q1)
    /\ kind p = KS /\ next_queue q1 = [KI; KL; KJ; KT; KO].
Proof.
  destruct (spawn_takes_queue_head (supply demo_state) KS [KI; KL; KJ; KT]
              ltac:(vm_compute; reflexivity)) as (p & q1 & k' & Hs & Hp & Hq & Hb & _).
  exists p, q1. split; [exact Hs|].
  split; [exact (Piece_init_kind _ _ Hp)|].
  destruct (Hb ltac:(discriminate)) as (Hk & _).
  rewrite Hq. simpl in Hk. now inversion Hk.
Defined.

(** ** Holding a piece *)

Lemma supply_ok_head (q : Supply) :
  supply_ok q -> exists k rest, next_queue q = k :: rest.
Proof.
  intros (Hl & _). destruct (next_queue q) as [|k rest]; [discriminate|].
  now exists k, rest.
Qed.

(** X17.  In a game in play, [hold_action] on a piece that has not been
    held yet never raises and exchanges the active piece with the hold
    slot: the kind of the active piece goes into hold, and the new active
    piece is a new piece (first rotation, spawn position) of the kind that
    was held, the queue and the bag staying as they are; with an empty
    hold slot the new piece is the head of the queue, which moves up by
    one.  The board and the counters are not touched, and the lock delay
    starts afresh. *)
Theorem hold_exchanges (s : GameState) :
  reachable s -> hold_used s = false ->
  exists s1,
    hold_action s = Ok s1
    /\ hold s1 = Some (kind (active s))
    /\ hold_used s1 = true
    /\ board s1 = board s
    /\ counters s1 = counters s
    /\ Piece_init (kind (active s1)) = Ok (active s1)
    /\ grounded s1 = false /\ lock_start s1 = None
    /\ lock_resets_left s1 = 15
    /\ match hold s with
       | Some held => kind (active s1) = held /\ supply s1 = supply s
       | None =>
           exists k, next_queue (supply s) ++ [k]
                     = kind (active s1) :: next_queue (supply s1)
       end.
Proof.
  intros Hr Hu.
  pose proof (reachable_play_inv s Hr) as Hp.
  pose proof (inv_board s (play_base s Hp)) as Hb.
  assert (Hrepo : forall s2 p k,
             Piece_init k = Ok p -> active s2 = p -> board s2 = board s ->
             exists s1, hold_reposition s2 = Ok s1
               /\ s1 = (let s3 := set_lock false None 15 s2 in
                        if collides (board s) (get_cells p 0 0)
                        then set_game_over true s3 else s3)).
  { intros s2 p k Hk Ha Hbs. unfold hold_reposition.
    destruct (Piece_init_position k p Hk) as (Hx & Hy).
    rewrite Ha, Hx. cbn [bind]. rewrite Hy, piece_eta.
    unfold check_spawn_collision.
    rewrite collision_total by (cbn; rewrite Hbs; exact Hb).
    cbn [bind]. eexists. split; [reflexivity|].
    destruct s2; cbn in *. subst. reflexivity. }
  unfold hold_action. rewrite Hu. unfold hold_swap. cbn [hold set_hold_used].
  destruct (hold s) as [held|] eqn:Hh.
  - destruct (Piece_init_total held) as (p & Hk & _ & Hkp & _).
    cbn [active set_hold set_hold_used]. rewrite Hk. cbn [bind].
    match goal with
    | |- context [hold_reposition ?s2] =>
        destruct (Hrepo s2 p held Hk eq_refl eq_refl) as (s1 & Hs1 & E)
    end.
    exists s1. split; [exact Hs1|]. rewrite E. cbn zeta.
    destruct (collides (board s) (get_cells p 0 0)); cbn;
      rewrite ?Hkp; repeat (split; [reflexivity || exact Hk|]);
      reflexivity.
  - destruct (supply_ok_head (supply s) (play_supply s Hp)) as (k & rest & Hq).
    destruct (spawn_from_queue_fifo (supply s) k rest Hq)
      as (p & q1 & k' & Hsp & Hk & Hq1 & _).
    cbn [active supply set_hold set_hold_used]. rewrite Hsp. cbn [bind].
    match goal with
    | |- context [hold_reposition ?s2] =>
        destruct (Hrepo s2 p k Hk eq_refl eq_refl) as (s1 & Hs1 & E)
    end.
    exists s1. split; [exact Hs1|]. rewrite E. cbn zeta.
    pose proof (Piece_init_kind _ _ Hk) as Hkp.
    destruct (collides (board s) (get_cells p 0 0)); cbn;
      rewrite ?Hkp; repeat (split; [reflexivity || exact Hk|]);
      (exists k'; rewrite Hq, Hq1; reflexivity).
Qed.

Lemma hold_exchanges_witness :
  exists s1,
    hold_action demo_state = Ok s1
    /\ hold s1 = Some KZ /\ kind (active s1) = KS.
Proof.
  destruct (hold_exchanges demo_state demo_reachable
              ltac:(vm_compute; reflexivity))
    as (s1 & H & Hh & _ & _ & _ & _ & _ & _ & _ & Hm).
  exists s1. split; [exact H|]. split; [exact Hh|].
  vm_compute in Hm. destruct Hm as (k & E). now inversion E.
Defined.

(** ** Moving sideways *)

Lemma reset_lock_timer_frame (now : Z) (s : GameState) :
  active (reset_lock_timer now s) = active s
  /\ board (reset_lock_timer now s) = board s
  /\ counters (reset_lock_timer now s) = counters s
  /\ grounded (reset_lock_timer now s) = grounded s.
Proof.
  unfold reset_lock_timer. destruct (0 <? lock_resets_left s);
    repeat split; reflexivity.
Qed.

Lemma moved_sideways_frame (dx now : Z) (s : GameState) :
  active (moved_sideways dx now s) = move_by (active s) dx 0
  /\ board (moved_sideways dx now s) = board s
  /\ counters (moved_sideways dx now s) = counters s
  /\ grounded (moved_sideways dx now s) = grounded s.
Proof.
  unfold moved_sideways. cbn [grounded set_active].
  destruct (grounded s) eqn:Hg.
  - destruct (reset_lock_timer_frame now (set_active (move_by (active s) dx 0) s))
      as (-> & -> & -> & ->). repeat split; assumption.
  - repeat split; assumption.
Qed.

Lemma move_sideways_back (dx n1 n2 : Z) (s : GameState) :
  play_inv s -> game_over s = false ->
  collision s (active s) dx 0 = Ok false ->
  move_sideways dx n1 s = Ok (moved_sideways dx n1 s)
  /\ move_sideways (- dx) n2 (moved_sideways dx n1 s)
     = Ok (moved_sideways (- dx) n2 (moved_sideways dx n1 s))
  /\ active (moved_sideways (- dx) n2 (moved_sideways dx n1 s)) = active s
  /\ board (moved_sideways (- dx) n2 (moved_sideways dx n1 s)) = board s
  /\ counters (moved_sideways (- dx) n2 (moved_sideways dx n1 s)) = counters s
  /\ (grounded s = false ->
      moved_sideways (- dx) n2 (moved_sideways dx n1 s) = s).
Proof.
  intros Hp Hgo Hc.
  assert (H0 : collision s (active s) 0 0 = Ok false).
  { rewrite collision_total by apply Hp. f_equal. apply (play_free s Hp Hgo). }
  assert (Hmv : move_by (move_by (active s) dx 0) (- dx) 0 = active s).
  { unfold move_by; cbn.
    replace (px (active s) + dx + - dx) with (px (active s)) by lia.
    replace (py (active s) + 0 + 0) with (py (active s)) by lia.
    apply piece_eta. }
  destruct (moved_sideways_frame dx n1 s) as (Ha1 & Hb1 & Hc1 & Hg1).
  destruct (moved_sideways_frame (- dx) n2 (moved_sideways dx n1 s))
    as (Ha2 & Hb2 & Hc2 & Hg2).
  split; [|split; [|split; [|split; [|split]]]].
  - unfold move_sideways. rewrite Hc. reflexivity.
  - unfold move_sideways.
    replace (collision (moved_sideways dx n1 s)
               (active (moved_sideways dx n1 s)) (- dx) 0) with (Ok false);
      [reflexivity|].
    rewrite <- H0. symmetry.
    apply collision_same; rewrite ?Ha1; cbn; (assumption || reflexivity || lia).
  - now rewrite Ha2, Ha1.
  - now rewrite Hb2.
  - now rewrite Hc2.
  - intros Hg. unfold moved_sideways. cbn [grounded set_active]. rewrite Hg.
    cbn [active set_active grounded]. rewrite Hg, Hmv.
    destruct s; reflexivity.
Qed.

(** X18.  In a game in play that is not over, pressing left and then
    right (or right and then left) brings the active piece back where it
    was whenever the first move was possible: the piece, the board and the
    counters are as before, and so is the whole state when the piece was
    not grounded (on a grounded piece each key uses up a lock-delay
    reset). *)
Theorem sideways_round_trip (s : GameState) (n1 n2 : Z) :
  reachable s -> game_over s = false ->
  (collision s (active s) (-1) 0 = Ok false ->
   exists s2, run [KeyLeft n1; KeyRight n2] s = Ok s2
     /\ active s2 = active s /\ board s2 = board s
     /\ counters s2 = counters s /\ (grounded s = false -> s2 = s))
  /\ (collision s (active s) 1 0 = Ok false ->
      exists s2, run [KeyRight n1; KeyLeft n2] s = Ok s2
        /\ active s2 = active s /\ board s2 = board s
        /\ counters s2 = counters s /\ (grounded s = false -> s2 = s)).
Proof.
  intros Hr Hgo. pose proof (reachable_play_inv s Hr) as Hp.
  split; intros Hc.
  - destruct (move_sideways_back (-1) n1 n2 s Hp Hgo Hc)
      as (E1 & E2 & Ha & Hb & Hk & Hs).
    eexists. cbn [run step]. rewrite E1. cbn [bind].
    change 1 with (- (-1)). rewrite E2. cbn [bind].
    split; [reflexivity|]. auto.
  - destruct (move_sideways_back 1 n1 n2 s Hp Hgo Hc)
      as (E1 & E2 & Ha & Hb & Hk & Hs).
    eexists. cbn [run step]. rewrite E1. cbn [bind].
    change (-1) with (- (1)). rewrite E2. cbn [bind].
    split; [reflexivity|]. auto.
Qed.

Lemma sideways_round_trip_witness :
  run [KeyLeft 5; KeyRight 9] demo_state = Ok demo_state.
Proof.
  destruct (sideways_round_trip demo_state 5 9 demo_reachable
              ltac:(vm_compute; reflexivity)) as (Hl & _).
  destruct (Hl ltac:(vm_compute; reflexivity)) as (s2 & E & _ & _ & _ & Hs).
  rewrite E. f_equal. apply Hs. vm_compute. reflexivity.
Defined.

(** ** Rotation states are quarter turns *)

(** X19.  [Piece.rotate] never raises on a piece whose shape is the entry
    of its kind's rotation table at its rotation index, and the shape it
    selects from the table is the quarter turn of the present shape that
    [rotate_shape] computes, clockwise or counter-clockwise: the tables of
    all seven kinds are closed cycles of quarter turns.  Kind and position
    stay, and the piece still has four cells. *)
Theorem rotate_is_quarter_turn (p : Piece) (cw : bool) :
  piece_ok p ->
  exists p1,
    rotate p cw = Ok p1
    /\ shape p1 = rotate_shape (shape p) cw
    /\ kind p1 = kind p /\ px p1 = px p /\ py p1 = py p
    /\ length (get_cells p1 0 0) = 4%nat.
Proof.
  destruct p as [k r sl sh x y]. unfold piece_ok. cbn [kind rot_index shape_list shape].
  intros (-> & Hr & Hsh).
  rewrite <- (Z2Nat.id r Hr). clear Hr.
  assert (Hcells : forall sh' x' y' r',
             In sh' (PIECES k) ->
             length (get_cells (mkPiece k r' (PIECES k) sh' x' y') 0 0) = 4%nat).
  { intros sh' x' y' r' Hin. rewrite get_cells_filled, length_map.
    exact (PIECES_four_cells k sh' Hin). }
  destruct k, cw;
    (destruct (Z.to_nat r) as [|[|[|[|n]]]];
     try discriminate Hsh;
     vm_compute in Hsh; injection Hsh as <-;
     eexists; (split; [vm_compute; reflexivity|]);
     (split; [vm_compute; reflexivity|]);
     (split; [reflexivity|]); (split; [reflexivity|]); (split; [reflexivity|]);
     apply Hcells; vm_compute; tauto).
Qed.

Lemma rotate_is_quarter_turn_witness :
  exists p1,
    rotate (active demo_state) true = Ok p1
    /\ shape p1 = [[0;0;1]; [0;1;1]; [0;1;0]].
Proof.
  destruct (rotate_is_quarter_turn (active demo_state) true
              ltac:(vm_compute;
                    split; [reflexivity|split; [discriminate|reflexivity]]))
    as (p1 & E & Hs & _).
  exists p1. split; [exact E|]. rewrite Hs. vm_compute. reflexivity.
Defined.

(** ** What [collision] decides *)

Lemma cell_hits_spec (b : Board) (x y : Z) :
  cell_hits b (x, y) = true <->
  x < 0 \/ COLS <= x \/ ROWS <= y \/ (0 <= y /\ cell_at b x y <> None).
Proof.
  unfold cell_hits. cbn [fst snd].
  rewrite !orb_true_iff, andb_true_iff, Z.ltb_lt, !Z.geb_le.
  assert (Hn : is_not_None (cell_at b x y) = true <-> cell_at b x y <> None).
  { destruct (cell_at b x y); simpl; split; congruence. }
  rewrite Hn. tauto.
Qed.

(** X20.  On a board of [ROWS] rows of [COLS] cells [collision] never
    raises, for any piece and any offset, and it answers [True] exactly
    when some cell of the piece at that offset is left or right of the
    columns, below the last row, or on an occupied cell of the board; a
    cell above the first row counts only when it is outside the columns. *)
Theorem collision_spec (s : GameState) (p : Piece) (xo yo : Z) :
  board_ok (board s) ->
  exists r,
    collision s p xo yo = Ok r
    /\ (r = true <->
        exists x y, In (x, y) (get_cells p xo yo)
                    /\ (x < 0 \/ COLS <= x \/ ROWS <= y
                        \/ (0 <= y /\ cell_at (board s) x y <> None))).
Proof.
  intros Hb. rewrite (collision_total s p xo yo Hb).
  eexists. split; [reflexivity|]. unfold collides.
  rewrite existsb_exists. split.
  - intros ([x y] & Hin & Hh). exists x, y. split; [exact Hin|].
    now apply cell_hits_spec.
  - intros (x & y & Hin & Hh). exists (x, y). split; [exact Hin|].
    now apply cell_hits_spec.
Qed.

Lemma collision_spec_witness :
  collision demo_state (active demo_state) (-5) 0 = Ok true
  /\ collision demo_state (active demo_state) 0 0 = Ok false.
Proof.
  destruct (collision_spec demo_state (active demo_state) (-5) 0
              ltac:(vm_compute; split; [reflexivity|repeat constructor]))
    as (r & E & Hr).
  split; [|vm_compute; reflexivity].
  rewrite E. f_equal. apply Hr. exists (-1), (-2).
  split; [vm_compute; tauto|lia].
Defined.

(** ** No full row stays on the board *)

(** X21.  In every state the game gets into, every row of the board has
    an empty cell: full rows are gone by the time [lock_piece] returns. *)
Theorem no_full_row_in_play (s : GameState) (y : Z) :
  reachable s -> 0 <= y < ROWS ->
  exists x, 0 <= x < COLS /\ board_get (board s) y x = Ok None.
Proof.
  intros Hr Hy. pose proof (reachable_play_inv s Hr) as Hp.
  pose proof (inv_board s (play_base s Hp)) as Hb.
  destruct (board_ok_row (board s) y Hb Hy) as (row & Hrow & Hlen).
  pose proof (play_rows s Hp) as Hrows.
  rewrite Forall_lookup in Hrows. specialize (Hrows _ _ Hrow).
  unfold has_empty_cell in Hrows. apply existsb_exists in Hrows.
  destruct Hrows as (c & Hin & Hc). destruct c; [discriminate|].
  apply list_elem_of_In, list_elem_of_lookup in Hin. destruct Hin as (i & Hi).
  pose proof (lookup_lt_Some _ _ _ Hi) as Hlt.
  exists (Z.of_nat i). unfold len in Hlen. split; [lia|].
  rewrite (board_get_ok (board s) (Z.of_nat i) y Hb); [|unfold on_board; cbn; lia].
  f_equal. unfold cell_at. rewrite Hrow, Nat2Z.id, Hi. reflexivity.
Qed.

Lemma no_full_row_in_play_witness :
  exists x, 0 <= x < COLS /\ board_get (board demo_state) 19 x = Ok None.
Proof.
  exact (no_full_row_in_play demo_state 19 demo_reachable
           ltac:(unfold ROWS; lia)).
Defined.

(** ** What is painted *)

Lemma for_each_total {A : Type} (l : list A)
    (body : A -> res (list (Color * Rect))) (f : A -> list (Color * Rect)) :
  (forall a, In a l -> body a = Ok (f a)) ->
  for_each l body = Ok (flat_map f l).
Proof.
  induction l as [|a l IH]; intros H; [reflexivity|].
  cbn [for_each flat_map]. rewrite (H a) by (left; reflexivity). cbn [bind].
  rewrite IH by (intros b Hb; apply H; right; exact Hb). reflexivity.
Qed.

Lemma range_In (n i : Z) : In i (range n) <-> 0 <= i < n.
Proof.
  unfold range. rewrite in_map_iff. split.
  - intros (k & <- & Hk). apply in_seq in Hk. lia.
  - intros Hi. exists (Z.to_nat i). split; [lia|]. apply in_seq. lia.
Qed.

Lemma draw_board_blocks (s : GameState) :
  board_ok (board s) ->
  draw_board s =
  Ok ((GRAY, (0, 0, PLAY_WIDTH, ROWS * CELL)) :: board_blocks (board s)).
Proof.
  intros Hb. unfold draw_board, board_blocks.
  erewrite for_each_total; [reflexivity|].
  intros r Hr. apply for_each_total. intros c Hc.
  apply range_In in Hr, Hc.
  rewrite (board_get_ok (board s) c r Hb) by (split; assumption).
  cbn [bind]. now destruct (cell_at (board s) c r).
Qed.

Lemma block_rect_inj (x y x' y' : Z) :
  block_rect x y = block_rect x' y' -> x = x' /\ y = y'.
Proof. unfold block_rect, CELL. intros H. injection H as H1 H2. lia. Qed.

Lemma board_blocks_In (b : Board) (d : Color * Rect) :
  In d (board_blocks b)
  <-> exists x y k, on_board (x, y) /\ cell_at b x y = Some k
                    /\ d = (KEY_TO_COLOR k, block_rect x y).
Proof.
  unfold board_blocks. rewrite in_flat_map. split.
  - intros (r & Hr' & Hd). apply in_flat_map in Hd.
    destruct Hd as (c & Hc & Hd). apply range_In in Hr', Hc.
    destruct (cell_at b c r) as [k|] eqn:E; [|destruct Hd].
    destruct Hd as [<-|[]]. exists c, r, k.
    split; [split; assumption|]. split; [exact E|reflexivity].
  - intros (x & y & k & (Hx & Hy) & E & ->). cbn [fst snd] in Hx, Hy.
    exists y. split; [now apply range_In|].
    apply in_flat_map. exists x. split; [now apply range_In|].
    rewrite E. left. reflexivity.
Qed.



Lemma draw_piece_In (p : Piece) (d : Color * Rect) :
  In d (draw_piece p false)
  <-> exists x y, In (x, y) (get_cells p 0 0) /\ 0 <= y
                  /\ d = (KEY_TO_COLOR (kind p), block_rect x y).
Proof.
  unfold draw_piece. rewrite in_flat_map. split.
  - intros ([x y] & Hin & Hd). cbn [fst snd] in Hd.
    destruct (Z.geb_spec y 0) as [Hy|Hy]; [|destruct Hd].
    destruct Hd as [<-|[]]. exists x, y. repeat split; [exact Hin|lia].
  - intros (x & y & Hin & Hy & ->). exists (x, y). split; [exact Hin|].
    cbn [fst snd]. destruct (Z.geb_spec y 0) as [_|Hn]; [|lia].
    left. reflexivity.
Qed.

Lemma flat_map_length_le {A B : Type} (f : A -> list B) (l : list A) :
  (forall a, (length (f a) <= 1)%nat) ->
  (length (flat_map f l) <= length l)%nat.
Proof.
  intros Hf. induction l as [|a l IH]; [reflexivity|].
  cbn [flat_map]. rewrite length_app. specialize (Hf a). cbn [length]. lia.
Qed.

Lemma dropped_reachable : reachable dropped_state.
Proof.
  apply (run_reachable [KeySoftDrop; KeySoftDrop; KeySoftDrop] demo_state);
    [exact demo_reachable|].
  vm_compute. reflexivity.
Qed.

(** X23.  When the game is not over, [draw_piece] paints the active piece
    on empty squares only: at most four squares, each the square of a cell
    of the piece that lies on the board and is empty, and none of them a
    square in which [draw_board] paints a block.  Cells of the piece above
    the first row are not painted. *)
Theorem draw_piece_on_empty_squares (s : GameState) (col : Color) (rect : Rect) :
  reachable s -> game_over s = false ->
  In (col, rect) (draw_piece (active s) false) ->
  col = KEY_TO_COLOR (kind (active s))
  /\ (length (draw_piece (active s) false) <= 4)%nat
  /\ (exists x y,
        rect = block_rect x y /\ In (x, y) (get_cells (active s) 0 0)
        /\ on_board (x, y) /\ board_get (board s) y x = Ok None)
  /\ (exists blocks,
        draw_board s = Ok ((GRAY, (0, 0, PLAY_WIDTH, ROWS * CELL)) :: blocks)
        /\ ~ In rect (map snd blocks)).
Proof.
  intros Hr Hgo Hd. pose proof (reachable_play_inv s Hr) as Hp.
  pose proof (inv_board s (play_base s Hp)) as Hb.
  apply draw_piece_In in Hd. destruct Hd as (x & y & Hin & Hy & Hd).
  pose proof (f_equal fst Hd) as Hcol. pose proof (f_equal snd Hd) as Hrect.
  cbn [fst snd] in Hcol, Hrect. clear Hd.
  pose proof (collides_false_cells _ _ (play_free s Hp Hgo)) as Hfree.
  rewrite Forall_forall in Hfree.
  destruct (Hfree (x, y) ltac:(apply list_elem_of_In; exact Hin) Hy)
    as (Hon & Hnone). cbn [fst snd] in Hnone.
  split; [exact Hcol|]. split; [|split].
  - unfold draw_piece.
    rewrite <- (piece_ok_four_cells (active s) 0 0 (inv_piece s (play_base s Hp))).
    apply flat_map_length_le. intros c. destruct (snd c >=? 0); cbn; lia.
  - exists x, y. split; [exact Hrect|]. split; [exact Hin|]. split; [exact Hon|].
    rewrite (board_get_ok (board s) x y Hb Hon). now rewrite Hnone.
  - eexists. split; [exact (draw_board_blocks s Hb)|].
    rewrite in_map_iff. intros ([col' rect'] & Hs & Hin').
    cbn [snd] in Hs. subst rect'. apply board_blocks_In in Hin'.
    destruct Hin' as (x' & y' & k & _ & Hk & Hd').
    pose proof (f_equal snd Hd') as Hr'. cbn [snd] in Hr'.
    rewrite Hrect in Hr'. apply block_rect_inj in Hr'.
    destruct Hr' as (<- & <-). congruence.
Qed.

Lemma draw_piece_on_empty_squares_witness :
  In (KEY_TO_COLOR KZ, block_rect 4 1) (draw_piece (active dropped_state) false)
  /\ board_get (board dropped_state) 1 4 = Ok None.
Proof.
  assert (Hin : In (KEY_TO_COLOR KZ, block_rect 4 1)
                   (draw_piece (active dropped_state) false))
    by (vm_compute; tauto).
  split; [exact Hin|].
  destruct (draw_piece_on_empty_squares dropped_state _ _ dropped_reachable
              ltac:(vm_compute; reflexivity) Hin)
    as (_ & _ & (x & y & Hrect & _ & _ & Hget) & _).
  apply block_rect_inj in Hrect. destruct Hrect as (-> & ->). exact Hget.
Defined.
